(** * substreams: manifest validation, module signatures and store statistics

    A shallow embedding of [manifest/manifest.go] (package [manifest]) and of
    the [store-stats] command (package [tools]), with the properties of the
    specification stated over it.

    Conventions of the embedding:
    - a Go [string] is a [string] (a sequence of bytes, compared bytewise);
      a [[]byte] is a [list byte];
    - a [uint64] is a [Z], with the wrap-around written where the code adds;
    - a function that mutates its receiver returns the new receiver next to
      its result; objects reached through pointers that several callers
      share (the modules of a graph) live in an explicit heap;
    - a run-time panic is an outcome of its own. *)

From Stdlib Require Import ZArith Bool Sorted Permutation.
From Stdlib Require PrimFloat Uint63.
From Stdlib.Strings Require Import Ascii Byte String.
From stdpp Require Import base option list sorting strings gmap.

Open Scope string_scope.
Open Scope list_scope.
Open Scope stdpp_scope.

(* ===================================================================== *)
(** * Part I: definitions *)
(* ===================================================================== *)

(** ** Pieces of the Go runtime and standard library the code relies on *)
Module Go.

(** A [(value, error)] return pair: exactly one side is meaningful. *)
Inductive result (E A : Type) : Type :=
| Ok (a : A)
| Err (e : E).
Arguments Ok {E A} a.
Arguments Err {E A} e.

(** What a call can do: return, or panic (an unrecovered panic in any
    goroutine terminates the process). *)
Inductive outcome (A : Type) : Type :=
| Returns (a : A)
| Panics.
Arguments Returns {A} a.
Arguments Panics {A}.

Definition uint64_mod : Z := 2 ^ 64.
Definition uint64 (z : Z) : Z := z mod uint64_mod.

(** [[]byte(s)] *)
Definition bytes_of_string (s : string) : list byte := list_byte_of_string s.

(** *** [sort.Slice]

    [sort.Slice(x, less)] reorders [x] in place. The comparator of the
    source compares two positions of the slice being sorted; here it
    compares the two elements found there. The library promises neither
    stability nor a particular algorithm, so the embedding takes any
    function with the library's contract: the result is a permutation of the input
    and, when [less] is a transitive ordering in the sense of
    [sort.Interface] (both [less] and its complement are transitive), any
    two neighbours [p], [q] of the result are in order: the library put [p]
    first either because [less p q] or because not [less q p]. *)
Definition in_order {A} (less : A → A → bool) (p q : A) : Prop :=
  less p q = true ∨ less q p = false.

Record transitive_ordering {A} (less : A → A → bool) : Prop := {
  less_trans : ∀ x y z, less x y = true → less y z = true → less x z = true;
  less_cotrans : ∀ x y z, less x y = false → less y z = false → less x z = false
}.

Class SortSlice : Type := {
  sort_Slice : ∀ {A : Type}, (A → A → bool) → list A → list A;
  sort_Slice_perm : ∀ A (less : A → A → bool) l, sort_Slice less l ≡ₚ l;
  sort_Slice_sorted : ∀ A (less : A → A → bool) l,
    transitive_ordering less → Sorted (in_order less) (sort_Slice less l)
}.

(** [insertionSortLessFunc], the algorithm [sort.Slice] runs on slices of
    at most twelve elements: each element in turn is swapped towards the
    front while it is [less] than its left neighbour. [sink] works on the
    already sorted prefix, kept in reverse (nearest neighbour first). *)
Fixpoint sink {A} (less : A → A → bool) (x : A) (rprefix : list A) : list A :=
  match rprefix with
  | [] => [x]
  | y :: r => if less x y then y :: sink less x r else x :: y :: r
  end.

Definition insertionSort {A} (less : A → A → bool) (l : list A) : list A :=
  reverse (fold_left (λ rprefix x, sink less x rprefix) l []).

(** *** [crypto/sha1]

    [h := sha1.New(); h.Write(b); h.Sum(nil)] is the SHA-1 digest of [b]
    (FIPS 180-4): the message is padded with a one bit, zeros and its
    length in bits to a multiple of 64 bytes; each block of sixteen
    big-endian words is expanded to eighty and folded into five 32-bit
    words of state. *)
Definition w32 (z : Z) : Z := z mod 2 ^ 32.
Definition rotl32 (n x : Z) : Z :=
  w32 (Z.lor (Z.shiftl x n) (Z.shiftr x (32 - n))).

Definition Z_of_byte (b : byte) : Z := Z.of_N (Byte.to_N b).
Definition byte_of_Z (z : Z) : byte :=
  match Byte.of_N (Z.to_N (z mod 256)) with
  | Some b => b
  | None => x00
  end.

(** The [n] low bytes of [z], most significant first. *)
Fixpoint be_bytes (n : nat) (z : Z) : list byte :=
  match n with
  | O => []
  | S n' => be_bytes n' (Z.shiftr z 8) ++ [byte_of_Z z]
  end.

Definition be_word (bs : list byte) : Z :=
  fold_left (λ acc b, Z.lor (Z.shiftl acc 8) (Z_of_byte b)) bs 0%Z.

Definition sha1_pad (msg : list byte) : list byte :=
  let len := Z.of_nat (length msg) in
  msg ++ [x80] ++ repeat x00 (Z.to_nat ((55 - len) mod 64))
      ++ be_bytes 8 (uint64 (8 * len)).

Fixpoint chunks (fuel : nat) (size : nat) (l : list byte) : list (list byte) :=
  match fuel with
  | O => []
  | S fuel' =>
    match l with
    | [] => []
    | _ => take size l :: chunks fuel' size (drop size l)
    end
  end.

(** [schedule n rw]: [n] more words of the message schedule; [rw] holds
    the words so far, latest first. *)
Fixpoint schedule (n : nat) (rw : list Z) : list Z :=
  match n with
  | O => rw
  | S n' =>
    let w := rotl32 1 (Z.lxor (Z.lxor (nth 2 rw 0%Z) (nth 7 rw 0%Z))
                              (Z.lxor (nth 13 rw 0%Z) (nth 15 rw 0%Z))) in
    schedule n' (w :: rw)
  end.

Definition sha1_state : Type := Z * Z * Z * Z * Z.

Definition sha1_init : sha1_state :=
  (0x67452301, 0xEFCDAB89, 0x98BADCFE, 0x10325476, 0xC3D2E1F0)%Z.

Definition sha1_round (st : sha1_state) (tw : nat * Z) : sha1_state :=
  let '(a, b, c, d, e) := st in
  let '(t, w) := tw in
  let '(f, k) :=
    if (t <? 20)%nat then (Z.lor (Z.land b c) (Z.land (Z.lnot b) d), 0x5A827999%Z)
    else if (t <? 40)%nat then (Z.lxor (Z.lxor b c) d, 0x6ED9EBA1%Z)
    else if (t <? 60)%nat then
      (Z.lor (Z.lor (Z.land b c) (Z.land b d)) (Z.land c d), 0x8F1BBCDC%Z)
    else (Z.lxor (Z.lxor b c) d, 0xCA62C1D6%Z) in
  (w32 (rotl32 5 a + f + e + k + w), a, rotl32 30 b, c, d)%Z.

Definition sha1_block (st : sha1_state) (block : list byte) : sha1_state :=
  let w16 := map be_word (chunks 16 4 block) in
  let ws := rev (schedule 64 (rev w16)) in
  let '(a, b, c, d, e) := fold_left sha1_round (combine (seq 0 80) ws) st in
  let '(h0, h1, h2, h3, h4) := st in
  (w32 (h0 + a), w32 (h1 + b), w32 (h2 + c), w32 (h3 + d), w32 (h4 + e))%Z.

Definition sha1_Sum (msg : list byte) : list byte :=
  let padded := sha1_pad msg in
  let '(h0, h1, h2, h3, h4) :=
    fold_left sha1_block (chunks (length padded) 64 padded) sha1_init in
  be_bytes 4 h0 ++ be_bytes 4 h1 ++ be_bytes 4 h2 ++ be_bytes 4 h3 ++ be_bytes 4 h4.

End Go.

(** ** Package [pbtransform]: the messages [setInputsToProto] builds

    The generated package is not part of the sources at hand; the messages
    carry the fields the conversion sets. [InputStore_Mode] is a protobuf
    enumeration, an [int32] whose first value, [UNSET], is zero: the value a
    Go variable of the type holds before it is assigned. *)
Module pbtransform.

Definition InputStore_Mode : Type := Z.
Definition InputStore_UNSET : InputStore_Mode := 0%Z.
Definition InputStore_GET : InputStore_Mode := 1%Z.
Definition InputStore_DELTAS : InputStore_Mode := 2%Z.

Record InputSource : Type := mkInputSource { InputSource_Type : string }.
Record InputMap : Type := mkInputMap { InputMap_ModuleName : string }.
Record InputStore : Type := mkInputStore {
  InputStore_ModuleName : string;
  InputStore_Mode_ : InputStore_Mode
}.

Inductive Input : Type :=
| Input_Source (Source : InputSource)
| Input_Map (Map : InputMap)
| Input_Store (Store : InputStore).

Record Module : Type := mkModule {
  Module_Name : string;
  Module_CodeIndex : Z;
  Module_CodeEntrypoint : string;
  Module_Inputs : list Input
}.

Definition append_Input (pbModule : Module) (pbInput : Input) : Module :=
  mkModule (Module_Name pbModule) (Module_CodeIndex pbModule)
           (Module_CodeEntrypoint pbModule) (Module_Inputs pbModule ++ [pbInput]).

End pbtransform.

(** ** Package [manifest] *)
Module manifest.
Import Go.

Definition ModuleKindStore : string := "store".
Definition ModuleKindMap : string := "map".

Record Input : Type := mkInput {
  Input_Source : string;
  Input_Store : string;
  Input_Map : string;
  Input_Mode : string;
  Input_Name : string
}.

Record Code : Type := mkCode {
  Code_File : string;
  Code_Native : string;
  Code_Content : list byte;
  Code_Entrypoint : string
}.

Record StreamOutput : Type := mkStreamOutput {
  StreamOutput_Type : string
}.

Record Module : Type := mkModule {
  Module_Name : string;
  Module_Kind : string;
  Module_UpdatePolicy : string;
  Module_ValueType : string;
  Module_Code : Code;
  Module_Inputs : list Input;
  Module_Output : StreamOutput
}.

(** The errors the package builds with [errors.New] and [fmt.Errorf], one
    constructor per message:
    - [ErrInputMode name]:
      input %q: 'mode' parameter must be one of: 'get', 'deltas'
    - [ErrInputOneOf]:
      one, and only one of 'map', 'store' or 'source' must be specified
    - [ErrMissingUpdatePolicy]:
      missing 'output.updatePolicy' for kind 'store'
    - [ErrMissingValueType]:
      missing 'output.valueType' for kind 'store'
    - [ErrInvalidCombination combinations]:
      invalid 'output.updatePolicy' and 'output.valueType' combination,
      use one of: %s
    - [ErrInvalidInput]: invalid input *)
Inductive error : Type :=
| ErrInputMode (name : string)
| ErrInputOneOf
| ErrMissingUpdatePolicy
| ErrMissingValueType
| ErrInvalidCombination (combinations : list string)
| ErrInvalidInput.

Definition nonempty (s : string) : bool := negb (String.eqb s "").
Definition isempty (s : string) : bool := String.eqb s "".

Definition set_Name (i : Input) (name : string) : Input :=
  mkInput (Input_Source i) (Input_Store i) (Input_Map i) (Input_Mode i) name.
Definition set_Mode (i : Input) (mode : string) : Input :=
  mkInput (Input_Source i) (Input_Store i) (Input_Map i) mode (Input_Name i).

(** [func (i *Input) parse() error]: the input after the call, and the
    error ([None] is [nil]). *)
Definition Input_parse (i : Input) : Input * option error :=
  if nonempty (Input_Map i) && isempty (Input_Store i) && isempty (Input_Source i) then
    (set_Name i ("map:" +:+ Input_Map i), None)
  else if nonempty (Input_Store i) && isempty (Input_Map i) && isempty (Input_Source i) then
    let i1 := set_Name i ("store:" +:+ Input_Store i) in
    let i2 := if isempty (Input_Mode i1) then set_Mode i1 "get" else i1 in
    if negb (String.eqb (Input_Mode i2) "get") && negb (String.eqb (Input_Mode i2) "deltas") then
      (i2, Some (ErrInputMode (Input_Name i2)))
    else (i2, None)
  else if nonempty (Input_Source i) && isempty (Input_Map i) && isempty (Input_Store i) then
    (set_Name i ("source:" +:+ Input_Source i), None)
  else (i, Some ErrInputOneOf).

Definition combinations : list string :=
  [ "max:bigint"; "max:int64"; "max:bigfloat"; "max:float64";
    "min:bigint"; "min:int64"; "min:bigfloat"; "min:float64";
    "sum:bigint"; "sum:int64"; "sum:bigfloat"; "sum:float64";
    "replace:bytes"; "replace:string"; "replace:proto";
    "ignore:bytes"; "ignore:string"; "ignore:proto" ].

(** [func validateStoreBuilder(module *Module) error] *)
Definition validateStoreBuilder (module : Module) : option error :=
  if isempty (Module_UpdatePolicy module) then Some ErrMissingUpdatePolicy
  else if isempty (Module_ValueType module) then Some ErrMissingValueType
  else
    let found :=
      fold_left
        (λ found comb,
           if String.eqb (Module_UpdatePolicy module +:+ ":" +:+ Module_ValueType module) comb
           then true else found)
        combinations false in
    if negb found then Some (ErrInvalidCombination combinations) else None.

(** *** The module graph and the heap of modules

    A [*Module] is an address in a heap of modules: the manifest, the
    graph and every caller hold the same objects, so what [Signature]
    writes into a module is seen by all of them.

    [ModuleGraph] and its method [AncestorsOf] are declared in another file
    of the package; the embedding takes the method as it is called here,
    [AncestorsOf(name) ([]*Module, error)], as a field. *)
Abbreviation ptr := nat (only parsing).
Abbreviation heap := (list Module) (only parsing).

Record ModuleGraph : Type := mkModuleGraph {
  AncestorsOf : string → result string (list ptr)
}.

Definition set_Inputs (m : Module) (inputs : list Input) : Module :=
  mkModule (Module_Name m) (Module_Kind m) (Module_UpdatePolicy m)
           (Module_ValueType m) (Module_Code m) inputs (Module_Output m).

(** The comparator of [sort.Slice(m.Inputs, ...)]: [Name < Name]. *)
Definition less_Name (i j : Input) : bool :=
  String.ltb (Input_Name i) (Input_Name j).

(** [for _, input := range m.Inputs { buf.WriteString(input.Name) }] *)
Definition write_names (inputs : list Input) (buf : list byte) : list byte :=
  fold_left (λ buf input, buf ++ bytes_of_string (Input_Name input)) inputs buf.

(** [for _, ancestor := range ancestors { buf.Write(ancestor.Signature(graph)) }],
    over the recursive call [sig]; every call may write to the heap. *)
Fixpoint write_sigs (sig : ptr → heap → option (list byte * heap))
    (ancestors : list ptr) (buf : list byte) (h : heap) : option (list byte * heap) :=
  match ancestors with
  | [] => Some (buf, h)
  | ancestor :: rest =>
    '(s, h') ← sig ancestor h;
    write_sigs sig rest (buf ++ s) h'
  end.

(** [func (m *Module) Signature(graph *ModuleGraph) []byte]: the digest
    and the heap after the call. The recursion of the source follows the
    graph, so the embedding counts it down with [fuel]; [None] is a call
    that ran out of fuel or followed an address that holds no module. The
    error of [AncestorsOf] is discarded by the source, which then ranges
    over a nil slice. *)
Fixpoint Module_Signature `{SortSlice} (fuel : nat) (graph : ModuleGraph)
    (m : ptr) (h : heap) : option (list byte * heap) :=
  match fuel with
  | O => None
  | S fuel' =>
    this ← h !! m;
    let buf := bytes_of_string (Module_Kind this) in
    let buf := buf ++ Code_Content (Module_Code this) in
    let buf := buf ++ bytes_of_string (Code_Entrypoint (Module_Code this)) in
    let inputs := sort_Slice less_Name (Module_Inputs this) in
    let h := <[m := set_Inputs this inputs]> h in
    let buf := write_names inputs buf in
    let ancestors :=
      match AncestorsOf graph (Module_Name this) with
      | Ok ancestors => ancestors
      | Err _ => []
      end in
    '(buf, h) ← write_sigs (Module_Signature fuel' graph) ancestors buf h;
    Some (sha1_Sum buf, h)
  end.

(** The bytes [Signature] returns. *)
Definition signature `{SortSlice} (fuel : nat) (graph : ModuleGraph)
    (m : ptr) (h : heap) : option (list byte) :=
  fst <$> Module_Signature fuel graph m h.


(** The [switch input.Mode] of [setInputsToProto]; [mode] starts at its
    zero value and no case is a default. *)
Definition mode_of_string (mode : string) : pbtransform.InputStore_Mode :=
  if String.eqb mode "UNSET" then pbtransform.InputStore_UNSET
  else if String.eqb mode "GET" then pbtransform.InputStore_GET
  else if String.eqb mode "Delta" then pbtransform.InputStore_DELTAS
  else 0%Z.

(** One turn of the loop of [setInputsToProto]: the message appended for
    [input], or the error that ends the loop. *)
Definition input_to_proto (m : Module) (input : Input) : result error pbtransform.Input :=
  if nonempty (Input_Source input) then
    Ok (pbtransform.Input_Source (pbtransform.mkInputSource (Input_Source input)))
  else if nonempty (Input_Map input) then
    Ok (pbtransform.Input_Map (pbtransform.mkInputMap (Input_Source input)))
  else if nonempty (Input_Store input) then
    Ok (pbtransform.Input_Store
          (pbtransform.mkInputStore (Module_Name m) (mode_of_string (Input_Mode input))))
  else Err ErrInvalidInput.

(** [func (m *Module) setInputsToProto(pbModule *pbtransform.Module) error]:
    the message after the call and the error. *)
Fixpoint setInputsToProto_loop (m : Module) (inputs : list Input)
    (pbModule : pbtransform.Module) : pbtransform.Module * option error :=
  match inputs with
  | [] => (pbModule, None)
  | input :: rest =>
    match input_to_proto m input with
    | Ok pbInput => setInputsToProto_loop m rest (pbtransform.append_Input pbModule pbInput)
    | Err e => (pbModule, Some e)
    end
  end.

Definition Module_setInputsToProto (m : Module) (pbModule : pbtransform.Module)
    : pbtransform.Module * option error :=
  setInputsToProto_loop m (Module_Inputs m) pbModule.

End manifest.


(** ** Package [tools]: the [store-stats] command *)
Module tools.
Import Go.

(** *** What the command consumes

    The storage layer ([store2]), the module messages ([pbsubstreams]) and
    the graph are declared outside the sources at hand. The embedding
    gives each the fields and methods the command uses; a method that
    performs I/O is the result it returns. *)

(** [float64] and the operations of [calculateStoreStats] and [stdDev]:
    the properties below hold whatever the arithmetic is. *)
Class Float64 : Type := {
  float64 : Type;
  float64_of_Z : Z → float64;
  float64_add : float64 → float64 → float64;
  float64_sub : float64 → float64 → float64;
  float64_div : float64 → float64 → float64;
  math_Pow : float64 → float64 → float64;
  math_Sqrt : float64 → float64
}.

(** The errors of the command: the sentinel [EmptyStoreError], an error
    returned by the storage layer, and [fmt.Errorf("...: %w", err)]. *)
Inductive error : Type :=
| EmptyStoreError
| External (msg : string)
| Wrapped (msg : string) (cause : error).

(** [errors.Is(err, EmptyStoreError)] *)
Fixpoint is_EmptyStoreError (err : error) : bool :=
  match err with
  | EmptyStoreError => true
  | External _ => false
  | Wrapped _ cause => is_EmptyStoreError cause
  end.

(** [store2.FileInfo] *)
Record FileInfo : Type := mkFileInfo {
  FileInfo_StartBlock : Z;
  FileInfo_EndBlock : Z;
  FileInfo_Filename : string;
  FileInfo_Partial : bool
}.

(** A loaded [store2.Store]: its entries, in the order [Iter] visits them. *)
Definition Store : Type := list (string * list byte).

(** Modelled from the spec: the storage backend's [Iter], which is declared
    outside the sources at hand, visits every key/value pair exactly once and
    stops at the first error of the visitor. *)
Fixpoint Store_Iter {S} (s : Store) (f : string → list byte → S → S * option error)
    (st : S) : S * option error :=
  match s with
  | [] => (st, None)
  | (key, value) :: rest =>
    match f key value st with
    | (st', None) => Store_Iter rest f st'
    | (st', Some err) => (st', Some err)
    end
  end.

(** [store2.Config]: the identity of a store and its namespace.
    [Config_Load endBlock] is [conf.NewFullKV(zlog)] followed by
    [s.Load(ctx, endBlock)]. *)
Record Config : Type := mkConfig {
  Config_Name : string;
  Config_ModuleHash : string;
  Config_ValueType : string;
  Config_UpdatePolicy : string;
  Config_ModuleInitialBlock : Z;
  Config_ListSnapshotFiles : result error (list FileInfo);
  Config_Load : Z → result error Store;
  Config_FileSize : FileInfo → result error Z
}.

(** [pbsubstreams.Module], with [GetKindStore() != nil] as [Module_IsStore]. *)
Record Module : Type := mkModule {
  Module_Name : string;
  Module_InitialBlock : Z;
  Module_IsStore : bool
}.

(** [manifest.ModuleGraph], as the command uses it. *)
Record ModuleGraph : Type := mkModuleGraph {
  TopologicalSort : result string (list Module)
}.

(** [block.Range] *)
Record Range : Type := mkRange {
  Range_StartBlock : Z;
  Range_ExclusiveEndBlock : Z
}.

(** *** The statistics records *)
Record StatsFileInfo : Type := mkStatsFileInfo {
  FileName : string;
  FileSize : Z;
  FileBlockRange : Range
}.

Record KeyStats `{Float64} : Type := mkKeyStats {
  KeyStats_TotalSize : Z;
  KeyStats_LargestSize : Z;
  KeyStats_AverageSize : float64;
  KeyStats_StdDevSize : float64;
  KeyStats_Largest : string
}.

Record ValueStats `{Float64} : Type := mkValueStats {
  ValueStats_TotalSize : Z;
  ValueStats_LargestSize : Z;
  ValueStats_AverageSize : float64;
  ValueStats_StdDevSize : float64;
  ValueStats_Largest : string
}.

Record StoreStats `{Float64} : Type := mkStoreStats {
  Name : string;
  ModuleHash : string;
  InitialBlock : Z;
  ValueType : string;
  UpdatePolicy : string;
  KeysCount : Z;
  FileInfo_ : option StatsFileInfo;
  KeyStats_ : option KeyStats;
  ValueStats_ : option ValueStats
}.

Section WithFloat.
Context `{Float64}.

(** [func initializeStoreStats(conf *store2.Config) *StoreStats] *)
Definition initializeStoreStats (conf : Config) : StoreStats :=
  mkStoreStats _ (Config_Name conf) (Config_ModuleHash conf)
    (Config_ModuleInitialBlock conf) (Config_ValueType conf)
    (Config_UpdatePolicy conf) 0 None None None.

(** The loop of [getStore] that keeps the files not flagged partial. *)
Definition kvFiles_of (files : list FileInfo) : list FileInfo :=
  fold_left (λ kvFiles file,
               if FileInfo_Partial file then kvFiles else kvFiles ++ [file])
            files [].

(** The comparator of the reverse sort: [EndBlock >= EndBlock]. *)
Definition ge_EndBlock (a b : FileInfo) : bool :=
  (FileInfo_EndBlock a >=? FileInfo_EndBlock b)%Z.

(** [func getStore(ctx, conf) (store2.Store, *store2.FileInfo, error)];
    [kvFiles[0]] panics when the slice is empty. *)
Definition getStore `{SortSlice} (conf : Config)
    : outcome (result error (Store * FileInfo)) :=
  match Config_ListSnapshotFiles conf with
  | Err err => Returns (Err (Wrapped "listing snapshot files" err))
  | Ok files =>
    if (length files =? 0)%nat then Returns (Err EmptyStoreError)
    else
      let kvFiles := kvFiles_of files in
      let kvFiles := sort_Slice ge_EndBlock kvFiles in
      match kvFiles with
      | [] => Panics
      | latestFile :: _ =>
        match Config_Load conf (FileInfo_EndBlock latestFile) with
        | Err err => Returns (Err (Wrapped "loading store" err))
        | Ok s => Returns (Ok (s, latestFile))
        end
      end
  end.

(** [func stdDev(xs []float64, mean float64) float64] *)
Definition stdDev (xs : list float64) (mean : float64) : float64 :=
  let sum :=
    fold_left (λ sum x, float64_add sum (math_Pow (float64_sub x mean) (float64_of_Z 2)))
              xs (float64_of_Z 0) in
  math_Sqrt (float64_div sum (float64_of_Z (Z.of_nat (length xs)))).

(** What the visitor of [calculateStoreStats] updates: the count, the
    two records [stats.KeyStats] and [stats.ValueStats] point to, and
    the two slices of lengths. *)
Record visit_state : Type := mkVisit {
  v_KeysCount : Z;
  v_KeyStats : KeyStats;
  v_ValueStats : ValueStats;
  v_keyLens : list float64;
  v_valueLens : list float64
}.

Definition len_string (s : string) : Z := Z.of_nat (String.length s).
Definition len_bytes (b : list byte) : Z := Z.of_nat (length b).

(** The function literal passed to [stateStore.Iter]. *)
Definition visit (key : string) (value : list byte) (st : visit_state)
    : visit_state * option error :=
  let count := uint64 (v_KeysCount st + 1) in
  let ks := v_KeyStats st in
  let vs := v_ValueStats st in
  let vtotal := uint64 (ValueStats_TotalSize vs + len_bytes value) in
  let ktotal := uint64 (KeyStats_TotalSize ks + len_string key) in
  let keyLens := v_keyLens st ++ [float64_of_Z (len_string key)] in
  let valueLens := v_valueLens st ++ [float64_of_Z (len_bytes value)] in
  let ks :=
    if (len_string key >? KeyStats_LargestSize ks)%Z
    then mkKeyStats _ ktotal (len_string key) (KeyStats_AverageSize ks)
                    (KeyStats_StdDevSize ks) key
    else mkKeyStats _ ktotal (KeyStats_LargestSize ks) (KeyStats_AverageSize ks)
                    (KeyStats_StdDevSize ks) (KeyStats_Largest ks) in
  let vs :=
    if (len_bytes value >? ValueStats_LargestSize vs)%Z
    then mkValueStats _ vtotal (len_bytes value) (ValueStats_AverageSize vs)
                      (ValueStats_StdDevSize vs) key
    else mkValueStats _ vtotal (ValueStats_LargestSize vs) (ValueStats_AverageSize vs)
                      (ValueStats_StdDevSize vs) (ValueStats_Largest vs) in
  (mkVisit count ks vs keyLens valueLens, None).

Definition set_stats (stats : StoreStats) (count : Z)
    (ks : option KeyStats) (vs : option ValueStats) : StoreStats :=
  mkStoreStats _ (Name stats) (ModuleHash stats) (InitialBlock stats)
    (ValueType stats) (UpdatePolicy stats) count (FileInfo_ stats) ks vs.

(** [func calculateStoreStats(stateStore store2.Store, stats *StoreStats) error]:
    the record after the call and the error. *)
Definition calculateStoreStats (stateStore : Store) (stats : StoreStats)
    : StoreStats * option error :=
  let zero := float64_of_Z 0 in
  let keyStats := mkKeyStats _ 0 0 zero zero "" in
  let valueStats := mkValueStats _ 0 0 zero zero "" in
  let st := mkVisit (KeysCount stats) keyStats valueStats [] [] in
  match Store_Iter stateStore visit st with
  | (st, Some err) =>
    (set_stats stats (v_KeysCount st) (Some (v_KeyStats st)) (Some (v_ValueStats st)),
     Some (Wrapped "iterating store" err))
  | (st, None) =>
    let ks := v_KeyStats st in
    let vs := v_ValueStats st in
    if (v_KeysCount st >? 0)%Z then
      let meanKeyLen :=
        float64_div (float64_of_Z (KeyStats_TotalSize ks)) (float64_of_Z (v_KeysCount st)) in
      let keyLenStdDev := stdDev (v_keyLens st) meanKeyLen in
      let meanValueLen :=
        float64_div (float64_of_Z (ValueStats_TotalSize vs)) (float64_of_Z (v_KeysCount st)) in
      let valueLenStdDev := stdDev (v_valueLens st) meanValueLen in
      let ks := mkKeyStats _ (KeyStats_TotalSize ks) (KeyStats_LargestSize ks)
                           meanKeyLen keyLenStdDev (KeyStats_Largest ks) in
      let vs := mkValueStats _ (ValueStats_TotalSize vs) (ValueStats_LargestSize vs)
                             meanValueLen valueLenStdDev (ValueStats_Largest vs) in
      (set_stats stats (v_KeysCount st) (Some ks) (Some vs), None)
    else
      (set_stats stats (v_KeysCount st) None None, None)
  end.

Definition set_FileInfo (stats : StoreStats) (fi : StatsFileInfo) : StoreStats :=
  mkStoreStats _ (Name stats) (ModuleHash stats) (InitialBlock stats)
    (ValueType stats) (UpdatePolicy stats) (KeysCount stats) (Some fi)
    (KeyStats_ stats) (ValueStats_ stats).

(** The goroutine [StoreStatsE] starts for [module]: [Some stats] when
    it sends [stats] on the channel, [None] when it returns without
    sending. [newConfig] is the result of [store2.NewConfig] for the
    module. *)
Definition module_goroutine `{SortSlice} (module : Module) (newConfig : result error Config)
    : outcome (option StoreStats) :=
  if negb (Module_IsStore module) then Returns None
  else
    match newConfig with
    | Err _ => Returns None
    | Ok conf =>
      let storeStats := initializeStoreStats conf in
      match getStore conf with
      | Panics => Panics
      | Returns (Err err) =>
        if is_EmptyStoreError err then Returns (Some storeStats) else Returns None
      | Returns (Ok (stateStore, fileInfo)) =>
        match Config_FileSize conf fileInfo with
        | Err _ => Returns None
        | Ok fileSize =>
          let storeStats :=
            set_FileInfo storeStats
              (mkStatsFileInfo (FileInfo_Filename fileInfo) fileSize
                 (mkRange (FileInfo_StartBlock fileInfo) (FileInfo_EndBlock fileInfo))) in
          match calculateStoreStats stateStore storeStats with
          | (_, Some _) => Returns None
          | (storeStats, None) => Returns (Some storeStats)
          end
        end
      end
    end.

(** The index built from [graph.TopologicalSort()], whose error the
    source discards: [sortedModulesIndex[module.Name] = i]. *)
Fixpoint index_modules (i : Z) (sortedModules : list Module)
    (sortedModulesIndex : gmap string Z) : gmap string Z :=
  match sortedModules with
  | [] => sortedModulesIndex
  | module :: rest =>
    index_modules (i + 1) rest (<[Module_Name module := i]> sortedModulesIndex)
  end.

Definition sortedModulesIndex_of (graph : ModuleGraph) : gmap string Z :=
  let sortedModules :=
    match TopologicalSort graph with
    | Ok sortedModules => sortedModules
    | Err _ => []
    end in
  index_modules 0 sortedModules ∅.

(** Reading a Go map: the zero value for a missing key. *)
Definition index_of (sortedModulesIndex : gmap string Z) (name : string) : Z :=
  default 0%Z (sortedModulesIndex !! name).

(** The comparator of the final sort. *)
Definition after_in (sortedModulesIndex : gmap string Z) (a b : StoreStats) : bool :=
  (index_of sortedModulesIndex (Name a) >? index_of sortedModulesIndex (Name b))%Z.

(** The end of [StoreStatsE]: [stats] holds the records in the order the
    channel delivered them; the result is the slice that is marshalled. *)
Definition sort_stats `{SortSlice} (graph : ModuleGraph) (stats : list StoreStats)
    : list StoreStats :=
  sort_Slice (after_in (sortedModulesIndex_of graph)) stats.

End WithFloat.

End tools.

(** ** Package [pbtransform], continued: the messages [ToProto] builds

    A converted module is the message [setInputsToProto] fills, with the two
    fields [Module.ToProto] sets besides: [Output] and [Kind]. The values of
    the generated enumerations and the generated table
    [KindStore_UpdatePolicy_value] are taken as they come. *)
Module pbtransform_manifest.

Class Generated : Type := {
  ModuleCode_WASM_RUST_V1 : Z;
  ModuleCode_NATIVE : Z;
  KindStore_UpdatePolicy_value : gmap string Z
}.

Record ModuleCode : Type := mkModuleCode {
  ModuleCode_CodeType : Z;
  ModuleCode_Bytecode : list byte
}.

Record Output : Type := mkOutput { Output_Type : string }.

Inductive Kind : Type :=
| Module_KindMap (OutputType : string)
| Module_KindStore (UpdatePolicy : Z) (ValueType : string).

Record Module : Type := mkModule {
  Module_fields : pbtransform.Module;
  Module_Output : option Output;
  Module_Kind : option Kind
}.

Record Manifest : Type := mkManifest {
  Manifest_SpecVersion : string;
  Manifest_Description : string;
  Manifest_Modules : list Module;
  Manifest_ModulesCode : list ModuleCode
}.

End pbtransform_manifest.

(** ** Package [manifest], continued: loading, the diagram, the conversion *)
Module manifest_more.
Import Go manifest.

(** [ModuleNameRegexp.MatchString] for the expression [^[a-zA-Z]+[\w]*$]: a
    letter, then letters, digits and underscores to the end of the name. *)
Definition is_letter (c : ascii) : bool :=
  let n := nat_of_ascii c in
  (Nat.leb 65 n && Nat.leb n 90) || (Nat.leb 97 n && Nat.leb n 122).

Definition is_word (c : ascii) : bool :=
  let n := nat_of_ascii c in
  is_letter c || (Nat.leb 48 n && Nat.leb n 57) || Nat.eqb n 95.

Fixpoint all_word (s : string) : bool :=
  match s with
  | EmptyString => true
  | String c s' => is_word c && all_word s'
  end.

Definition ModuleNameRegexp_MatchString (s : string) : bool :=
  match s with
  | EmptyString => false
  | String c s' => is_letter c && all_word s'
  end.

(** The errors of [New] and [newWithoutLoad], one constructor per message:
    - [ErrDecodingYaml err]: decoding yaml: %w
    - [ErrCodeType codeType]: invalid value %q for 'codeType'
    - [ErrModuleName name]: module name %s does not match regex %s
    - [ErrMissingOutputType name]: stream %q: missing 'output.type' for kind 'map'
    - [ErrStream name err]: stream %q: %w
    - [ErrInvalidKind name kind]: stream %q: invalid kind %q
    - [ErrModule name err]: module %q: %w
    - [ErrModulesGraph err]: computing modules graph: %w
    - [ErrParsingProto protoFiles err]: error parsing proto files %q: %w
    - [ErrReadingFile file err]: reading file %q: %w
    - [ErrEmptyFile file]: reference wasm file empty: %s *)
Inductive load_error : Type :=
| ErrDecodingYaml (err : string)
| ErrCodeType (codeType : string)
| ErrModuleName (name : string)
| ErrMissingOutputType (name : string)
| ErrStream (name : string) (err : error)
| ErrInvalidKind (name kind : string)
| ErrModule (name : string) (err : error)
| ErrModulesGraph (err : string)
| ErrParsingProto (protoFiles : list string) (err : string)
| ErrReadingFile (file : string) (err : string)
| ErrEmptyFile (file : string).

(** The errors of [ToProto]:
    - [ErrReadingCode codePath err]: reading code from file, %s: %w
    - [ErrInvalidCodeType]: invalid code type, %s
    - [ErrLoadingCode err]: loading code: %w
    - [ErrSettingInput name err]: setting input for module, %s: %w
    - [ErrConvertingModule name err]: converting mondule, %s: %w *)
Inductive proto_error : Type :=
| ErrReadingCode (codePath : string) (err : string)
| ErrInvalidCodeType
| ErrLoadingCode (err : proto_error)
| ErrSettingInput (name : string) (err : error)
| ErrConvertingModule (name : string) (err : proto_error).

Definition set_Entrypoint (s : Module) (entrypoint : string) : Module :=
  mkModule (Module_Name s) (Module_Kind s) (Module_UpdatePolicy s) (Module_ValueType s)
    (mkCode (Code_File (Module_Code s)) (Code_Native (Module_Code s))
       (Code_Content (Module_Code s)) entrypoint)
    (Module_Inputs s) (Module_Output s).

Definition set_Content (s : Module) (content : list byte) : Module :=
  mkModule (Module_Name s) (Module_Kind s) (Module_UpdatePolicy s) (Module_ValueType s)
    (mkCode (Code_File (Module_Code s)) (Code_Native (Module_Code s))
       content (Code_Entrypoint (Module_Code s)))
    (Module_Inputs s) (Module_Output s).

(** [if s.Code.Entrypoint == "" { s.Code.Entrypoint = entrypoint }] *)
Definition default_Entrypoint (s : Module) (entrypoint : string) : Module :=
  if isempty (Code_Entrypoint (Module_Code s)) then set_Entrypoint s entrypoint else s.

(** [for _, input := range s.Inputs { if err := input.parse(); ... }]: the
    inputs as parsed, or the error of the first input that fails. *)
Fixpoint parse_inputs (name : string) (inputs : list Input) : result load_error (list Input) :=
  match inputs with
  | [] => Ok []
  | input :: rest =>
    match Input_parse input with
    | (_, Some err) => Err (ErrModule name err)
    | (input', None) =>
      match parse_inputs name rest with
      | Ok rest' => Ok (input' :: rest')
      | Err err => Err err
      end
    end
  end.

(** The body of the loop of [newWithoutLoad] over the modules: the module
    as the turn leaves it, or the error that ends [newWithoutLoad]. *)
Definition check_module (s : Module) : result load_error Module :=
  if negb (ModuleNameRegexp_MatchString (Module_Name s)) then Err (ErrModuleName (Module_Name s))
  else
    let checked :=
      if String.eqb (Module_Kind s) ModuleKindMap then
        if isempty (StreamOutput_Type (Module_Output s))
        then Err (ErrMissingOutputType (Module_Name s))
        else Ok (default_Entrypoint s "map")
      else if String.eqb (Module_Kind s) ModuleKindStore then
        match validateStoreBuilder s with
        | Some err => Err (ErrStream (Module_Name s) err)
        | None => Ok (default_Entrypoint s "build_state")
        end
      else Err (ErrInvalidKind (Module_Name s) (Module_Kind s)) in
    match checked with
    | Err err => Err err
    | Ok s =>
      match parse_inputs (Module_Name s) (Module_Inputs s) with
      | Err err => Err err
      | Ok inputs => Ok (set_Inputs s inputs)
      end
    end.

Fixpoint check_modules (modules : list Module) : result load_error (list Module) :=
  match modules with
  | [] => Ok []
  | s :: rest =>
    match check_module s with
    | Err err => Err err
    | Ok s' =>
      match check_modules rest with
      | Ok rest' => Ok (s' :: rest')
      | Err err => Err err
      end
    end
  end.

(** [for _, in := range s.Inputs] of [PrintMermaid]: the three operands of
    [fmt.Printf("  %s -- %q --> %s\n", ...)] for one input. *)
Record edge : Type := mkEdge {
  edge_from : string;
  edge_label : string;
  edge_to : string
}.

(** [strings.Split(s, ":")] *)
Fixpoint strings_Split_colon (s : string) : list string :=
  match s with
  | EmptyString => [EmptyString]
  | String c s' =>
    if Ascii.eqb c ":" then EmptyString :: strings_Split_colon s'
    else
      match strings_Split_colon s' with
      | first :: others => String c first :: others
      | [] => [String c EmptyString]
      end
  end.

(** One line of the diagram; [strings.Split(in.Name, ":")[1]] panics when
    the name holds no colon. *)
Definition input_edge (s : Module) (input : Input) : outcome edge :=
  let dataPassed := Input_Name input in
  let dataPassed :=
    if nonempty (Input_Mode input) then dataPassed +:+ ":" +:+ Input_Mode input
    else dataPassed in
  match strings_Split_colon (Input_Name input) !! 1 with
  | Some from => Returns (mkEdge from dataPassed (Module_Name s))
  | None => Panics
  end.

Fixpoint module_edges (s : Module) (inputs : list Input) : outcome (list edge) :=
  match inputs with
  | [] => Returns []
  | input :: rest =>
    match input_edge s input with
    | Panics => Panics
    | Returns e =>
      match module_edges s rest with
      | Panics => Panics
      | Returns es => Returns (e :: es)
      end
    end
  end.

(** [func (m *Manifest) PrintMermaid()], as the lines it prints between the
    header and the footer of the diagram. *)
Fixpoint PrintMermaid_edges (modules : list Module) : outcome (list edge) :=
  match modules with
  | [] => Returns []
  | s :: rest =>
    match module_edges s (Module_Inputs s) with
    | Panics => Panics
    | Returns es =>
      match PrintMermaid_edges rest with
      | Panics => Panics
      | Returns es' => Returns (es ++ es')
      end
    end
  end.

Section WithOutside.
(** What the package takes from outside: the type of proto descriptors and
    the parser, the files of the disk, the YAML decoder and [NewModuleGraph]
    (declared in other files of the repository). *)
Context {FileDescriptor : Type}.
Variable ParseFiles : list string → result string (list FileDescriptor).
Variable ReadFile : string → result string (list byte).
Variable NewModuleGraph : list Module → result string ModuleGraph.

(** [Manifest]; [Modules] is the heap the graph points into. *)
Record Manifest : Type := mkManifest {
  SpecVersion : string;
  Description : string;
  CodeType : string;
  StartBlock : Z;
  ProtoFiles : list string;
  Modules : list Module;
  Graph : option ModuleGraph;
  ProtoDescs : list FileDescriptor
}.

Definition set_Modules (m : Manifest) (modules : list Module) : Manifest :=
  mkManifest (SpecVersion m) (Description m) (CodeType m) (StartBlock m) (ProtoFiles m)
    modules (Graph m) (ProtoDescs m).

Definition set_Graph (m : Manifest) (graph : ModuleGraph) : Manifest :=
  mkManifest (SpecVersion m) (Description m) (CodeType m) (StartBlock m) (ProtoFiles m)
    (Modules m) (Some graph) (ProtoDescs m).

Definition set_ProtoDescs (m : Manifest) (fileDescs : list FileDescriptor) : Manifest :=
  mkManifest (SpecVersion m) (Description m) (CodeType m) (StartBlock m) (ProtoFiles m)
    (Modules m) (Graph m) fileDescs.

(** [func newWithoutLoad(path string) ( *Manifest, error)]; [decoded] is
    what [DecodeYamlManifestFromFile(path)] returned. *)
Definition newWithoutLoad (decoded : result string Manifest) : result load_error Manifest :=
  match decoded with
  | Err err => Err (ErrDecodingYaml err)
  | Ok m =>
    if String.eqb (CodeType m) "wasm/rust-v1" || String.eqb (CodeType m) "native" then
      match check_modules (Modules m) with
      | Err err => Err err
      | Ok modules =>
        match NewModuleGraph modules with
        | Err err => Err (ErrModulesGraph err)
        | Ok graph => Ok (set_Graph (set_Modules m modules) graph)
        end
      end
    else Err (ErrCodeType (CodeType m))
  end.

(** The loop of [New] that reads the code of the modules. *)
Fixpoint load_contents (modules : list Module) : result load_error (list Module) :=
  match modules with
  | [] => Ok []
  | s :: rest =>
    let loaded :=
      if nonempty (Code_File (Module_Code s)) then
        match ReadFile (Code_File (Module_Code s)) with
        | Err err => Err (ErrReadingFile (Code_File (Module_Code s)) err)
        | Ok cnt =>
          if (length cnt =? 0)%nat then Err (ErrEmptyFile (Code_File (Module_Code s)))
          else Ok (set_Content s cnt)
        end
      else Ok s in
    match loaded with
    | Err err => Err err
    | Ok s' =>
      match load_contents rest with
      | Ok rest' => Ok (s' :: rest')
      | Err err => Err err
      end
    end
  end.

(** [func New(path string) (m *Manifest, err error)] *)
Definition New (decoded : result string Manifest) : result load_error Manifest :=
  match newWithoutLoad decoded with
  | Err err => Err err
  | Ok m =>
    match ParseFiles (ProtoFiles m) with
    | Err err => Err (ErrParsingProto (ProtoFiles m) err)
    | Ok fileDescs =>
      let m := set_ProtoDescs m fileDescs in
      match load_contents (Modules m) with
      | Err err => Err err
      | Ok modules => Ok (set_Modules m modules)
      end
    end
  end.

Context `{pbtransform_manifest.Generated}.

(** [func (m *Module) setKindToProto(pbModule *pbtransform.Module)]: the
    [Kind] it leaves in the message; a name the generated table does not
    hold reads as zero. *)
Definition setKindToProto (m : Module) : option pbtransform_manifest.Kind :=
  if String.eqb (Module_Kind m) ModuleKindMap then
    Some (pbtransform_manifest.Module_KindMap (StreamOutput_Type (Module_Output m)))
  else if String.eqb (Module_Kind m) ModuleKindStore then
    Some (pbtransform_manifest.Module_KindStore
            (default 0%Z (pbtransform_manifest.KindStore_UpdatePolicy_value
                            !! Module_UpdatePolicy m))
            (Module_ValueType m))
  else None.

(** [func (m *Module) ToProto(codeIndex uint32) ( *pbtransform.Module, error)] *)
Definition Module_ToProto (m : Module) (codeIndex : Z)
    : result proto_error pbtransform_manifest.Module :=
  let pbModule :=
    pbtransform.mkModule (Module_Name m) codeIndex (Code_Entrypoint (Module_Code m)) [] in
  let output :=
    if nonempty (StreamOutput_Type (Module_Output m))
    then Some (pbtransform_manifest.mkOutput (StreamOutput_Type (Module_Output m)))
    else None in
  let kind := setKindToProto m in
  match Module_setInputsToProto m pbModule with
  | (_, Some err) => Err (ErrSettingInput (Module_Name m) err)
  | (pbModule, None) => Ok (pbtransform_manifest.mkModule pbModule output kind)
  end.

(** [func (m *Manifest) loadCode(codePath, pbManifest) (int, error)]: the
    code table after the call, and the index or the error. *)
Definition loadCode (m : Manifest) (codePath : string)
    (modulesCode : list pbtransform_manifest.ModuleCode)
    : list pbtransform_manifest.ModuleCode * result proto_error Z :=
  match ReadFile codePath with
  | Err err => (modulesCode, Err (ErrReadingCode codePath err))
  | Ok byteCode =>
    let codeType :=
      if String.eqb (CodeType m) "wasm/rust-v1"
      then Some pbtransform_manifest.ModuleCode_WASM_RUST_V1
      else if String.eqb (CodeType m) "native"
      then Some pbtransform_manifest.ModuleCode_NATIVE
      else None in
    match codeType with
    | None => (modulesCode, Err ErrInvalidCodeType)
    | Some codeType =>
      let modulesCode :=
        modulesCode ++ [pbtransform_manifest.mkModuleCode codeType byteCode] in
      (modulesCode, Ok (Z.of_nat (length modulesCode) - 1)%Z)
    end
  end.

Definition uint32 (z : Z) : Z := z mod 2 ^ 32.

(** The loop of [ToProto]: [moduleCodeIndexes] maps a code file to its
    index in the code table. *)
Fixpoint ToProto_loop (m : Manifest) (modules : list Module)
    (moduleCodeIndexes : gmap string Z) (pbManifest : pbtransform_manifest.Manifest)
    : result proto_error pbtransform_manifest.Manifest :=
  match modules with
  | [] => Ok pbManifest
  | module :: rest =>
    let file := Code_File (Module_Code module) in
    let indexed :=
      match moduleCodeIndexes !! file with
      | Some codeIndex => Ok (codeIndex, moduleCodeIndexes, pbManifest)
      | None =>
        match loadCode m file (pbtransform_manifest.Manifest_ModulesCode pbManifest) with
        | (_, Err err) => Err (ErrLoadingCode err)
        | (modulesCode, Ok codeIndex) =>
          Ok (codeIndex, <[file := codeIndex]> moduleCodeIndexes,
              pbtransform_manifest.mkManifest
                (pbtransform_manifest.Manifest_SpecVersion pbManifest)
                (pbtransform_manifest.Manifest_Description pbManifest)
                (pbtransform_manifest.Manifest_Modules pbManifest) modulesCode)
        end
      end in
    match indexed with
    | Err err => Err err
    | Ok (codeIndex, moduleCodeIndexes, pbManifest) =>
      match Module_ToProto module (uint32 codeIndex) with
      | Err err => Err (ErrConvertingModule (Module_Name module) err)
      | Ok pbModule =>
        ToProto_loop m rest moduleCodeIndexes
          (pbtransform_manifest.mkManifest
             (pbtransform_manifest.Manifest_SpecVersion pbManifest)
             (pbtransform_manifest.Manifest_Description pbManifest)
             (pbtransform_manifest.Manifest_Modules pbManifest ++ [pbModule])
             (pbtransform_manifest.Manifest_ModulesCode pbManifest))
      end
    end
  end.

(** [func (m *Manifest) ToProto() ( *pbtransform.Manifest, error)] *)
Definition ToProto (m : Manifest) : result proto_error pbtransform_manifest.Manifest :=
  ToProto_loop m (Modules m) ∅
    (pbtransform_manifest.mkManifest (SpecVersion m) (Description m) [] []).

End WithOutside.

End manifest_more.

(* ===================================================================== *)
(** * Part II: the vocabulary of the properties *)
(* ===================================================================== *)

Import Go.

(** ** Manifests and signatures *)
Section manifest_vocabulary.
Import manifest.

(** The pairs the registry allows. *)
Definition legal_pair (policy valueType : string) : Prop :=
  (policy ∈ ["max"; "min"; "sum"] ∧ valueType ∈ ["bigint"; "int64"; "bigfloat"; "float64"])
  ∨ (policy ∈ ["replace"; "ignore"] ∧ valueType ∈ ["bytes"; "string"; "proto"]).

Definition missing_field (e : error) : Prop :=
  e = ErrMissingUpdatePolicy ∨ e = ErrMissingValueType.

Definition invalid_combination (e : error) : Prop :=
  ∃ combinations, e = ErrInvalidCombination combinations.

Fixpoint count_colon (s : string) : nat :=
  match s with
  | EmptyString => 0
  | String c s' => (if Ascii.eqb c ":" then 1 else 0) + count_colon s'
  end.

(** The parts of [s] before and after its first colon. *)
Fixpoint split_colon (s : string) : option (string * string) :=
  match s with
  | EmptyString => None
  | String c s' =>
    if Ascii.eqb c ":" then Some (EmptyString, s')
    else prod_map (String c) id <$> split_colon s'
  end.

(** Exactly one of [source], [store] and [map] is set. *)
Definition exactly_one (i : Input) : Prop :=
  (Input_Map i ≠ "" ∧ Input_Store i = "" ∧ Input_Source i = "")
  ∨ (Input_Store i ≠ "" ∧ Input_Map i = "" ∧ Input_Source i = "")
  ∨ (Input_Source i ≠ "" ∧ Input_Map i = "" ∧ Input_Store i = "").

Definition legal_mode (mode : string) : Prop := mode ∈ [""; "get"; "deltas"].

(** The name [parse] derives and the mode it leaves. *)
Definition derived_name (i : Input) : string :=
  if nonempty (Input_Source i) then "source:" +:+ Input_Source i
  else if nonempty (Input_Store i) then "store:" +:+ Input_Store i
  else "map:" +:+ Input_Map i.

Definition derived_mode (i : Input) : string :=
  if nonempty (Input_Store i) && isempty (Input_Mode i) then "get" else Input_Mode i.

(** An input as [newWithoutLoad] leaves it: [parse] returned no error. *)
Definition parsed (input : Input) : Prop :=
  ∃ i, Input_parse i = (input, None).

(** The message [setInputsToProto] appends for a parsed input. *)
Definition emitted_as (m : Module) (input : Input) (pbInput : pbtransform.Input) : Prop :=
  (Input_Store input ≠ "" →
     pbInput = pbtransform.Input_Store
                 (pbtransform.mkInputStore (Module_Name m) pbtransform.InputStore_UNSET))
  ∧ (Input_Map input ≠ "" →
     Input_Source input = ""
     ∧ pbInput = pbtransform.Input_Map (pbtransform.mkInputMap (Input_Source input)))
  ∧ (Input_Source input ≠ "" →
     pbInput = pbtransform.Input_Source (pbtransform.mkInputSource (Input_Source input))).

(** The names of a list of inputs, and the bytes [write_names] appends. *)
Definition names_of (inputs : list Input) : list string := Input_Name <$> inputs.

Definition bytes_of_names (names : list string) : list byte :=
  concat (bytes_of_string <$> names).

(** The slice [Signature] ranges over after [graph.AncestorsOf(m.Name)]. *)
Definition ancestors_of (graph : ModuleGraph) (m : Module) : list ptr :=
  match AncestorsOf graph (Module_Name m) with
  | Ok ancestors => ancestors
  | Err _ => []
  end.

(** The bytes written before the signatures of the ancestors. *)
Definition own_bytes (m : Module) (names : list string) : list byte :=
  bytes_of_string (Module_Kind m) ++ Code_Content (Module_Code m)
    ++ bytes_of_string (Code_Entrypoint (Module_Code m)) ++ bytes_of_names names.

(** Two modules with the same kind, code, entrypoint and input names, the
    names in any order. *)
Definition same_definition (m1 m2 : Module) : Prop :=
  Module_Kind m1 = Module_Kind m2
  ∧ Code_Content (Module_Code m1) = Code_Content (Module_Code m2)
  ∧ Code_Entrypoint (Module_Code m1) = Code_Entrypoint (Module_Code m2)
  ∧ names_of (Module_Inputs m1) ≡ₚ names_of (Module_Inputs m2).

(** What [Signature] may have done to a module, and to a heap: the names of
    the inputs were permuted. *)
Definition reordered (m m' : Module) : Prop :=
  Module_Name m = Module_Name m' ∧ same_definition m m'.

Definition heap_reordered : relation heap := Forall2 reordered.

(** Two modules, each in its graph and heap, that cannot be told apart by
    following ancestors [n] times. *)
Fixpoint similar (n : nat) (g1 g2 : ModuleGraph) (h1 h2 : heap) (p q : ptr) : Prop :=
  match n with
  | O => True
  | S n' =>
    match h1 !! p, h2 !! q with
    | Some m1, Some m2 =>
      same_definition m1 m2
      ∧ Forall2 (similar n' g1 g2 h1 h2) (ancestors_of g1 m1) (ancestors_of g2 m2)
    | None, None => True
    | _, _ => False
    end
  end.

(** Two calls agree: both fail, or both return the same bytes. *)
Definition agree (r1 r2 : option (list byte * heap)) : Prop :=
  match r1, r2 with
  | Some (s1, _), Some (s2, _) => s1 = s2
  | None, None => True
  | _, _ => False
  end.

(** [rank] decreases from a module to each of its ancestors, and the graph
    only hands out modules of the heap. *)
Definition acyclic (graph : ModuleGraph) (h : heap) (rank : ptr → nat) : Prop :=
  ∀ p m, h !! p = Some m →
    Forall (λ a, rank a < rank p ∧ is_Some (h !! a)) (ancestors_of graph m).

(** Two modules, each in its own graph and heap, whose definitions (kind,
    code, entrypoint, input names) are the same and whose ancestors are, one
    by one and all the way up, the same in that sense. *)
#[warnings="-register-all"]
Inductive Identical (g1 : ModuleGraph) (h1 : heap) (g2 : ModuleGraph) (h2 : heap)
    : ptr → ptr → Prop :=
| Identical_modules (p q : ptr) (m1 m2 : Module) :
    h1 !! p = Some m1 → h2 !! q = Some m2 →
    same_definition m1 m2 →
    Forall2 (Identical g1 h1 g2 h2) (ancestors_of g1 m1) (ancestors_of g2 m2) →
    Identical g1 h1 g2 h2 p q.

End manifest_vocabulary.

(** ** Snapshots and statistics *)
Section tools_vocabulary.
Import tools.
Context `{Float64}.

(** The head of the sorted slice: a file that is not partial and ends last
    among those. *)
Definition latest_of (files : list FileInfo) (latestFile : FileInfo) : Prop :=
  latestFile ∈ files
  ∧ FileInfo_Partial latestFile = false
  ∧ ∀ file, file ∈ files → FileInfo_Partial file = false →
      (FileInfo_EndBlock file ≤ FileInfo_EndBlock latestFile)%Z.

(** [getStore] once [latestFile] is chosen. *)
Definition load_of (conf : Config) (latestFile : FileInfo)
    : outcome (result error (Store * FileInfo)) :=
  match Config_Load conf (FileInfo_EndBlock latestFile) with
  | Err err => Returns (Err (Wrapped "loading store" err))
  | Ok s => Returns (Ok (s, latestFile))
  end.

(** The state after the visits of [s]. *)
Definition visited (s : Store) (st : visit_state) : visit_state :=
  fold_left (λ st entry, fst (visit (fst entry) (snd entry) st)) s st.

(** What the emitted record says about the two calls of [stdDev]: the
    record carries key and value statistics only when the store has entries,
    and then each standard deviation was taken over one length per entry. *)
Definition stdDev_over_entries (stateStore : Store) (stats : StoreStats) : Prop :=
  (∀ ks, KeyStats_ stats = Some ks →
     ∃ keyLens mean,
       KeyStats_StdDevSize ks = stdDev keyLens mean
       ∧ length keyLens = length stateStore ∧ 0 < length keyLens)
  ∧ (∀ vs, ValueStats_ stats = Some vs →
     ∃ valueLens mean,
       ValueStats_StdDevSize vs = stdDev valueLens mean
       ∧ length valueLens = length stateStore ∧ 0 < length valueLens).

(** A record that carries the identity of the store and nothing else. *)
Definition identity_only (conf : Config) (stats : StoreStats) : Prop :=
  Name stats = Config_Name conf
  ∧ ModuleHash stats = Config_ModuleHash conf
  ∧ ValueType stats = Config_ValueType conf
  ∧ UpdatePolicy stats = Config_UpdatePolicy conf
  ∧ InitialBlock stats = Config_ModuleInitialBlock conf
  ∧ FileInfo_ stats = None ∧ KeyStats_ stats = None ∧ ValueStats_ stats = None.

(** [name] is the name of the module at place [k] of the topological order. *)
Definition position (sortedModules : list Module) (name : string) (k : nat) : Prop :=
  ∃ module, sortedModules !! k = Some module ∧ Module_Name module = name.

(** [a] comes later than [b] in the topological order. *)
Definition later_than (sortedModules : list Module) (a b : StoreStats) : Prop :=
  ∃ ka kb, position sortedModules (Name a) ka ∧ position sortedModules (Name b) kb ∧ kb < ka.

(** The records come from distinct modules of the sorted list. *)
Definition from_distinct_modules (sortedModules : list Module) (stats : list StoreStats) : Prop :=
  NoDup (Name <$> stats)
  ∧ ∀ s, s ∈ stats → ∃ k, position sortedModules (Name s) k.

End tools_vocabulary.

(** ** Inputs the definitions are run on *)

(** The kernel's binary64 numbers as an instance of the arithmetic, for
    running the definitions; [math_Pow] for the exponents 0, 1 and 2 (the
    command squares). *)
Definition pow_float (x y : PrimFloat.float) : PrimFloat.float :=
  if PrimFloat.eqb y (PrimFloat.of_uint63 (Uint63.of_Z 2)) then PrimFloat.mul x x
  else if PrimFloat.eqb y PrimFloat.zero then PrimFloat.one
  else if PrimFloat.eqb y PrimFloat.one then x
  else PrimFloat.nan.

#[local] Instance binary64 : tools.Float64 := {|
  tools.float64 := PrimFloat.float;
  tools.float64_of_Z := λ z, PrimFloat.of_uint63 (Uint63.of_Z z);
  tools.float64_add := PrimFloat.add;
  tools.float64_sub := PrimFloat.sub;
  tools.float64_div := PrimFloat.div;
  tools.math_Pow := pow_float;
  tools.math_Sqrt := PrimFloat.sqrt
|}.

(** A store module reading a store (declared without a mode) and a map. *)
Definition example_reader : manifest.Module :=
  manifest.mkModule "totals" "store" "sum" "int64"
    (manifest.mkCode "totals.wasm" "" [] "build_state")
    [ fst (manifest.Input_parse (manifest.mkInput "" "prices" "" "" ""));
      fst (manifest.Input_parse (manifest.mkInput "" "" "pairs" "" "")) ]
    (manifest.mkStreamOutput "").

(** A namespace holding the three snapshots of the example. *)
Definition snapshot_100_partial : tools.FileInfo :=
  tools.mkFileInfo 0 100 "0000000100-0000000000.partial" true.
Definition snapshot_90 : tools.FileInfo :=
  tools.mkFileInfo 0 90 "0000000090-0000000000.kv" false.
Definition snapshot_80 : tools.FileInfo :=
  tools.mkFileInfo 0 80 "0000000080-0000000000.kv" false.

Definition example_conf (files : list tools.FileInfo) : tools.Config :=
  tools.mkConfig "totals" "a9993e36" "int64" "UPDATE_POLICY_ADD" 0
    (Ok files)
    (λ endBlock, Ok [("k", [x01]); ("key", [x01; x02])])
    (λ _, Ok 4096%Z).

(** Three entries with keys of 3, 5 and 7 bytes and values of 10, 20 and 30. *)
Definition example_store : tools.Store :=
  [ ("abc", repeat x00 10); ("abcde", repeat x00 20); ("abcdefg", repeat x00 30) ].

(** Three modules in topological order, and the records of two of them. *)
Definition example_sorted : list tools.Module :=
  [ tools.mkModule "pairs" 0 false; tools.mkModule "prices" 0 true;
    tools.mkModule "totals" 0 true ].

Definition example_graph : tools.ModuleGraph := tools.mkModuleGraph (Ok example_sorted).

Definition example_stats (name : string) : tools.StoreStats :=
  tools.mkStoreStats binary64 name "a9993e36" 0 "int64" "UPDATE_POLICY_ADD" 0 None None None.

Definition input_of (source store map : string) : manifest.Input :=
  fst (manifest.Input_parse (manifest.mkInput source store map "" "")).

Definition pairs_module : manifest.Module :=
  manifest.mkModule "pairs" "map" "" "" (manifest.mkCode "pairs.wasm" "" [x00; x61; x73; x6d] "map")
    [input_of "sf.ethereum.type.v1.Block" "" ""] (manifest.mkStreamOutput "proto:pairs").

Definition prices_module : manifest.Module :=
  manifest.mkModule "prices" "store" "replace" "bytes"
    (manifest.mkCode "prices.wasm" "" [x00; x61; x73; x6d; x01] "build_state")
    [input_of "" "" "pairs"] (manifest.mkStreamOutput "").

Definition totals_module : manifest.Module :=
  manifest.mkModule "totals" "store" "sum" "int64"
    (manifest.mkCode "totals.wasm" "" [x00; x61; x73; x6d; x02] "build_state")
    [input_of "" "prices" ""; input_of "" "" "pairs"] (manifest.mkStreamOutput "").

Definition example_heap : list manifest.Module :=
  [pairs_module; prices_module; totals_module].

(** [totals] reads [prices] and [pairs]; [prices] reads [pairs]. *)
Definition example_module_graph : manifest.ModuleGraph :=
  manifest.mkModuleGraph
    (λ name,
       if String.eqb name "totals" then Ok [0; 1]
       else if String.eqb name "prices" then Ok [0]
       else if String.eqb name "pairs" then Ok []
       else Err "could not find module in graph").

(** Two modules that differ in code and in entrypoint: the code of the
    first and its entrypoint, written one after the other, are the bytes of
    the code of the second followed by its entrypoint. *)
Definition collision_left : manifest.Module :=
  manifest.mkModule "left" "map" "" "" (manifest.mkCode "left.wasm" "" [x78] "yz")
    [input_of "sf.ethereum.type.v1.Block" "" ""] (manifest.mkStreamOutput "proto:out").

Definition collision_right : manifest.Module :=
  manifest.mkModule "right" "map" "" "" (manifest.mkCode "right.wasm" "" [x78; x79] "z")
    [input_of "sf.ethereum.type.v1.Block" "" ""] (manifest.mkStreamOutput "proto:out").

Definition collision_heap : list manifest.Module := [collision_left; collision_right].

Definition collision_graph : manifest.ModuleGraph :=
  manifest.mkModuleGraph (λ _, Ok []).

(** ** What [calculateStoreStats] accumulates *)
Section stats_vocabulary.
Import tools.
Context `{Float64}.

(** The lengths of the keys and of the values, in the order of the visit. *)
Definition key_lens (s : Store) : list Z := (λ entry, len_string (fst entry)) <$> s.
Definition value_lens (s : Store) : list Z := (λ entry, len_bytes (snd entry)) <$> s.

Definition sum_of (lens : list Z) : Z := foldr Z.add 0%Z lens.
Definition largest (lens : list Z) : Z := foldr Z.max 0%Z lens.

(** [key] is the key of the first entry whose length is the largest one;
    the empty string when no length is positive. *)
Definition first_largest (lens : list Z) (keys : list string) (key : string) : Prop :=
  if decide (largest lens = 0%Z) then key = ""
  else ∃ i, keys !! i = Some key ∧ lens !! i = Some (largest lens)
            ∧ ∀ j len, j < i → lens !! j = Some len → (len < largest lens)%Z.

(** The state of the visit after the entries [s], from the state
    [calculateStoreStats] starts with on a record whose count is zero. *)
Definition visit_invariant (s : Store) (st : visit_state) : Prop :=
  v_KeysCount st = uint64 (Z.of_nat (length s))
  ∧ KeyStats_TotalSize (v_KeyStats st) = uint64 (sum_of (key_lens s))
  ∧ KeyStats_LargestSize (v_KeyStats st) = largest (key_lens s)
  ∧ first_largest (key_lens s) (fst <$> s) (KeyStats_Largest (v_KeyStats st))
  ∧ KeyStats_AverageSize (v_KeyStats st) = float64_of_Z 0
  ∧ KeyStats_StdDevSize (v_KeyStats st) = float64_of_Z 0
  ∧ v_keyLens st = float64_of_Z <$> key_lens s
  ∧ ValueStats_TotalSize (v_ValueStats st) = uint64 (sum_of (value_lens s))
  ∧ ValueStats_LargestSize (v_ValueStats st) = largest (value_lens s)
  ∧ first_largest (value_lens s) (fst <$> s) (ValueStats_Largest (v_ValueStats st))
  ∧ ValueStats_AverageSize (v_ValueStats st) = float64_of_Z 0
  ∧ ValueStats_StdDevSize (v_ValueStats st) = float64_of_Z 0
  ∧ v_valueLens st = float64_of_Z <$> value_lens s.

(** [mean] and [stdDev] as [calculateStoreStats] computes them from a total,
    a count and the lengths. *)
Definition mean_of (sum count : Z) : float64 :=
  float64_div (float64_of_Z sum) (float64_of_Z count).

End stats_vocabulary.

(** ** Deliveries of a goroutine *)
Section goroutine_vocabulary.
Import tools.
Context `{Float64}.

(** [conf] with another listing of its namespace. *)
Definition with_listing (conf : Config) (listing : result error (list FileInfo)) : Config :=
  mkConfig (Config_Name conf) (Config_ModuleHash conf) (Config_ValueType conf)
    (Config_UpdatePolicy conf) (Config_ModuleInitialBlock conf) listing
    (Config_Load conf) (Config_FileSize conf).

(** The identity fields of a record are those of the configuration. *)
Definition identity_of (conf : Config) (stats : StoreStats) : Prop :=
  Name stats = Config_Name conf
  ∧ ModuleHash stats = Config_ModuleHash conf
  ∧ ValueType stats = Config_ValueType conf
  ∧ UpdatePolicy stats = Config_UpdatePolicy conf
  ∧ InitialBlock stats = Config_ModuleInitialBlock conf.


End goroutine_vocabulary.

(** ** Loaded manifests *)
Section loading_vocabulary.
Import manifest manifest_more.

(** What [newWithoutLoad] has checked of a module it accepts. *)
Definition valid_module (s : Module) : Prop :=
  ModuleNameRegexp_MatchString (Module_Name s) = true
  ∧ ((Module_Kind s = "map" ∧ StreamOutput_Type (Module_Output s) ≠ "")
     ∨ (Module_Kind s = "store"
        ∧ legal_pair (Module_UpdatePolicy s) (Module_ValueType s)))
  ∧ Code_Entrypoint (Module_Code s) ≠ ""
  ∧ Forall parsed (Module_Inputs s).

(** The entrypoint [newWithoutLoad] leaves in a module of kind map or store. *)
Definition loaded_entrypoint (s : Module) : string :=
  if isempty (Code_Entrypoint (Module_Code s)) then
    if String.eqb (Module_Kind s) "map" then "map" else "build_state"
  else Code_Entrypoint (Module_Code s).

(** [s'] is [s] as [newWithoutLoad] leaves it: the entrypoint defaulted,
    the inputs parsed, the rest as declared. *)
Definition loaded_from (s s' : Module) : Prop :=
  s' = mkModule (Module_Name s) (Module_Kind s) (Module_UpdatePolicy s) (Module_ValueType s)
         (mkCode (Code_File (Module_Code s)) (Code_Native (Module_Code s))
            (Code_Content (Module_Code s)) (loaded_entrypoint s))
         ((λ input, fst (Input_parse input)) <$> Module_Inputs s)
         (Module_Output s).

End loading_vocabulary.

(** ** The heap after [Signature] *)
Section sorted_vocabulary.
Import manifest.

(** The module at [p], if any, lists its inputs in the order of their names. *)
Definition inputs_sorted (h : heap) (p : ptr) : Prop :=
  ∀ m, h !! p = Some m → Sorted String.le (names_of (Module_Inputs m)).

End sorted_vocabulary.

(** ** The diagram *)
Section diagram_vocabulary.
Import manifest manifest_more.

(** What a parsed input refers to: of its source, store and map only one
    is set. *)
Definition reference (input : Input) : string :=
  Input_Source input +:+ Input_Store input +:+ Input_Map input.

(** [s] up to its first colon. *)
Definition before_colon (s : string) : string :=
  match split_colon s with
  | Some (before, _) => before
  | None => s
  end.

(** The label of an edge: the name of the input, followed by its mode when
    it has one. *)
Definition label (input : Input) : string :=
  if nonempty (Input_Mode input) then Input_Name input +:+ ":" +:+ Input_Mode input
  else Input_Name input.

(** The edge of [input] into the module [s]. *)
Definition edge_of (s : Module) (input : Input) : edge :=
  mkEdge (before_colon (reference input)) (label input) (Module_Name s).

End diagram_vocabulary.

(** ** The conversion to messages *)
Section conversion_vocabulary.
Import manifest manifest_more.
Context {FileDescriptor : Type}.
Variable ReadFile : string → result string (list byte).
Context `{pbtransform_manifest.Generated}.

(** The code files of a list of modules. *)
Definition code_files (modules : list Module) : list string :=
  (λ s, Code_File (Module_Code s)) <$> modules.

(** The code type [loadCode] writes for a manifest. *)
Definition code_type_of (m : @Manifest FileDescriptor) : option Z :=
  if String.eqb (CodeType m) "wasm/rust-v1"
  then Some pbtransform_manifest.ModuleCode_WASM_RUST_V1
  else if String.eqb (CodeType m) "native"
  then Some pbtransform_manifest.ModuleCode_NATIVE
  else None.

(** [code] is the entry of the code table for [file]: the bytes of the file
    under the code type of the manifest. *)
Definition code_entry (m : @Manifest FileDescriptor) (file : string)
    (code : pbtransform_manifest.ModuleCode) : Prop :=
  ∃ codeType byteCode,
    code_type_of m = Some codeType ∧ ReadFile file = Ok byteCode
    ∧ code = pbtransform_manifest.mkModuleCode codeType byteCode.

(** The table [moduleCodeIndexes] and the code table go together: every
    file of the table has its entry in the code table at its index, and the
    code table has one entry per file. *)
Definition code_indexed (m : @Manifest FileDescriptor) (moduleCodeIndexes : gmap string Z)
    (modulesCode : list pbtransform_manifest.ModuleCode) : Prop :=
  (∀ file codeIndex, moduleCodeIndexes !! file = Some codeIndex →
     ∃ i code, codeIndex = Z.of_nat i ∧ modulesCode !! i = Some code ∧ code_entry m file code)
  ∧ size moduleCodeIndexes = length modulesCode.

(** [pbModule] is the message of the module [s], its code at [codeIndex]. *)
Definition message_of (s : Module) (codeIndex : Z) (pbModule : pbtransform_manifest.Module)
    : Prop :=
  pbtransform.Module_Name (pbtransform_manifest.Module_fields pbModule) = Module_Name s
  ∧ pbtransform.Module_CodeEntrypoint (pbtransform_manifest.Module_fields pbModule)
    = Code_Entrypoint (Module_Code s)
  ∧ pbtransform.Module_CodeIndex (pbtransform_manifest.Module_fields pbModule)
    = uint32 codeIndex.

(** [pbModule] is the message of [s] and points, in the code table, at the
    bytes of the code file of [s]. *)
Definition converted (m : @Manifest FileDescriptor)
    (modulesCode : list pbtransform_manifest.ModuleCode) (s : Module)
    (pbModule : pbtransform_manifest.Module) : Prop :=
  ∃ i code,
    message_of s (Z.of_nat i) pbModule
    ∧ modulesCode !! i = Some code
    ∧ code_entry m (Code_File (Module_Code s)) code.

End conversion_vocabulary.

(** ** Manifests with their code *)
Section code_vocabulary.
Import manifest manifest_more.
Variable ReadFile : string → result string (list byte).

(** A module with a code file holds the bytes of the file, and they are
    not empty. *)
Definition holds_code (s : Module) : Prop :=
  Code_File (Module_Code s) ≠ "" →
  ReadFile (Code_File (Module_Code s)) = Ok (Code_Content (Module_Code s))
  ∧ Code_Content (Module_Code s) ≠ [].

(** [s'] is [s] with the content of its code file, if it names one. *)
Definition with_code (s s' : Module) : Prop :=
  if isempty (Code_File (Module_Code s)) then s' = s
  else ∃ cnt, ReadFile (Code_File (Module_Code s)) = Ok cnt ∧ s' = set_Content s cnt.

End code_vocabulary.

(** ** A manifest the definitions are run on *)

(** Two keys of the same length: the first one visited is named. *)
Definition tie_store : tools.Store :=
  [ ("ab", [x01]); ("abcd", [x01; x02; x03]); ("wxyz", [x01; x02; x03]); ("c", []) ].

(** The heap [Signature] leaves when called on [totals]: the inputs of
    [totals] in the order of their names. *)
Definition sorted_heap : list manifest.Module :=
  [ pairs_module; prices_module;
    manifest.set_Inputs totals_module [input_of "" "" "pairs"; input_of "" "prices" ""] ].

(** [totals] with another update policy, value type, output and code file,
    its inputs declared in the other order and [prices] read as deltas. *)
Definition totals_variant : manifest.Module :=
  manifest.mkModule "totals" "store" "max" "bigint"
    (manifest.mkCode "other.wasm" "" [x00; x61; x73; x6d; x02] "build_state")
    [input_of "" "" "pairs"; manifest.set_Mode (input_of "" "prices" "") "deltas"]
    (manifest.mkStreamOutput "proto:totals").

(** Three modules as a manifest declares them: no entrypoint, the inputs
    not parsed; [pairs] and [prices] come from the same code file. *)
Definition declared_modules : list manifest.Module :=
  [ manifest.mkModule "pairs" "map" "" "" (manifest.mkCode "substreams.wasm" "" [] "")
      [manifest.mkInput "sf.ethereum.type.v1.Block" "" "" "" ""]
      (manifest.mkStreamOutput "proto:pairs");
    manifest.mkModule "prices" "store" "replace" "bytes"
      (manifest.mkCode "substreams.wasm" "" [] "")
      [manifest.mkInput "" "" "pairs" "" ""] (manifest.mkStreamOutput "");
    manifest.mkModule "totals" "store" "sum" "int64"
      (manifest.mkCode "totals.wasm" "" [] "build_totals")
      [manifest.mkInput "" "prices" "" "deltas" ""; manifest.mkInput "" "" "pairs" "" ""]
      (manifest.mkStreamOutput "") ].

Definition declared_manifest : @manifest_more.Manifest unit :=
  manifest_more.mkManifest "v0.1.0" "pairs, prices and totals" "wasm/rust-v1" 0
    ["pairs.proto"] declared_modules None [].

(** The modules as [newWithoutLoad] leaves them. *)
Definition checked_modules : list manifest.Module :=
  [ manifest.mkModule "pairs" "map" "" "" (manifest.mkCode "substreams.wasm" "" [] "map")
      [manifest.mkInput "sf.ethereum.type.v1.Block" "" "" "" "source:sf.ethereum.type.v1.Block"]
      (manifest.mkStreamOutput "proto:pairs");
    manifest.mkModule "prices" "store" "replace" "bytes"
      (manifest.mkCode "substreams.wasm" "" [] "build_state")
      [manifest.mkInput "" "" "pairs" "" "map:pairs"] (manifest.mkStreamOutput "");
    manifest.mkModule "totals" "store" "sum" "int64"
      (manifest.mkCode "totals.wasm" "" [] "build_totals")
      [manifest.mkInput "" "prices" "" "deltas" "store:prices";
       manifest.mkInput "" "" "pairs" "" "map:pairs"]
      (manifest.mkStreamOutput "") ].

Definition example_NewModuleGraph (modules : list manifest.Module)
    : result string manifest.ModuleGraph :=
  Ok example_module_graph.

Definition checked_manifest : @manifest_more.Manifest unit :=
  manifest_more.mkManifest "v0.1.0" "pairs, prices and totals" "wasm/rust-v1" 0
    ["pairs.proto"] checked_modules (Some example_module_graph) [].

(** A disk with the two code files, and a parser that returns one
    descriptor per file. *)
Definition example_ReadFile (file : string) : result string (list byte) :=
  if String.eqb file "substreams.wasm" then Ok [x00; x61; x73; x6d]
  else if String.eqb file "totals.wasm" then Ok [x00; x61; x73; x6d; x02]
  else Err "open: no such file or directory".

Definition example_ParseFiles (files : list string) : result string (list unit) :=
  Ok ((λ _, tt) <$> files).

(** The modules as [New] leaves them, with their code. *)
Definition loaded_modules : list manifest.Module :=
  [ manifest.mkModule "pairs" "map" "" ""
      (manifest.mkCode "substreams.wasm" "" [x00; x61; x73; x6d] "map")
      [manifest.mkInput "sf.ethereum.type.v1.Block" "" "" "" "source:sf.ethereum.type.v1.Block"]
      (manifest.mkStreamOutput "proto:pairs");
    manifest.mkModule "prices" "store" "replace" "bytes"
      (manifest.mkCode "substreams.wasm" "" [x00; x61; x73; x6d] "build_state")
      [manifest.mkInput "" "" "pairs" "" "map:pairs"] (manifest.mkStreamOutput "");
    manifest.mkModule "totals" "store" "sum" "int64"
      (manifest.mkCode "totals.wasm" "" [x00; x61; x73; x6d; x02] "build_totals")
      [manifest.mkInput "" "prices" "" "deltas" "store:prices";
       manifest.mkInput "" "" "pairs" "" "map:pairs"]
      (manifest.mkStreamOutput "") ].

Definition loaded_manifest : @manifest_more.Manifest unit :=
  manifest_more.mkManifest "v0.1.0" "pairs, prices and totals" "wasm/rust-v1" 0
    ["pairs.proto"] loaded_modules (Some example_module_graph) [tt].

(** Values for the generated enumerations and the generated table, for
    running the conversion. *)
#[local] Instance example_Generated : pbtransform_manifest.Generated := {|
  pbtransform_manifest.ModuleCode_WASM_RUST_V1 := 1;
  pbtransform_manifest.ModuleCode_NATIVE := 2;
  pbtransform_manifest.KindStore_UpdatePolicy_value :=
    list_to_map [("UNSET", 0%Z); ("REPLACE", 1%Z); ("IGNORE", 2%Z); ("SUM", 3%Z);
                 ("MIN", 4%Z); ("MAX", 5%Z)]
|}.

(** What [ToProto] makes of [checked_manifest]: one entry of the code table
    for the two modules of [substreams.wasm]. *)
Definition example_message : pbtransform_manifest.Manifest :=
  pbtransform_manifest.mkManifest "v0.1.0" "pairs, prices and totals"
    [ pbtransform_manifest.mkModule
        (pbtransform.mkModule "pairs" 0 "map"
           [pbtransform.Input_Source (pbtransform.mkInputSource "sf.ethereum.type.v1.Block")])
        (Some (pbtransform_manifest.mkOutput "proto:pairs"))
        (Some (pbtransform_manifest.Module_KindMap "proto:pairs"));
      pbtransform_manifest.mkModule
        (pbtransform.mkModule "prices" 0 "build_state"
           [pbtransform.Input_Map (pbtransform.mkInputMap "")])
        None
        (Some (pbtransform_manifest.Module_KindStore 0 "bytes"));
      pbtransform_manifest.mkModule
        (pbtransform.mkModule "totals" 1 "build_totals"
           [pbtransform.Input_Store (pbtransform.mkInputStore "totals" pbtransform.InputStore_UNSET);
            pbtransform.Input_Map (pbtransform.mkInputMap "")])
        None
        (Some (pbtransform_manifest.Module_KindStore 0 "int64")) ]
    [ pbtransform_manifest.mkModuleCode 1 [x00; x61; x73; x6d];
      pbtransform_manifest.mkModuleCode 1 [x00; x61; x73; x6d; x02] ].

(* ===================================================================== *)
(** * Part III: properties *)
(* ===================================================================== *)

(** ** The insertion sort of the library meets the contract of [sort.Slice] *)
Section insertion_sort.
Context {A : Type} (less : A → A → bool).

Lemma sink_perm x r : sink less x r ≡ₚ x :: r.
Proof.
  induction r as [|y r IH]; simpl; [done|].
  destruct (less x y); [|done].
  rewrite IH. apply Permutation_swap.
Qed.

Lemma sink_HdRel x y r :
  less x y = true →
  HdRel (flip (in_order less)) y r →
  HdRel (flip (in_order less)) y (sink less x r).
Proof.
  intros Hxy Hhd. destruct r as [|z r]; simpl.
  - constructor. by left.
  - destruct (less x z); constructor.
    + by inversion Hhd.
    + by left.
Qed.

Lemma sink_sorted x r :
  Sorted (flip (in_order less)) r → Sorted (flip (in_order less)) (sink less x r).
Proof.
  induction 1 as [|y r Hr IH Hhd]; simpl.
  - repeat constructor.
  - destruct (less x y) eqn:Hxy.
    + constructor; [done|]. by apply sink_HdRel.
    + constructor; [by constructor|]. constructor. by right.
Qed.

Lemma insertion_loop_perm l acc :
  fold_left (λ rprefix x, sink less x rprefix) l acc ≡ₚ l ++ acc.
Proof.
  revert acc. induction l as [|x l IH]; intros acc; simpl; [done|].
  rewrite IH, sink_perm. by rewrite Permutation_middle.
Qed.

Lemma insertion_loop_sorted l acc :
  Sorted (flip (in_order less)) acc →
  Sorted (flip (in_order less)) (fold_left (λ rprefix x, sink less x rprefix) l acc).
Proof.
  revert acc. induction l as [|x l IH]; intros acc Hacc; simpl; [done|].
  by apply IH, sink_sorted.
Qed.

Lemma insertionSort_perm l : insertionSort less l ≡ₚ l.
Proof.
  unfold insertionSort. rewrite reverse_Permutation, insertion_loop_perm.
  by rewrite app_nil_r.
Qed.

Lemma insertionSort_sorted l : Sorted (in_order less) (insertionSort less l).
Proof.
  unfold insertionSort.
  apply (Sorted_reverse (flip (in_order less))), insertion_loop_sorted.
  constructor.
Qed.
End insertion_sort.

Example insertionSort_run :
  insertionSort Nat.ltb [3; 1; 2; 1] = [1; 1; 2; 3]
  ∧ insertionSort (λ a b, Nat.leb b a) [3; 1; 2; 1] = [3; 2; 1; 1].
Proof. split; reflexivity. Qed.

#[local] Instance insertion_SortSlice : SortSlice := {|
  sort_Slice := @insertionSort;
  sort_Slice_perm := @insertionSort_perm;
  sort_Slice_sorted := λ A less l _, insertionSort_sorted less l
|}.

(** What the contract gives for a comparator that is a transitive ordering:
    every element precedes, in the order of [less], all that follow it. *)
Section sort_contract.
Context `{SortSlice} {A : Type} (less : A → A → bool).
Hypothesis Hless : transitive_ordering less.

Lemma in_order_trans : Transitive (in_order less).
Proof using Hless.
  destruct Hless as [Ht Hc]. intros x y z [Hxy|Hxy] [Hyz|Hyz].
  - left. eauto.
  - right. destruct (less z x) eqn:Hzx; [|done].
    rewrite (Ht _ _ _ Hzx Hxy) in Hyz. done.
  - right. destruct (less z x) eqn:Hzx; [|done].
    rewrite (Ht _ _ _ Hyz Hzx) in Hxy. done.
  - right. eauto.
Qed.

Lemma sort_Slice_StronglySorted l :
  StronglySorted (in_order less) (sort_Slice less l).
Proof using Hless.
  apply Sorted_StronglySorted.
  - exact in_order_trans.
  - by apply sort_Slice_sorted.
Qed.

Lemma sort_Slice_elem_of x l : x ∈ sort_Slice less l ↔ x ∈ l.
Proof. by rewrite (sort_Slice_perm A less l). Qed.
End sort_contract.

(** ** Update policies: [validateStoreBuilder] *)
Section update_policy.
Import manifest.

#[local] Instance legal_pair_dec policy valueType : Decision (legal_pair policy valueType).
Proof. unfold legal_pair. apply _. Defined.

Lemma count_colon_app s t : count_colon (s +:+ t) = count_colon s + count_colon t.
Proof. induction s as [|c s IH]; simpl; [done|]. rewrite IH. lia. Qed.

Lemma split_colon_join p v :
  count_colon p = 0 → split_colon (p +:+ ":" +:+ v) = Some (p, v).
Proof.
  induction p as [|c p IH]; simpl; [done|].
  destruct (Ascii.eqb c ":"); [done|]. intros Hp. by rewrite IH.
Qed.

(** [fmt.Sprintf("%s:%s", p, v)] equals a string with a single colon only
    when [p] and [v] are the two sides of that colon. *)
Lemma join_inv p v s :
  p +:+ ":" +:+ v = s → count_colon s = 1 → split_colon s = Some (p, v).
Proof.
  intros <- Hc. apply split_colon_join.
  rewrite !count_colon_app in Hc. simpl in Hc. lia.
Qed.

Lemma found_loop (key : string) (l : list string) (found : bool) :
  fold_left (λ found comb, if String.eqb key comb then true else found) l found = true
  ↔ found = true ∨ key ∈ l.
Proof.
  revert found. induction l as [|c l IH]; intros found; simpl.
  - rewrite elem_of_nil. tauto.
  - rewrite IH, elem_of_cons. destruct (String.eqb_spec key c); subst; [tauto|].
    split; [tauto|]. intros [?|[?|?]]; tauto.
Qed.

Lemma combinations_legal p v :
  p +:+ ":" +:+ v ∈ combinations ↔ legal_pair p v.
Proof.
  split.
  - intros Hin.
    assert (Forall (λ c, count_colon c = 1 ∧
                         ∀ a b, split_colon c = Some (a, b) → legal_pair a b) combinations) as Hall.
    { unfold combinations.
      repeat (constructor; [split; [reflexivity|];
        intros a b [= <- <-]; by apply (bool_decide_unpack _) |]). constructor. }
    rewrite Forall_forall in Hall. destruct (Hall _ Hin) as [Hc Hs].
    apply Hs. by apply join_inv.
  - unfold legal_pair. rewrite !elem_of_cons, !elem_of_nil.
    intros [[Hp Hv]|[Hp Hv]]; destruct_or!; subst; try done;
      by apply (bool_decide_unpack _).
Qed.

Lemma legal_pair_nonempty p v : legal_pair p v → p ≠ "" ∧ v ≠ "".
Proof.
  unfold legal_pair. rewrite !elem_of_cons, !elem_of_nil.
  intros [[Hp Hv]|[Hp Hv]]; destruct_or!; by subst.
Qed.

Lemma isempty_spec s : isempty s = true ↔ s = "".
Proof. apply String.eqb_eq. Qed.

Lemma nonempty_spec s : nonempty s = true ↔ s ≠ "".
Proof.
  unfold nonempty. destruct (String.eqb_spec s ""); simpl; split; done.
Qed.

(** C5. [validateStoreBuilder] accepts exactly the pairs of a policy among
    max, min, sum with a value type among bigint, int64, bigfloat, float64,
    and of a policy among replace, ignore with a value type among bytes,
    string, proto. When the policy or the value type is the empty string it
    fails with a missing-field error, which is never the invalid-combination
    error; every other rejected pair gets the invalid-combination error.
    In particular (max, bigint) is accepted, (max, string) is an invalid
    combination and (the empty policy, int64) a missing field. *)
Theorem validateStoreBuilder_spec (module : Module) :
  let policy := Module_UpdatePolicy module in
  let valueType := Module_ValueType module in
  (validateStoreBuilder module = None ↔ legal_pair policy valueType)
  ∧ (policy = "" ∨ valueType = "" →
     ∃ e, validateStoreBuilder module = Some e ∧ missing_field e ∧ ¬ invalid_combination e)
  ∧ (policy ≠ "" → valueType ≠ "" → ¬ legal_pair policy valueType →
     ∃ e, validateStoreBuilder module = Some e ∧ invalid_combination e ∧ ¬ missing_field e)
  ∧ (∀ code inputs output name kind,
       validateStoreBuilder (mkModule name kind "max" "bigint" code inputs output) = None
       ∧ validateStoreBuilder (mkModule name kind "max" "string" code inputs output)
         = Some (ErrInvalidCombination combinations)
       ∧ validateStoreBuilder (mkModule name kind "" "int64" code inputs output)
         = Some ErrMissingUpdatePolicy).
Proof.
  intros policy valueType.
  assert (policy ≠ "" → valueType ≠ "" →
          validateStoreBuilder module =
            if decide (legal_pair policy valueType) then None
            else Some (ErrInvalidCombination combinations)) as Hfull.
  { intros Hp Hv. unfold validateStoreBuilder. fold policy valueType.
    apply String.eqb_neq in Hp, Hv. unfold isempty. rewrite Hp, Hv.
    match goal with |- context [fold_left ?f ?l ?b] =>
      pose proof (found_loop (policy +:+ ":" +:+ valueType) l b) as Hfound;
      destruct (fold_left f l b) end.
    - rewrite decide_True; [done|].
      apply combinations_legal. destruct Hfound as [Hfound _].
      destruct Hfound; done.
    - rewrite decide_False; [done|].
      intros Hl%combinations_legal. destruct Hfound as [_ Hfound].
      by specialize (Hfound (or_intror Hl)). }
  pose proof (legal_pair_nonempty policy valueType) as Hne.
  split; [|split; [|split]].
  - split.
    + intros Hnone. destruct (decide (policy = "")) as [Hp|Hp].
      { unfold validateStoreBuilder in Hnone. fold policy in Hnone.
        rewrite Hp in Hnone. done. }
      destruct (decide (valueType = "")) as [Hv|Hv].
      { unfold validateStoreBuilder in Hnone. fold policy valueType in Hnone.
        rewrite Hv in Hnone. by destruct (isempty policy). }
      rewrite (Hfull Hp Hv) in Hnone. by destruct (decide (legal_pair policy valueType)).
    + intros Hl. destruct (Hne Hl) as [Hp Hv]. rewrite (Hfull Hp Hv).
      by rewrite decide_True.
  - intros Hempty. unfold validateStoreBuilder. fold policy valueType.
    destruct (isempty policy) eqn:Hp.
    { eexists. split; [done|]. split; [by left|]. by intros [? ?]. }
    destruct Hempty as [->| ->]; [done|]. simpl.
    eexists. split; [done|]. split; [by right|]. by intros [? ?].
  - intros Hp Hv Hl. rewrite (Hfull Hp Hv), decide_False by done.
    eexists. split; [done|]. split; [by eexists|]. by intros [?|?].
  - intros. repeat split; reflexivity.
Qed.

End update_policy.

(** ** Inputs: [Input.parse] and [setInputsToProto] *)
Section inputs.
Import manifest.

Lemma Input_parse_cases (i : Input) :
  (exactly_one i ∧ (Input_Store i ≠ "" → legal_mode (Input_Mode i))
   ∧ Input_parse i =
       (mkInput (Input_Source i) (Input_Store i) (Input_Map i) (derived_mode i) (derived_name i),
        None))
  ∨ (exactly_one i ∧ Input_Store i ≠ "" ∧ ¬ legal_mode (Input_Mode i)
     ∧ snd (Input_parse i) = Some (ErrInputMode ("store:" +:+ Input_Store i)))
  ∨ (¬ exactly_one i ∧ Input_parse i = (i, Some ErrInputOneOf)).
Proof.
  destruct i as [source store map mode name].
  unfold exactly_one, legal_mode, Input_parse, derived_name, derived_mode,
    nonempty, isempty, set_Name, set_Mode; simpl.
  rewrite !elem_of_cons, elem_of_nil.
  destruct (String.eqb_spec map ""), (String.eqb_spec store ""),
    (String.eqb_spec source ""); simpl; subst;
    try (right; right; split; [intros [[? [? ?]]|[[? [? ?]]|[? [? ?]]]]; done | done]);
    try (left; split; [tauto|]; split; [done|]; done).
  destruct (String.eqb_spec mode ""); simpl; subst.
  { left. split; [tauto|]. split; [tauto|]. done. }
  destruct (String.eqb_spec mode "get"); simpl; subst.
  { left. split; [tauto|]. split; [tauto|]. done. }
  destruct (String.eqb_spec mode "deltas"); simpl; subst.
  { left. split; [tauto|]. split; [tauto|]. done. }
  right; left. split; [tauto|]. split; [done|]. split; [tauto|done].
Qed.

(** C6. [parse] succeeds exactly when one and only one of source, store
    and map is set and, for a store input, the mode is empty, get or deltas.
    On success the three references are unchanged, the name is source:, store:
    or map: followed by the reference, and an empty mode of a store input has
    become get. It fails when none or several references are set, and for a
    store input with any other mode. *)
Theorem Input_parse_spec (i : Input) :
  let i' := fst (Input_parse i) in
  let err := snd (Input_parse i) in
  (err = None ↔ exactly_one i ∧ (Input_Store i ≠ "" → legal_mode (Input_Mode i)))
  ∧ (err = None →
     Input_Source i' = Input_Source i ∧ Input_Store i' = Input_Store i
     ∧ Input_Map i' = Input_Map i
     ∧ Input_Name i' = derived_name i
     ∧ Input_Mode i' = derived_mode i
     ∧ (Input_Store i ≠ "" → Input_Mode i = "" → Input_Mode i' = "get"))
  ∧ (¬ exactly_one i → err = Some ErrInputOneOf)
  ∧ (exactly_one i → Input_Store i ≠ "" → ¬ legal_mode (Input_Mode i) →
     err = Some (ErrInputMode ("store:" +:+ Input_Store i))).
Proof.
  intros i' err. subst i' err.
  destruct (Input_parse_cases i) as [(Hone & Hmode & ->)|[(Hone & Hs & Hm & Herr)|(Hone & ->)]];
    simpl.
  - repeat split; try done.
    + intros Hs Hm. unfold derived_mode. rewrite Hm.
      apply nonempty_spec in Hs. by rewrite Hs.
    + intros _ Hs Hm. by specialize (Hmode Hs).
  - rewrite Herr. split; [split; [done|tauto]|]. repeat split; try done.
  - split; [split; [done|tauto]|]. split; [done|]. split; [done|]. tauto.
Qed.

Lemma parsed_inv input :
  parsed input →
  exactly_one input
  ∧ (Input_Store input ≠ "" → Input_Mode input = "get" ∨ Input_Mode input = "deltas").
Proof.
  intros [i Hi].
  destruct (Input_parse_cases i) as [(Hone & Hmode & Heq)|[(_ & _ & _ & Herr)|(_ & Heq)]].
  - rewrite Heq in Hi. injection Hi as <-. simpl. split; [done|].
    intros Hs. specialize (Hmode Hs). unfold legal_mode in Hmode.
    rewrite !elem_of_cons, elem_of_nil in Hmode.
    unfold derived_mode. apply nonempty_spec in Hs. rewrite Hs. simpl.
    unfold isempty. destruct (String.eqb_spec (Input_Mode i) ""); [by left|tauto].
  - by rewrite Hi in Herr.
  - by rewrite Heq in Hi.
Qed.

Lemma mode_of_parsed mode :
  mode = "get" ∨ mode = "deltas" → mode_of_string mode = pbtransform.InputStore_UNSET.
Proof. by intros [-> | ->]. Qed.

Lemma input_to_proto_parsed m input :
  parsed input → ∃ pbInput, input_to_proto m input = Ok pbInput ∧ emitted_as m input pbInput.
Proof.
  intros [Hone Hmode]%parsed_inv. unfold input_to_proto, emitted_as.
  destruct Hone as [(Hm & Hs & Hsrc)|[(Hs & Hm & Hsrc)|(Hsrc & Hm & Hs)]].
  - rewrite Hsrc, Hs. apply nonempty_spec in Hm as Hm'. rewrite Hm'. simpl.
    eexists. split; [done|]. by repeat split.
  - rewrite Hsrc, Hm. apply nonempty_spec in Hs as Hs'. rewrite Hs'. simpl.
    eexists. split; [done|]. rewrite (mode_of_parsed _ (Hmode Hs)). by repeat split.
  - rewrite Hm, Hs. apply nonempty_spec in Hsrc as Hsrc'. rewrite Hsrc'. simpl.
    eexists. split; [done|]. by repeat split.
Qed.

Lemma setInputsToProto_loop_parsed m inputs pbModule :
  Forall parsed inputs →
  ∃ out,
    setInputsToProto_loop m inputs pbModule =
      (pbtransform.mkModule (pbtransform.Module_Name pbModule)
         (pbtransform.Module_CodeIndex pbModule)
         (pbtransform.Module_CodeEntrypoint pbModule)
         (pbtransform.Module_Inputs pbModule ++ out), None)
    ∧ Forall2 (emitted_as m) inputs out.
Proof.
  intros Hall. revert pbModule.
  induction Hall as [|input inputs Hin _ IH]; intros pbModule; simpl.
  - exists []. rewrite app_nil_r. by destruct pbModule.
  - destruct (input_to_proto_parsed m input Hin) as (pbInput & -> & Hem).
    destruct (IH (pbtransform.append_Input pbModule pbInput)) as (out & -> & Hout).
    exists (pbInput :: out). simpl. rewrite <- app_assoc. split; [done|].
    by constructor.
Qed.

(** C9. For a module whose inputs were all parsed successfully,
    [setInputsToProto] fails on none and appends one message per input, in
    order. The message of a store input is an InputStore whose mode is UNSET
    (a parsed mode is get or deltas, which the switch does not match) and
    whose module name is the name of the declaring module; the message of a
    map input is an InputMap whose module name is the input's source field,
    which is empty. *)
Theorem setInputsToProto_parsed (m : Module) (pbModule : pbtransform.Module) :
  Forall parsed (Module_Inputs m) →
  ∃ out,
    Module_setInputsToProto m pbModule =
      (pbtransform.mkModule (pbtransform.Module_Name pbModule)
         (pbtransform.Module_CodeIndex pbModule)
         (pbtransform.Module_CodeEntrypoint pbModule)
         (pbtransform.Module_Inputs pbModule ++ out), None)
    ∧ Forall2 (emitted_as m) (Module_Inputs m) out.
Proof. apply setInputsToProto_loop_parsed. Qed.

Lemma setInputsToProto_parsed_witness :
  ∃ out,
    Module_setInputsToProto example_reader (pbtransform.mkModule "totals" 0 "build_state" []) =
      (pbtransform.mkModule "totals" 0 "build_state" ([] ++ out), None)
    ∧ Forall2 (emitted_as example_reader) (Module_Inputs example_reader) out.
Proof.
  apply (setInputsToProto_parsed example_reader (pbtransform.mkModule "totals" 0 "build_state" [])).
  repeat constructor.
  - by exists (mkInput "" "prices" "" "" "").
  - by exists (mkInput "" "" "pairs" "" "").
Defined.

End inputs.

(** ** Snapshot selection: [getStore] *)
Section snapshot_selection.
Import tools.
Context `{SortSlice}.

Lemma kvFiles_loop files acc :
  fold_left (λ kvFiles file, if FileInfo_Partial file then kvFiles else kvFiles ++ [file])
            files acc
  = acc ++ List.filter (λ file, negb (FileInfo_Partial file)) files.
Proof.
  revert acc. induction files as [|file files IH]; intros acc; simpl.
  - by rewrite app_nil_r.
  - rewrite IH. destruct (FileInfo_Partial file); simpl; [done|].
    by rewrite <- app_assoc.
Qed.

Lemma elem_of_kvFiles file files :
  file ∈ kvFiles_of files ↔ file ∈ files ∧ FileInfo_Partial file = false.
Proof.
  unfold kvFiles_of. rewrite kvFiles_loop. simpl.
  rewrite !list_elem_of_In, filter_In, negb_true_iff. done.
Qed.

Lemma ge_EndBlock_ordering : transitive_ordering ge_EndBlock.
Proof.
  unfold ge_EndBlock. split; intros x y z; rewrite ?Z.geb_leb.
  - rewrite !Z.leb_le. lia.
  - rewrite !Z.leb_gt. lia.
Qed.

Lemma in_order_ge_EndBlock a b :
  in_order ge_EndBlock a b ↔ (FileInfo_EndBlock b ≤ FileInfo_EndBlock a)%Z.
Proof.
  unfold in_order, ge_EndBlock. rewrite !Z.geb_leb, Z.leb_le, Z.leb_gt. lia.
Qed.

Lemma sorted_head_latest files latestFile rest :
  sort_Slice ge_EndBlock (kvFiles_of files) = latestFile :: rest →
  latest_of files latestFile.
Proof.
  intros Hsort.
  assert (∀ file, file ∈ latestFile :: rest ↔ file ∈ files ∧ FileInfo_Partial file = false)
    as Hin.
  { intros file. by rewrite <- Hsort, sort_Slice_elem_of, elem_of_kvFiles. }
  pose proof (sort_Slice_StronglySorted ge_EndBlock ge_EndBlock_ordering (kvFiles_of files))
    as Hsorted.
  rewrite Hsort in Hsorted. apply StronglySorted_inv in Hsorted as [_ Hhd].
  rewrite Forall_forall in Hhd.
  destruct (proj1 (Hin latestFile)) as [Hl Hp]; [by left|].
  split; [done|]. split; [done|]. intros file Hf Hfp.
  pose proof (proj2 (Hin file) (conj Hf Hfp)) as [->|Hr]%elem_of_cons; [done|].
  by apply in_order_ge_EndBlock, Hhd.
Qed.

Lemma getStore_nonpartial conf files :
  Config_ListSnapshotFiles conf = Ok files →
  (∃ file, file ∈ files ∧ FileInfo_Partial file = false) →
  ∃ latestFile, latest_of files latestFile ∧ getStore conf = load_of conf latestFile.
Proof.
  intros Hlist (file & Hf & Hfp). unfold getStore. rewrite Hlist.
  destruct files as [|f0 files0] eqn:Hfiles; [by apply elem_of_nil in Hf|].
  rewrite <- Hfiles in *. replace (length files =? 0)%nat with false by (by subst).
  destruct (sort_Slice ge_EndBlock (kvFiles_of files)) as [|latestFile rest] eqn:Hsort.
  - assert (file ∈ sort_Slice ge_EndBlock (kvFiles_of files)) as Hin
      by (by rewrite sort_Slice_elem_of, elem_of_kvFiles).
    rewrite Hsort in Hin. by apply elem_of_nil in Hin.
  - exists latestFile. split; [|done]. by eapply sorted_head_latest.
Qed.

(** C4. When the listing holds a file that is not partial, [getStore]
    settles on a file of the listing that is not partial and whose end block
    is the greatest among the files that are not partial, and returns it with
    the store loaded at that end block (or the load's error). In particular,
    from three files ending at 100 (partial), 90 and 80 (both complete), in
    any order of the listing, it settles on the one ending at 90. *)
Theorem getStore_selects_latest (conf : Config) (files : list FileInfo) :
  Config_ListSnapshotFiles conf = Ok files →
  (∃ file, file ∈ files ∧ FileInfo_Partial file = false) →
  (∃ latestFile, latest_of files latestFile ∧ getStore conf = load_of conf latestFile)
  ∧ (∀ a b c,
       files ≡ₚ [a; b; c] →
       FileInfo_Partial a = true → FileInfo_EndBlock a = 100%Z →
       FileInfo_Partial b = false → FileInfo_EndBlock b = 90%Z →
       FileInfo_Partial c = false → FileInfo_EndBlock c = 80%Z →
       getStore conf = load_of conf b).
Proof.
  intros Hlist Hex.
  destruct (getStore_nonpartial conf files Hlist Hex) as (latestFile & Hlatest & Hget).
  split; [by exists latestFile|].
  intros a b c Hperm Hpa Hea Hpb Heb Hpc Hec. rewrite Hget.
  destruct Hlatest as (Hin & Hp & Hmax).
  specialize (Hmax b). rewrite Hperm in Hin, Hmax.
  rewrite !elem_of_cons, elem_of_nil in Hin.
  destruct Hin as [->|[->|[->|[]]]]; [congruence|done|].
  specialize (Hmax (list_elem_of_further _ _ _ (list_elem_of_here _ _)) Hpb). lia.
Qed.

End snapshot_selection.

Lemma getStore_selects_latest_witness :
  tools.getStore (example_conf [snapshot_100_partial; snapshot_90; snapshot_80])
  = Returns (Ok ([("k", [x01]); ("key", [x01; x02])], snapshot_90)).
Proof.
  refine (proj2 (getStore_selects_latest
                   (example_conf [snapshot_100_partial; snapshot_90; snapshot_80])
                   [snapshot_100_partial; snapshot_90; snapshot_80] eq_refl _)
                snapshot_100_partial snapshot_90 snapshot_80 _ eq_refl eq_refl eq_refl eq_refl
                eq_refl eq_refl).
  - exists snapshot_90. split; [|reflexivity]. apply list_elem_of_further, list_elem_of_here.
  - reflexivity.
Defined.

(** ** Statistics of one store: [calculateStoreStats] and the goroutine of a module *)

Section store_stats.
Import tools.
Context `{Float64}.

(** The visitor never fails: [Iter] runs it over every entry. *)
Lemma Store_Iter_visit (s : Store) (st : visit_state) :
  Store_Iter s visit st = (visited s st, None).
Proof.
  revert st. induction s as [|[key value] s IH]; intros st; simpl; [done|].
  by rewrite IH.
Qed.

Lemma visit_loop_lens (s : Store) (st : visit_state) :
  length (v_keyLens (visited s st)) = length (v_keyLens st) + length s
  ∧ length (v_valueLens (visited s st)) = length (v_valueLens st) + length s.
Proof.
  revert st. induction s as [|[key value] s IH]; intros st.
  - simpl. lia.
  - change (visited ((key, value) :: s) st) with (visited s (fst (visit key value st))).
    destruct (IH (fst (visit key value st))) as [-> ->].
    simpl. rewrite !length_app. simpl. lia.
Qed.

(** C10. On a record whose count starts at zero (as [initializeStoreStats]
    leaves it), [calculateStoreStats] returns no error; for a store without
    entries the count stays zero and the key and value statistics of the
    record are absent; and whenever they are present the store has entries
    and [stdDev] was applied to as many lengths as the store has entries, so
    its divisor is positive. *)
Theorem calculateStoreStats_empty_guard (stateStore : Store) (stats : StoreStats) :
  KeysCount stats = 0%Z →
  snd (calculateStoreStats stateStore stats) = None
  ∧ (stateStore = [] →
     KeysCount (fst (calculateStoreStats stateStore stats)) = 0%Z
     ∧ KeyStats_ (fst (calculateStoreStats stateStore stats)) = None
     ∧ ValueStats_ (fst (calculateStoreStats stateStore stats)) = None)
  ∧ stdDev_over_entries stateStore (fst (calculateStoreStats stateStore stats)).
Proof.
  intros Hzero. unfold calculateStoreStats. rewrite Store_Iter_visit, Hzero.
  match goal with |- context [visited stateStore ?st0] =>
    pose proof (visit_loop_lens stateStore st0) as [Hk Hv];
    set (st := visited stateStore st0) in * end.
  simpl in Hk, Hv.
  split; [by destruct (v_KeysCount st >? 0)%Z|]. split.
  - intros ->. subst st. simpl. done.
  - destruct (v_KeysCount st >? 0)%Z eqn:Hcount; simpl; [|by split].
    assert (0 < length stateStore) as Hpos.
    { destruct stateStore; [|simpl; lia]. subst st. simpl in Hcount. done. }
    split.
    + intros ks [= <-]. simpl. eexists _, _. split; [done|]. lia.
    + intros vs [= <-]. simpl. eexists _, _. split; [done|]. lia.
Qed.

End store_stats.

(** On the three entries: count 3, 15 bytes of keys with mean 5, 60 bytes
    of values with mean 20, the longest key and value under the last key. *)
Example calculateStoreStats_run :
  let stats :=
    fst (tools.calculateStoreStats example_store
           (tools.initializeStoreStats (example_conf [snapshot_90]))) in
  tools.KeysCount stats = 3%Z
  ∧ (tools.KeyStats_TotalSize <$> tools.KeyStats_ stats) = Some 15%Z
  ∧ (tools.KeyStats_AverageSize <$> tools.KeyStats_ stats)
    = Some (PrimFloat.of_uint63 (Uint63.of_Z 5))
  ∧ (tools.KeyStats_Largest <$> tools.KeyStats_ stats) = Some "abcdefg"
  ∧ (tools.ValueStats_TotalSize <$> tools.ValueStats_ stats) = Some 60%Z
  ∧ (tools.ValueStats_AverageSize <$> tools.ValueStats_ stats)
    = Some (PrimFloat.of_uint63 (Uint63.of_Z 20))
  ∧ (tools.ValueStats_Largest <$> tools.ValueStats_ stats) = Some "abcdefg".
Proof. vm_compute. repeat split. Qed.

Lemma calculateStoreStats_empty_guard_witness :
  let stats := tools.initializeStoreStats (example_conf [snapshot_90]) in
  snd (tools.calculateStoreStats example_store stats) = None
  ∧ (example_store = [] →
     tools.KeysCount (fst (tools.calculateStoreStats example_store stats)) = 0%Z
     ∧ tools.KeyStats_ (fst (tools.calculateStoreStats example_store stats)) = None
     ∧ tools.ValueStats_ (fst (tools.calculateStoreStats example_store stats)) = None)
  ∧ stdDev_over_entries example_store (fst (tools.calculateStoreStats example_store stats)).
Proof.
  apply (calculateStoreStats_empty_guard example_store
           (tools.initializeStoreStats (example_conf [snapshot_90]))).
  reflexivity.
Defined.

(** ** The goroutine of one store module *)
Section module_task.
Import tools.
Context `{Float64} `{SortSlice}.

Lemma kvFiles_only_partial files :
  Forall (λ file, FileInfo_Partial file = true) files → kvFiles_of files = [].
Proof.
  intros Hall. unfold kvFiles_of. rewrite kvFiles_loop. simpl.
  induction Hall as [|file files Hp _ IH]; simpl; [done|]. by rewrite Hp.
Qed.

(** C3, on the code. For a store module whose namespace lists no file that
    is complete: when the listing is empty the goroutine sends a record with the
    identity fields only; when the listing is not empty (every file is
    partial) the slice of complete files is empty, [kvFiles[0]] is out of range
    and the goroutine panics. *)
Theorem goroutine_no_complete_file (module : Module) (conf : Config) (files : list FileInfo) :
  Module_IsStore module = true →
  Config_ListSnapshotFiles conf = Ok files →
  Forall (λ file, FileInfo_Partial file = true) files →
  (files = [] →
   ∃ stats, module_goroutine module (Ok conf) = Returns (Some stats) ∧ identity_only conf stats)
  ∧ (files ≠ [] → getStore conf = Panics ∧ module_goroutine module (Ok conf) = Panics).
Proof.
  intros Hstore Hlist Hpartial. split.
  - intros ->. unfold module_goroutine, getStore. rewrite Hstore, Hlist. simpl.
    eexists. split; [done|]. by repeat split.
  - intros Hne.
    assert (getStore conf = Panics) as Hget.
    { unfold getStore. rewrite Hlist.
      destruct files as [|file files']; [done|]. simpl length. simpl Nat.eqb. cbv iota.
      rewrite kvFiles_only_partial by done.
      pose proof (sort_Slice_perm _ ge_EndBlock []) as Hperm.
      apply Permutation_nil_r in Hperm. by rewrite Hperm. }
    split; [done|]. unfold module_goroutine. by rewrite Hstore, Hget.
Qed.

End module_task.

Lemma goroutine_no_complete_file_witness :
  ([snapshot_100_partial] = [] →
   ∃ stats,
     tools.module_goroutine (tools.mkModule "totals" 0 true) (Ok (example_conf [snapshot_100_partial]))
     = Returns (Some stats)
     ∧ identity_only (example_conf [snapshot_100_partial]) stats)
  ∧ ([snapshot_100_partial] ≠ [] →
     tools.getStore (example_conf [snapshot_100_partial]) = Panics
     ∧ tools.module_goroutine (tools.mkModule "totals" 0 true) (Ok (example_conf [snapshot_100_partial]))
       = Panics).
Proof.
  apply (goroutine_no_complete_file (tools.mkModule "totals" 0 true)
           (example_conf [snapshot_100_partial]) [snapshot_100_partial]).
  - reflexivity.
  - reflexivity.
  - repeat constructor.
Defined.

(** ** The order of the report: the end of [StoreStatsE] *)
Section final_order.
Import tools.
Context `{Float64} `{SortSlice}.

Lemma index_modules_other i l (idx : gmap string Z) name :
  name ∉ Module_Name <$> l → index_modules i l idx !! name = idx !! name.
Proof.
  revert i idx. induction l as [|module l IH]; intros i idx Hnot; simpl; [done|].
  rewrite fmap_cons, not_elem_of_cons in Hnot. destruct Hnot as [Hne Hnot].
  rewrite IH by done. by rewrite lookup_insert_ne.
Qed.

Lemma index_modules_lookup i l (idx : gmap string Z) k module :
  NoDup (Module_Name <$> l) → l !! k = Some module →
  index_modules i l idx !! Module_Name module = Some (i + Z.of_nat k)%Z.
Proof.
  revert i idx k. induction l as [|m l IH]; intros i idx k Hnd Hk; [done|].
  rewrite fmap_cons in Hnd. apply NoDup_cons in Hnd as [Hnot Hnd].
  destruct k as [|k]; simpl in *.
  - injection Hk as ->. rewrite index_modules_other by done.
    rewrite lookup_insert_eq. f_equal. lia.
  - rewrite (IH _ _ k) by done. f_equal. lia.
Qed.

Lemma index_of_position graph sortedModules name k :
  TopologicalSort graph = Ok sortedModules →
  NoDup (Module_Name <$> sortedModules) →
  position sortedModules name k →
  index_of (sortedModulesIndex_of graph) name = Z.of_nat k.
Proof.
  intros Hsort Hnd (module & Hk & <-). unfold index_of, sortedModulesIndex_of.
  rewrite Hsort. by rewrite (index_modules_lookup _ _ _ k).
Qed.

Lemma after_in_ordering idx : transitive_ordering (after_in idx).
Proof.
  unfold after_in. split; intros x y z; rewrite !Z.gtb_ltb.
  - rewrite !Z.ltb_lt. lia.
  - rewrite !Z.ltb_ge. lia.
Qed.

Lemma in_order_after_in idx a b :
  in_order (after_in idx) a b ↔ (index_of idx (Name b) ≤ index_of idx (Name a))%Z.
Proof.
  unfold in_order, after_in. rewrite !Z.gtb_ltb, Z.ltb_lt, Z.ltb_ge. lia.
Qed.

Lemma from_distinct_modules_perm sortedModules stats stats' :
  stats ≡ₚ stats' →
  from_distinct_modules sortedModules stats → from_distinct_modules sortedModules stats'.
Proof.
  intros Hperm [Hnd Hknown]. split.
  - by rewrite <- Hperm.
  - intros s Hs. apply Hknown. by rewrite Hperm.
Qed.

Section with_graph.
Variables (graph : ModuleGraph) (sortedModules : list Module).
Hypothesis Hsort : TopologicalSort graph = Ok sortedModules.
Hypothesis Hnd : NoDup (Module_Name <$> sortedModules).

Lemma same_index_same_record stats a b :
  from_distinct_modules sortedModules stats →
  a ∈ stats → b ∈ stats →
  index_of (sortedModulesIndex_of graph) (Name a)
  = index_of (sortedModulesIndex_of graph) (Name b) →
  a = b.
Proof using Hsort Hnd.
  intros [Hnames Hknown] Ha Hb Hidx.
  destruct (Hknown a Ha) as [ka Hka], (Hknown b Hb) as [kb Hkb].
  rewrite (index_of_position _ _ _ ka Hsort Hnd Hka),
    (index_of_position _ _ _ kb Hsort Hnd Hkb) in Hidx.
  apply Nat2Z.inj in Hidx as ->.
  destruct Hka as (ma & Hma & Hna), Hkb as (mb & Hmb & Hnb).
  assert (Name a = Name b) as Hname by congruence.
  apply list_elem_of_lookup in Ha as [i Hi], Hb as [j Hj].
  assert (i = j) as ->; [|congruence].
  eapply NoDup_lookup; [exact Hnames| |]; rewrite list_lookup_fmap.
  - by rewrite Hi.
  - rewrite Hj. simpl. by rewrite Hname.
Qed.

Lemma sorted_later_than stats :
  from_distinct_modules sortedModules stats →
  StronglySorted (in_order (after_in (sortedModulesIndex_of graph))) stats →
  StronglySorted (later_than sortedModules) stats.
Proof using Hsort Hnd.
  intros Hfrom Hsorted.
  induction Hsorted as [|a stats Hsorted IH Hhd]; [constructor|].
  constructor.
  - apply IH. destruct Hfrom as [Hnames Hknown]. split.
    + rewrite fmap_cons in Hnames. by apply NoDup_cons in Hnames as [_ ?].
    + intros s Hs. apply Hknown. by right.
  - rewrite Forall_forall in Hhd |- *. intros b Hb.
    pose proof (Hhd b Hb) as Hab. apply in_order_after_in in Hab.
    destruct Hfrom as [Hnames Hknown].
    destruct (Hknown a ltac:(by left)) as [ka Hka].
    destruct (Hknown b ltac:(by right)) as [kb Hkb].
    exists ka, kb. split; [done|]. split; [done|].
    rewrite (index_of_position _ _ _ ka Hsort Hnd Hka),
      (index_of_position _ _ _ kb Hsort Hnd Hkb) in Hab.
    destruct (decide (ka = kb)) as [->|Hne]; [|lia].
    exfalso. rewrite fmap_cons in Hnames. apply NoDup_cons in Hnames as [Hnot _].
    apply Hnot. destruct Hka as (ma & Hma & <-), Hkb as (mb & Hmb & Hnb).
    rewrite Hma in Hmb. injection Hmb as <-. rewrite Hnb.
    apply list_elem_of_fmap. by exists b.
Qed.

Lemma sort_stats_unique stats1 stats2 :
  from_distinct_modules sortedModules stats1 →
  stats1 ≡ₚ stats2 →
  sort_stats graph stats1 = sort_stats graph stats2.
Proof using Hsort Hnd.
  intros Hfrom Hperm. unfold sort_stats.
  set (less := after_in (sortedModulesIndex_of graph)).
  apply (StronglySorted_unique_strong (in_order less)).
  - intros a b Ha Hb Hab Hba. unfold less in *.
    apply in_order_after_in in Hab, Hba.
    apply (same_index_same_record stats1); [done| | |lia].
    + by rewrite sort_Slice_elem_of in Ha.
    + by rewrite sort_Slice_elem_of, <- Hperm in Hb.
  - apply sort_Slice_StronglySorted, after_in_ordering.
  - apply sort_Slice_StronglySorted, after_in_ordering.
  - by rewrite !sort_Slice_perm.
Qed.

End with_graph.

(** C8. When the topological sort succeeds and lists modules of distinct
    names, and the delivered records belong to distinct modules of that list,
    the report holds exactly the delivered records, each record before all
    records of modules that come earlier in the topological order, and it is
    the same for any two orders of delivery. *)
Theorem sort_stats_deterministic (graph : ModuleGraph) (sortedModules : list Module)
    (stats1 stats2 : list StoreStats) :
  TopologicalSort graph = Ok sortedModules →
  NoDup (Module_Name <$> sortedModules) →
  from_distinct_modules sortedModules stats1 →
  stats1 ≡ₚ stats2 →
  sort_stats graph stats1 ≡ₚ stats1
  ∧ StronglySorted (later_than sortedModules) (sort_stats graph stats1)
  ∧ sort_stats graph stats1 = sort_stats graph stats2.
Proof.
  intros Hsort Hnd Hfrom Hperm. split; [apply sort_Slice_perm|]. split.
  - apply (sorted_later_than graph sortedModules Hsort Hnd).
    + eapply from_distinct_modules_perm; [|done]. symmetry. apply sort_Slice_perm.
    + apply sort_Slice_StronglySorted, after_in_ordering.
  - by apply (sort_stats_unique graph sortedModules Hsort Hnd).
Qed.

End final_order.

Lemma sort_stats_deterministic_witness :
  tools.sort_stats example_graph [example_stats "prices"; example_stats "totals"]
    ≡ₚ [example_stats "prices"; example_stats "totals"]
  ∧ StronglySorted (later_than example_sorted)
      (tools.sort_stats example_graph [example_stats "prices"; example_stats "totals"])
  ∧ tools.sort_stats example_graph [example_stats "prices"; example_stats "totals"]
    = tools.sort_stats example_graph [example_stats "totals"; example_stats "prices"].
Proof.
  apply (sort_stats_deterministic example_graph example_sorted
           [example_stats "prices"; example_stats "totals"]
           [example_stats "totals"; example_stats "prices"]).
  - reflexivity.
  - apply (bool_decide_unpack _). vm_compute. exact I.
  - split.
    + apply (bool_decide_unpack _). vm_compute. exact I.
    + intros s Hs. rewrite !elem_of_cons, elem_of_nil in Hs.
      destruct Hs as [->|[->|[]]].
      * exists 1. eexists. split; reflexivity.
      * exists 2. eexists. split; reflexivity.
  - apply perm_swap.
Defined.

(** ** Signatures: [Module.Signature] *)

(** *** The order of names *)
Section name_order.
Import manifest.

Lemma ltb_not_leb (s t : string) : String.ltb s t = negb (String.leb t s).
Proof.
  unfold String.ltb, String.leb. rewrite (String.compare_antisym s t).
  by destruct (String.compare t s).
Qed.

Lemma ltb_false_le (s t : string) : String.ltb s t = false ↔ (t ≤ s)%string.
Proof.
  rewrite ltb_not_leb, negb_false_iff. unfold String.le.
  by rewrite Is_true_true.
Qed.

Lemma ltb_true_not_le (s t : string) : String.ltb s t = true ↔ ¬ (t ≤ s)%string.
Proof. rewrite <- ltb_false_le. by destruct (String.ltb s t). Qed.

Lemma less_Name_ordering : transitive_ordering less_Name.
Proof.
  unfold less_Name. split; intros x y z.
  - rewrite !ltb_true_not_le. intros Hxy Hyz Hzx.
    destruct (total String.le (Input_Name x) (Input_Name y)) as [Hle|Hle]; [|done].
    apply Hyz. by etrans.
  - rewrite !ltb_false_le. intros Hxy Hyz. by etrans.
Qed.

Lemma in_order_less_Name i j :
  in_order less_Name i j ↔ (Input_Name i ≤ Input_Name j)%string.
Proof.
  unfold in_order, less_Name. rewrite ltb_true_not_le, ltb_false_le. split.
  - intros [Hn|Hle]; [|done].
    by destruct (total String.le (Input_Name i) (Input_Name j)).
  - by right.
Qed.

Lemma write_names_bytes inputs buf :
  write_names inputs buf = buf ++ bytes_of_names (names_of inputs).
Proof.
  unfold write_names, bytes_of_names, names_of.
  revert buf. induction inputs as [|input inputs IH]; intros buf; simpl.
  - by rewrite app_nil_r.
  - rewrite IH. by rewrite <- app_assoc.
Qed.

Context `{SortSlice}.

Lemma sorted_names_perm inputs :
  names_of (sort_Slice less_Name inputs) ≡ₚ names_of inputs.
Proof. unfold names_of. by rewrite sort_Slice_perm. Qed.

Lemma sorted_names_sorted inputs :
  Sorted String.le (names_of (sort_Slice less_Name inputs)).
Proof.
  unfold names_of. apply (Sorted_fmap _ (in_order less_Name)).
  - intros i j. apply in_order_less_Name.
  - apply sort_Slice_sorted, less_Name_ordering.
Qed.

(** Sorting makes the names independent of the order of declaration. *)
Lemma sorted_names_unique inputs1 inputs2 :
  names_of inputs1 ≡ₚ names_of inputs2 →
  names_of (sort_Slice less_Name inputs1) = names_of (sort_Slice less_Name inputs2).
Proof.
  intros Hperm. apply (Sorted_unique String.le); try apply sorted_names_sorted.
  by rewrite !sorted_names_perm.
Qed.

End name_order.

(** *** What a signature depends on *)
Section signature.
Import manifest.
Context `{SortSlice}.

#[global] Instance same_definition_equiv : Equivalence same_definition.
Proof.
  unfold same_definition. split.
  - by intros m.
  - intros m1 m2 (? & ? & ? & ?). by repeat split.
  - intros m1 m2 m3 (? & ? & ? & ?) (? & ? & ? & ?).
    repeat split; by etrans.
Qed.

#[global] Instance reordered_equiv : Equivalence reordered.
Proof.
  unfold reordered. split.
  - by intros m.
  - by intros m1 m2 [? ?].
  - intros m1 m2 m3 [? ?] [? ?]. split; by etrans.
Qed.

#[global] Instance heap_reordered_equiv : Equivalence heap_reordered.
Proof. unfold heap_reordered. split; apply _. Qed.

Lemma heap_reordered_lookup h h' p :
  heap_reordered h h' →
  match h !! p, h' !! p with
  | Some m, Some m' => reordered m m'
  | None, None => True
  | _, _ => False
  end.
Proof.
  intros Hh. destruct (h !! p) as [m|] eqn:Hp.
  - destruct (Forall2_lookup_l _ _ _ _ _ Hh Hp) as (m' & Hp' & Hm).
    by rewrite Hp'.
  - apply lookup_ge_None in Hp. rewrite (Forall2_length _ _ _ Hh) in Hp.
    apply lookup_ge_None in Hp. by rewrite Hp.
Qed.

Lemma heap_reordered_sort h p this :
  h !! p = Some this →
  heap_reordered h (<[p := set_Inputs this (sort_Slice less_Name (Module_Inputs this))]> h).
Proof.
  intros Hp. unfold heap_reordered.
  rewrite <- (list_insert_id h p this Hp) at 1.
  apply Forall2_insert; [reflexivity|].
  split; [done|]. unfold same_definition. simpl. repeat split.
  symmetry. apply sorted_names_perm.
Qed.

Lemma Signature_step n graph p h :
  Module_Signature (S n) graph p h =
    match h !! p with
    | None => None
    | Some this =>
      let inputs := sort_Slice less_Name (Module_Inputs this) in
      match write_sigs (Module_Signature n graph) (ancestors_of graph this)
              (own_bytes this (names_of inputs)) (<[p := set_Inputs this inputs]> h) with
      | Some (buf, h') => Some (sha1_Sum buf, h')
      | None => None
      end
    end.
Proof.
  simpl. destruct (h !! p) as [this|]; simpl; [|done].
  rewrite write_names_bytes. unfold own_bytes, ancestors_of.
  rewrite <- !app_assoc.
  by destruct (write_sigs _ _ _ _) as [[buf h']|].
Qed.

(** [Signature] only reorders inputs. *)
Lemma write_sigs_heap (sig : ptr → heap → option (list byte * heap)) ancestors :
  (∀ a h s h', sig a h = Some (s, h') → heap_reordered h h') →
  ∀ buf h buf' h',
    write_sigs sig ancestors buf h = Some (buf', h') → heap_reordered h h'.
Proof.
  intros Hsig. induction ancestors as [|a ancestors IH]; intros buf h buf' h'; simpl.
  - intros [= _ <-]. reflexivity.
  - destruct (sig a h) as [[s h1]|] eqn:Ha; simpl; [|done].
    intros Hrest. etrans; [by eapply Hsig|by eapply IH].
Qed.

Lemma Signature_heap n graph p h s h' :
  Module_Signature n graph p h = Some (s, h') → heap_reordered h h'.
Proof.
  revert p h s h'. induction n as [|n IH]; intros p h s h'; [done|].
  rewrite Signature_step. destruct (h !! p) as [this|] eqn:Hp; [|done]. simpl.
  destruct (write_sigs _ _ _ _) as [[buf h1]|] eqn:Hloop; [|done].
  intros [= _ <-]. etrans; [by apply heap_reordered_sort|].
  eapply write_sigs_heap; [|exact Hloop]. apply IH.
Qed.

Lemma ancestors_of_reordered graph m m' :
  reordered m m' → ancestors_of graph m = ancestors_of graph m'.
Proof. intros [Hname _]. unfold ancestors_of. by rewrite Hname. Qed.

Lemma similar_reordered n g1 g2 h1 h2 h1' h2' p q :
  heap_reordered h1 h1' → heap_reordered h2 h2' →
  similar n g1 g2 h1 h2 p q → similar n g1 g2 h1' h2' p q.
Proof.
  intros Hh1 Hh2. revert p q. induction n as [|n IH]; intros p q; [done|]. simpl.
  pose proof (heap_reordered_lookup _ _ p Hh1) as Hp.
  pose proof (heap_reordered_lookup _ _ q Hh2) as Hq.
  destruct (h1 !! p) as [m1|], (h1' !! p) as [m1'|]; try done;
    destruct (h2 !! q) as [m2|], (h2' !! q) as [m2'|]; try done.
  intros [Hsame Hanc]. split.
  - destruct Hp as [_ Hp], Hq as [_ Hq]. etrans; [by symmetry|]. by etrans.
  - rewrite <- (ancestors_of_reordered g1 _ _ Hp), <- (ancestors_of_reordered g2 _ _ Hq).
    eapply Forall2_impl; [exact Hanc|]. intros a b. apply IH.
Qed.

Lemma similar_refl n graph h h' p :
  heap_reordered h h' → similar n graph graph h h' p p.
Proof.
  intros Hh. revert p. induction n as [|n IH]; intros p; [done|]. simpl.
  pose proof (heap_reordered_lookup _ _ p Hh) as Hp.
  destruct (h !! p) as [m|], (h' !! p) as [m'|]; try done.
  split; [by destruct Hp|].
  rewrite <- (ancestors_of_reordered graph _ _ Hp).
  apply Forall_Forall2_diag, Forall_forall. intros a _. apply IH.
Qed.

Lemma write_sigs_similar n g1 g2 :
  (∀ h1 h2 p q, similar n g1 g2 h1 h2 p q →
     agree (Module_Signature n g1 p h1) (Module_Signature n g2 q h2)) →
  ∀ a1 a2 h1 h2 buf,
    Forall2 (similar n g1 g2 h1 h2) a1 a2 →
    agree (write_sigs (Module_Signature n g1) a1 buf h1)
          (write_sigs (Module_Signature n g2) a2 buf h2).
Proof.
  intros Hsig a1. induction a1 as [|p a1 IH]; intros a2 h1 h2 buf Hanc.
  - apply Forall2_nil_inv_l in Hanc as ->. done.
  - apply Forall2_cons_inv_l in Hanc as (q & a2' & Hpq & Hanc & ->). simpl.
    specialize (Hsig h1 h2 p q Hpq). unfold agree in Hsig.
    destruct (Module_Signature n g1 p h1) as [[s1 h1']|] eqn:H1,
             (Module_Signature n g2 q h2) as [[s2 h2']|] eqn:H2; try done.
    subst s2. simpl. apply IH.
    eapply Forall2_impl; [exact Hanc|]. intros a b.
    apply similar_reordered; by eapply Signature_heap.
Qed.

Lemma Signature_similar n g1 g2 h1 h2 p q :
  similar n g1 g2 h1 h2 p q →
  agree (Module_Signature n g1 p h1) (Module_Signature n g2 q h2).
Proof.
  revert h1 h2 p q. induction n as [|n IH]; intros h1 h2 p q; [done|].
  rewrite !Signature_step. simpl.
  destruct (h1 !! p) as [m1|] eqn:Hp, (h2 !! q) as [m2|] eqn:Hq; try done.
  intros [Hsame Hanc].
  assert (own_bytes m1 (names_of (sort_Slice less_Name (Module_Inputs m1)))
          = own_bytes m2 (names_of (sort_Slice less_Name (Module_Inputs m2)))) as ->.
  { destruct Hsame as (Hk & Hc & He & Hn). unfold own_bytes.
    by rewrite Hk, Hc, He, (sorted_names_unique _ _ Hn). }
  match goal with |- agree (match ?l1 with _ => _ end) (match ?l2 with _ => _ end) =>
    assert (agree l1 l2) as Hloop end.
  { apply (write_sigs_similar n g1 g2 IH).
    eapply Forall2_impl; [exact Hanc|]. intros a b.
    apply similar_reordered; by apply heap_reordered_sort. }
  unfold agree in *.
  destruct (write_sigs (Module_Signature n g1) _ _ _) as [[b1 ?]|],
           (write_sigs (Module_Signature n g2) _ _ _) as [[b2 ?]|]; try done.
  by subst.
Qed.

Lemma agree_signature n g1 g2 h1 h2 p q :
  agree (Module_Signature n g1 p h1) (Module_Signature n g2 q h2) →
  signature n g1 p h1 = signature n g2 q h2.
Proof.
  unfold signature, agree.
  destruct (Module_Signature n g1 p h1) as [[s1 ?]|],
           (Module_Signature n g2 q h2) as [[s2 ?]|]; simpl; try done.
  by intros ->.
Qed.

(** The bytes do not depend on the order in which any module of the heap
    lists its inputs. *)
Lemma signature_reordered n graph h h' p :
  heap_reordered h h' → signature n graph p h = signature n graph p h'.
Proof. intros Hh. by apply agree_signature, Signature_similar, similar_refl. Qed.

End signature.

(** *** The digest *)

(** The test vectors of the standard: the digests of abc and of the empty
    message. *)
Example sha1_Sum_abc :
  Z_of_byte <$> sha1_Sum (bytes_of_string "abc")
  = [0xa9; 0x99; 0x3e; 0x36; 0x47; 0x06; 0x81; 0x6a; 0xba; 0x3e;
     0x25; 0x71; 0x78; 0x50; 0xc2; 0x6c; 0x9c; 0xd0; 0xd8; 0x9d]%Z.
Proof. vm_compute. reflexivity. Qed.

Example sha1_Sum_empty :
  Z_of_byte <$> sha1_Sum []
  = [0xda; 0x39; 0xa3; 0xee; 0x5e; 0x6b; 0x4b; 0x0d; 0x32; 0x55;
     0xbf; 0xef; 0x95; 0x60; 0x18; 0x90; 0xaf; 0xd8; 0x07; 0x09]%Z.
Proof. vm_compute. reflexivity. Qed.

Lemma be_bytes_length n z : length (be_bytes n z) = n.
Proof.
  revert z. induction n as [|n IH]; intros z; simpl; [done|].
  rewrite length_app, IH. simpl. lia.
Qed.

Lemma sha1_Sum_length msg : length (sha1_Sum msg) = 20.
Proof.
  unfold sha1_Sum.
  destruct (fold_left sha1_block _ sha1_init) as [[[[h0 h1] h2] h3] h4].
  by rewrite !length_app, !be_bytes_length.
Qed.

(** *** The recursion ends on an acyclic graph *)
Section signature_total.
Import manifest.
Context `{SortSlice}.

Lemma is_Some_reordered h h' (p : ptr) :
  heap_reordered h h' → is_Some (h !! p) → is_Some (h' !! p).
Proof.
  intros Hh Hp. pose proof (heap_reordered_lookup _ _ p Hh) as Hl.
  destruct Hp as [m Hm]. rewrite Hm in Hl. by destruct (h' !! p).
Qed.

Lemma acyclic_reordered graph h h' rank :
  heap_reordered h h' → acyclic graph h rank → acyclic graph h' rank.
Proof.
  intros Hh Hacyc p m' Hp'.
  pose proof (heap_reordered_lookup _ _ p Hh) as Hl. rewrite Hp' in Hl.
  destruct (h !! p) as [m|] eqn:Hp; [|done].
  rewrite <- (ancestors_of_reordered graph _ _ Hl).
  eapply Forall_impl; [by apply (Hacyc p m)|].
  intros a [Hlt Ha]. split; [done|]. by eapply is_Some_reordered.
Qed.

Lemma write_sigs_total n graph rank :
  (∀ p h, acyclic graph h rank → rank p < n → is_Some (h !! p) →
     is_Some (Module_Signature n graph p h)) →
  ∀ ancestors buf h,
    acyclic graph h rank →
    Forall (λ a, rank a < n ∧ is_Some (h !! a)) ancestors →
    is_Some (write_sigs (Module_Signature n graph) ancestors buf h).
Proof.
  intros Hsig ancestors. induction ancestors as [|a ancestors IH]; intros buf h Hacyc Hall.
  - by eexists.
  - apply Forall_cons in Hall as [[Hlt Ha] Hall]. simpl.
    destruct (Hsig a h Hacyc Hlt Ha) as [[s h1] Hs]. rewrite Hs. simpl.
    pose proof (Signature_heap _ _ _ _ _ _ Hs) as Hh.
    apply IH; [by eapply acyclic_reordered|].
    eapply Forall_impl; [exact Hall|].
    intros b [? ?]. split; [done|]. by eapply is_Some_reordered.
Qed.

Lemma Signature_total n graph h rank p :
  acyclic graph h rank → rank p < n → is_Some (h !! p) →
  is_Some (Module_Signature n graph p h).
Proof.
  revert p h. induction n as [|n IH]; intros p h Hacyc Hlt [m Hm]; [lia|].
  rewrite Signature_step, Hm. simpl.
  pose proof (heap_reordered_sort h p m Hm) as Hh.
  destruct (write_sigs_total n graph rank IH (ancestors_of graph m)
              (own_bytes m (names_of (sort_Slice less_Name (Module_Inputs m))))
              (<[p := set_Inputs m (sort_Slice less_Name (Module_Inputs m))]> h))
    as [[buf h'] Hloop].
  - by eapply acyclic_reordered.
  - eapply Forall_impl; [by apply (Hacyc p m)|].
    intros a [? ?]. split; [lia|]. by eapply is_Some_reordered.
  - rewrite Hloop. by eexists.
Qed.

(** The loop over the ancestors appends their signatures, each the one the
    ancestor has in the heap the call started from. *)
Lemma write_sigs_spec n graph h0 ancestors :
  ∀ buf h buf' h',
    heap_reordered h0 h →
    write_sigs (Module_Signature n graph) ancestors buf h = Some (buf', h') →
    ∃ sigs, buf' = buf ++ concat sigs
            ∧ Forall2 (λ a s, signature n graph a h0 = Some s) ancestors sigs.
Proof.
  induction ancestors as [|a ancestors IH]; intros buf h buf' h' Hh; simpl.
  - intros [= <- _]. exists []. by rewrite app_nil_r.
  - destruct (Module_Signature n graph a h) as [[s h1]|] eqn:Hs; simpl; [|done].
    intros Hrest.
    destruct (IH (buf ++ s) h1 buf' h') as (sigs & -> & Hsigs); [|done|].
    { etrans; [done|]. by eapply Signature_heap. }
    exists (s :: sigs). simpl. rewrite <- app_assoc. split; [done|].
    constructor; [|done].
    rewrite (signature_reordered n graph h0 h a Hh). unfold signature. by rewrite Hs.
Qed.

(** C1. On an acyclic graph, [Signature] returns for a module [m] of the
    heap the SHA-1 digest, 20 bytes long, of the concatenation of: the kind
    of [m], its code bytes, its entrypoint, the names of its inputs in
    lexicographic order, and, for each module of [AncestorsOf(m.Name)] in
    that order, the signature the same function gives that ancestor. The heap
    it leaves differs from the one it found by the order of inputs only. *)
Theorem Signature_spec (n : nat) (graph : ModuleGraph) (h : heap) (rank : ptr → nat)
    (p : ptr) (m : Module) :
  acyclic graph h rank → (rank p ≤ n)%nat → h !! p = Some m →
  ∃ names sigs digest h',
    Module_Signature (S n) graph p h = Some (digest, h')
    ∧ digest =
        sha1_Sum (bytes_of_string (Module_Kind m) ++ Code_Content (Module_Code m)
                  ++ bytes_of_string (Code_Entrypoint (Module_Code m))
                  ++ bytes_of_names names ++ concat sigs)
    ∧ length digest = 20
    ∧ names ≡ₚ names_of (Module_Inputs m) ∧ Sorted String.le names
    ∧ Forall2 (λ a s, signature n graph a h = Some s) (ancestors_of graph m) sigs
    ∧ heap_reordered h h'.
Proof.
  intros Hacyc Hrank Hm.
  destruct (Signature_total (S n) graph h rank p Hacyc) as [[digest h'] Hsig];
    [lia|by eexists|].
  pose proof (Signature_heap _ _ _ _ _ _ Hsig) as Hheap.
  rewrite Signature_step, Hm in Hsig. simpl in Hsig.
  destruct (write_sigs _ _ _ _) as [[buf h1]|] eqn:Hloop; [|done].
  injection Hsig as <- <-.
  destruct (write_sigs_spec n graph h _ _ _ _ _ (heap_reordered_sort h p m Hm) Hloop)
    as (sigs & -> & Hsigs).
  exists (names_of (sort_Slice less_Name (Module_Inputs m))), sigs.
  eexists _, _. rewrite Signature_step, Hm. simpl. rewrite Hloop.
  split; [done|]. split.
  { unfold own_bytes. by rewrite <- !app_assoc. }
  split; [apply sha1_Sum_length|].
  split; [apply sorted_names_perm|]. split; [apply sorted_names_sorted|].
  by split.
Qed.

(** C7. The bytes [Signature] returns for a module are the same whatever
    the order in which the module lists its inputs; and on an acyclic graph,
    with fuel above the rank of the module, it does return. *)
Theorem Signature_input_order (n : nat) (graph : ModuleGraph) (h : heap) (p : ptr)
    (m : Module) (inputs' : list Input) :
  h !! p = Some m →
  inputs' ≡ₚ Module_Inputs m →
  signature n graph p (<[p := set_Inputs m inputs']> h) = signature n graph p h
  ∧ (∀ rank, acyclic graph h rank → rank p < n → is_Some (signature n graph p h)).
Proof.
  intros Hm Hperm. split.
  - symmetry. apply signature_reordered. unfold heap_reordered.
    rewrite <- (list_insert_id h p m Hm) at 1.
    apply Forall2_insert; [reflexivity|].
    split; [done|]. unfold same_definition, names_of. simpl. repeat split.
    by rewrite Hperm.
  - intros rank Hacyc Hlt. unfold signature.
    destruct (Signature_total n graph h rank p Hacyc Hlt) as [r ->]; [by eexists|].
    by eexists.
Qed.

End signature_total.

(** *** Equal definitions give equal signatures, and not conversely *)
Section signature_identity.
Import manifest.
Context `{SortSlice}.

Lemma Identical_similar n g1 h1 g2 h2 p q :
  Identical g1 h1 g2 h2 p q → similar n g1 g2 h1 h2 p q.
Proof.
  revert p q. induction n as [|n IH]; intros p q Hid; [done|]. simpl.
  destruct Hid as [p q m1 m2 -> -> Hsame Hanc]. split; [done|].
  eapply Forall2_impl; [exact Hanc|]. intros a b. apply IH.
Qed.

(** C2, as amended. Two modules whose own definitions (kind, code bytes,
    entrypoint, input names in any order) and whose chains of ancestors are
    identical have the same signature. *)
Theorem Signature_identical (n : nat) (g1 : ModuleGraph) (h1 : heap)
    (g2 : ModuleGraph) (h2 : heap) (p q : ptr) :
  Identical g1 h1 g2 h2 p q →
  signature n g1 p h1 = signature n g2 q h2.
Proof. intros Hid. by apply agree_signature, Signature_similar, Identical_similar. Qed.

End signature_identity.

(** *** The three theorems on a manifest of three modules *)

Lemma example_acyclic : acyclic example_module_graph example_heap (λ p, p).
Proof.
  intros [|[|[|p]]] m Hm; simplify_eq/=; repeat constructor; by eexists.
Qed.

Lemma Signature_spec_witness :
  ∃ names sigs digest h',
    manifest.Module_Signature 3 example_module_graph 2 example_heap = Some (digest, h')
    ∧ digest =
        sha1_Sum (bytes_of_string "store" ++ [x00; x61; x73; x6d; x02]
                  ++ bytes_of_string "build_state"
                  ++ bytes_of_names names ++ concat sigs)
    ∧ length digest = 20
    ∧ names ≡ₚ ["store:prices"; "map:pairs"] ∧ Sorted String.le names
    ∧ Forall2 (λ a s, manifest.signature 2 example_module_graph a example_heap = Some s)
        [0; 1] sigs
    ∧ heap_reordered example_heap h'.
Proof.
  apply (Signature_spec 2 example_module_graph example_heap (λ p, p) 2 totals_module
           example_acyclic).
  - lia.
  - reflexivity.
Defined.

Lemma Signature_input_order_witness :
  manifest.signature 3 example_module_graph 2
    (<[2 := manifest.set_Inputs totals_module [input_of "" "" "pairs"; input_of "" "prices" ""]]>
       example_heap)
  = manifest.signature 3 example_module_graph 2 example_heap
  ∧ (∀ rank, acyclic example_module_graph example_heap rank → rank 2 < 3 →
       is_Some (manifest.signature 3 example_module_graph 2 example_heap)).
Proof.
  apply (Signature_input_order 3 example_module_graph example_heap 2 totals_module
           [input_of "" "" "pairs"; input_of "" "prices" ""]).
  - reflexivity.
  - apply perm_swap.
Defined.

(** The same manifest loaded twice, the second time with the inputs of
    [totals] declared in the other order. *)
Lemma Signature_identical_witness :
  manifest.signature 3 example_module_graph 2 example_heap
  = manifest.signature 3 example_module_graph 2
      (<[2 := manifest.set_Inputs totals_module [input_of "" "" "pairs"; input_of "" "prices" ""]]>
         example_heap).
Proof.
  apply (Signature_identical 3 example_module_graph example_heap example_module_graph _ 2 2).
  assert (Identical example_module_graph example_heap example_module_graph
            (<[2 := manifest.set_Inputs totals_module
                      [input_of "" "" "pairs"; input_of "" "prices" ""]]> example_heap) 0 0)
    as H0.
  { eapply Identical_modules; [reflexivity|reflexivity|reflexivity|constructor]. }
  assert (Identical example_module_graph example_heap example_module_graph
            (<[2 := manifest.set_Inputs totals_module
                      [input_of "" "" "pairs"; input_of "" "prices" ""]]> example_heap) 1 1)
    as H1.
  { eapply Identical_modules; [reflexivity|reflexivity|reflexivity|].
    by repeat constructor. }
  eapply Identical_modules; [reflexivity|reflexivity| |by repeat constructor].
  repeat split. apply perm_swap.
Defined.

(** C2, as stated, fails: the two modules get the same signature, the
    digest of the same bytes, and their definitions differ. *)
Lemma Signature_collision :
  manifest.signature 1 collision_graph 0 collision_heap
  = Some (sha1_Sum (bytes_of_string "mapxyzsource:sf.ethereum.type.v1.Block"))
  ∧ manifest.signature 1 collision_graph 1 collision_heap
    = Some (sha1_Sum (bytes_of_string "mapxyzsource:sf.ethereum.type.v1.Block"))
  ∧ manifest.Module_Code collision_left ≠ manifest.Module_Code collision_right
  ∧ ¬ Identical collision_graph collision_heap collision_graph collision_heap 0 1.
Proof.
  split; [reflexivity|]. split; [reflexivity|]. split; [done|].
  inversion 1 as [p q m1 m2 Hp Hq Hsame _]. simplify_eq/=.
  by destruct Hsame as (_ & ? & _).
Qed.

(** ** What the statistics of a store say *)
Section stats_aggregates.
Import tools.
Context `{Float64}.

Lemma sum_of_snoc lens len : sum_of (lens ++ [len]) = (sum_of lens + len)%Z.
Proof. unfold sum_of. induction lens as [|x lens IH]; simpl; lia. Qed.

Lemma largest_snoc lens len : largest (lens ++ [len]) = Z.max (largest lens) len.
Proof. unfold largest. induction lens as [|x lens IH]; simpl; lia. Qed.

Lemma largest_bound lens i len : lens !! i = Some len → (len ≤ largest lens)%Z.
Proof.
  unfold largest. revert i. induction lens as [|x lens IH]; intros [|i] Hi;
    simplify_eq/=; [lia|]. specialize (IH i Hi). lia.
Qed.

Lemma largest_nonneg lens : (0 ≤ largest lens)%Z.
Proof. unfold largest. induction lens as [|x lens IH]; simpl; lia. Qed.

Lemma uint64_add_l a b : uint64 (uint64 a + b) = uint64 (a + b).
Proof. unfold uint64. by rewrite Z.add_mod_idemp_l. Qed.

Lemma visited_snoc s key value st :
  visited (s ++ [(key, value)]) st = fst (visit key value (visited s st)).
Proof. unfold visited. by rewrite fold_left_app. Qed.

(** One more entry: the key named as the largest changes only when the new
    length is greater than every length before. *)
Lemma first_largest_snoc lens keys key len largest_key :
  length keys = length lens →
  first_largest lens keys largest_key →
  first_largest (lens ++ [len]) (keys ++ [key])
    (if (len >? largest lens)%Z then key else largest_key).
Proof.
  intros Hlen Hfirst. unfold first_largest in *. rewrite largest_snoc.
  pose proof (largest_nonneg lens) as Hnn.
  destruct (len >? largest lens)%Z eqn:Hgt.
  - apply Z.gtb_lt in Hgt. rewrite decide_False by lia.
    replace (Z.max (largest lens) len) with len by lia.
    exists (length lens). split; [|split].
    + rewrite <- Hlen. by rewrite lookup_app_r, Nat.sub_diag by lia.
    + by rewrite lookup_app_r, Nat.sub_diag by lia.
    + intros j l Hj Hl. rewrite lookup_app_l in Hl by done.
      pose proof (largest_bound _ _ _ Hl). lia.
  - rewrite Z.gtb_ltb, Z.ltb_ge in Hgt.
    replace (Z.max (largest lens) len) with (largest lens) by lia.
    destruct (decide (largest lens = 0%Z)) as [Hz|Hz]; [done|].
    destruct Hfirst as (i & Hk & Hl & Hbefore).
    pose proof (lookup_lt_Some _ _ _ Hl) as Hi.
    exists i. split; [|split].
    + by rewrite lookup_app_l by lia.
    + by rewrite lookup_app_l by lia.
    + intros j l Hj Hjl. rewrite lookup_app_l in Hjl by lia. by eapply Hbefore.
Qed.

Lemma visit_invariant_start :
  visit_invariant []
    (mkVisit 0 (mkKeyStats _ 0 0 (float64_of_Z 0) (float64_of_Z 0) "")
       (mkValueStats _ 0 0 (float64_of_Z 0) (float64_of_Z 0) "") [] []).
Proof. by repeat split. Qed.

Lemma visit_invariant_step s key value st :
  visit_invariant s st →
  visit_invariant (s ++ [(key, value)]) (fst (visit key value st)).
Proof.
  intros (Hc & Hkt & Hkl & Hkf & Hka & Hkd & Hkls & Hvt & Hvl & Hvf & Hva & Hvd & Hvls).
  assert (length (fst <$> s) = length (key_lens s)) as Hlk
    by (unfold key_lens; by rewrite !length_fmap).
  assert (length (fst <$> s) = length (value_lens s)) as Hlv
    by (unfold value_lens; by rewrite !length_fmap).
  pose proof (first_largest_snoc _ _ key (len_string key) _ Hlk Hkf) as Hkf'.
  pose proof (first_largest_snoc _ _ key (len_bytes value) _ Hlv Hvf) as Hvf'.
  unfold visit_invariant, visit. simpl.
  unfold key_lens, value_lens in *. rewrite !fmap_app. simpl.
  rewrite !sum_of_snoc, !largest_snoc, length_app, Hc, Hkt, Hvt, Hkls, Hvls, !uint64_add_l.
  simpl. rewrite Nat2Z.inj_add. simpl.
  rewrite Hkl, Hvl in *.
  destruct (len_string key >? _)%Z eqn:Hgk; rewrite ?Hgk in Hkf';
    destruct (len_bytes value >? _)%Z eqn:Hgv; rewrite ?Hgv in Hvf'; simpl;
    rewrite ?Z.gtb_ltb in Hgk, Hgv;
    first [apply Z.ltb_lt in Hgk | apply Z.ltb_ge in Hgk];
    first [apply Z.ltb_lt in Hgv | apply Z.ltb_ge in Hgv];
    repeat split; first [done | lia].
Qed.

Lemma visit_invariant_visited s :
  visit_invariant s
    (visited s (mkVisit 0 (mkKeyStats _ 0 0 (float64_of_Z 0) (float64_of_Z 0) "")
                  (mkValueStats _ 0 0 (float64_of_Z 0) (float64_of_Z 0) "") [] [])).
Proof.
  induction s as [|[key value] s IH] using rev_ind.
  - apply visit_invariant_start.
  - rewrite visited_snoc. by apply visit_invariant_step.
Qed.

End stats_aggregates.

Section stats_record.
Import tools.
Context `{Float64}.

Lemma calculateStoreStats_visited (stateStore : Store) (stats : StoreStats) :
  KeysCount stats = 0%Z →
  ∃ st, visit_invariant stateStore st
        ∧ calculateStoreStats stateStore stats =
            (if (v_KeysCount st >? 0)%Z then
               set_stats stats (v_KeysCount st)
                 (Some (mkKeyStats _ (KeyStats_TotalSize (v_KeyStats st))
                          (KeyStats_LargestSize (v_KeyStats st))
                          (mean_of (KeyStats_TotalSize (v_KeyStats st)) (v_KeysCount st))
                          (stdDev (v_keyLens st)
                             (mean_of (KeyStats_TotalSize (v_KeyStats st)) (v_KeysCount st)))
                          (KeyStats_Largest (v_KeyStats st))))
                 (Some (mkValueStats _ (ValueStats_TotalSize (v_ValueStats st))
                          (ValueStats_LargestSize (v_ValueStats st))
                          (mean_of (ValueStats_TotalSize (v_ValueStats st)) (v_KeysCount st))
                          (stdDev (v_valueLens st)
                             (mean_of (ValueStats_TotalSize (v_ValueStats st)) (v_KeysCount st)))
                          (ValueStats_Largest (v_ValueStats st))))
             else set_stats stats (v_KeysCount st) None None, None).
Proof.
  intros Hzero. eexists. split; [apply visit_invariant_visited|].
  unfold calculateStoreStats. rewrite Store_Iter_visit, Hzero.
  by destruct (v_KeysCount _ >? 0)%Z.
Qed.

(** What [calculateStoreStats] leaves of the record it is given, and the
    count it writes. *)
Lemma calculateStoreStats_frame (stateStore : Store) (stats : StoreStats) :
  KeysCount stats = 0%Z →
  let stats' := fst (calculateStoreStats stateStore stats) in
  KeysCount stats' = uint64 (Z.of_nat (length stateStore))
  ∧ Name stats' = Name stats ∧ ModuleHash stats' = ModuleHash stats
  ∧ InitialBlock stats' = InitialBlock stats ∧ ValueType stats' = ValueType stats
  ∧ UpdatePolicy stats' = UpdatePolicy stats ∧ FileInfo_ stats' = FileInfo_ stats.
Proof.
  intros Hzero.
  destruct (calculateStoreStats_visited stateStore stats Hzero) as (st & Hinv & ->).
  destruct Hinv as (Hc & _).
  simpl. by destruct (v_KeysCount st >? 0)%Z.
Qed.

(** X1. On a record whose count starts at zero, [calculateStoreStats] leaves
    in the record the number of entries (modulo 2^64); when that count is
    positive the key statistics hold the sum of the key lengths (modulo
    2^64), the greatest key length, the quotient of that sum by the count and
    the standard deviation of the key lengths about that quotient, and the
    value statistics hold the same for the value lengths. The identity
    fields and the file information of the record are not touched. *)
Theorem calculateStoreStats_aggregates (stateStore : Store) (stats : StoreStats) :
  KeysCount stats = 0%Z →
  let stats' := fst (calculateStoreStats stateStore stats) in
  KeysCount stats' = uint64 (Z.of_nat (length stateStore))
  ∧ ((KeysCount stats' > 0)%Z →
     ∃ ks vs,
       KeyStats_ stats' = Some ks ∧ ValueStats_ stats' = Some vs
       ∧ KeyStats_TotalSize ks = uint64 (sum_of (key_lens stateStore))
       ∧ KeyStats_LargestSize ks = largest (key_lens stateStore)
       ∧ KeyStats_AverageSize ks = mean_of (KeyStats_TotalSize ks) (KeysCount stats')
       ∧ KeyStats_StdDevSize ks
         = stdDev (float64_of_Z <$> key_lens stateStore) (KeyStats_AverageSize ks)
       ∧ ValueStats_TotalSize vs = uint64 (sum_of (value_lens stateStore))
       ∧ ValueStats_LargestSize vs = largest (value_lens stateStore)
       ∧ ValueStats_AverageSize vs = mean_of (ValueStats_TotalSize vs) (KeysCount stats')
       ∧ ValueStats_StdDevSize vs
         = stdDev (float64_of_Z <$> value_lens stateStore) (ValueStats_AverageSize vs))
  ∧ Name stats' = Name stats ∧ ModuleHash stats' = ModuleHash stats
  ∧ InitialBlock stats' = InitialBlock stats ∧ ValueType stats' = ValueType stats
  ∧ UpdatePolicy stats' = UpdatePolicy stats ∧ FileInfo_ stats' = FileInfo_ stats.
Proof.
  intros Hzero.
  destruct (calculateStoreStats_visited stateStore stats Hzero) as (st & Hinv & ->).
  destruct Hinv as (Hc & Hkt & Hkl & _ & _ & _ & Hkls & Hvt & Hvl & _ & _ & _ & Hvls).
  simpl. destruct (v_KeysCount st >? 0)%Z eqn:Hpos; simpl.
  - split; [done|]. split; [|by repeat split].
    intros _. eexists _, _. split; [done|]. split; [done|]. simpl.
    rewrite Hkls, Hvls. by repeat split.
  - split; [done|]. split; [|by repeat split].
    rewrite Z.gtb_ltb, Z.ltb_ge in Hpos. lia.
Qed.

(** X2. The key the statistics name as the largest is the key of the first
    entry visited whose key has the greatest length; the key the value
    statistics name is the key of the first entry whose value has the
    greatest length. Each is the empty string when no length is positive. *)
Theorem calculateStoreStats_largest (stateStore : Store) (stats : StoreStats) :
  KeysCount stats = 0%Z →
  let stats' := fst (calculateStoreStats stateStore stats) in
  (∀ ks, KeyStats_ stats' = Some ks →
     first_largest (key_lens stateStore) (fst <$> stateStore) (KeyStats_Largest ks))
  ∧ (∀ vs, ValueStats_ stats' = Some vs →
     first_largest (value_lens stateStore) (fst <$> stateStore) (ValueStats_Largest vs)).
Proof.
  intros Hzero.
  destruct (calculateStoreStats_visited stateStore stats Hzero) as (st & Hinv & ->).
  destruct Hinv as (_ & _ & _ & Hkf & _ & _ & _ & _ & _ & Hvf & _).
  simpl. destruct (v_KeysCount st >? 0)%Z; simpl; split; intros ? [= <-]; done.
Qed.

End stats_record.

Lemma calculateStoreStats_aggregates_witness :
  let stats' :=
    fst (tools.calculateStoreStats tie_store (tools.initializeStoreStats (example_conf []))) in
  tools.KeysCount stats' = uint64 4
  ∧ ((tools.KeysCount stats' > 0)%Z →
     ∃ ks vs,
       tools.KeyStats_ stats' = Some ks ∧ tools.ValueStats_ stats' = Some vs
       ∧ tools.KeyStats_TotalSize ks = uint64 (sum_of (key_lens tie_store))
       ∧ tools.KeyStats_LargestSize ks = largest (key_lens tie_store)
       ∧ tools.KeyStats_AverageSize ks
         = mean_of (tools.KeyStats_TotalSize ks) (tools.KeysCount stats')
       ∧ tools.KeyStats_StdDevSize ks
         = tools.stdDev (tools.float64_of_Z <$> key_lens tie_store) (tools.KeyStats_AverageSize ks)
       ∧ tools.ValueStats_TotalSize vs = uint64 (sum_of (value_lens tie_store))
       ∧ tools.ValueStats_LargestSize vs = largest (value_lens tie_store)
       ∧ tools.ValueStats_AverageSize vs
         = mean_of (tools.ValueStats_TotalSize vs) (tools.KeysCount stats')
       ∧ tools.ValueStats_StdDevSize vs
         = tools.stdDev (tools.float64_of_Z <$> value_lens tie_store)
             (tools.ValueStats_AverageSize vs))
  ∧ tools.Name stats' = "totals" ∧ tools.ModuleHash stats' = "a9993e36"
  ∧ tools.InitialBlock stats' = 0%Z ∧ tools.ValueType stats' = "int64"
  ∧ tools.UpdatePolicy stats' = "UPDATE_POLICY_ADD" ∧ tools.FileInfo_ stats' = None.
Proof.
  apply (calculateStoreStats_aggregates tie_store (tools.initializeStoreStats (example_conf []))).
  reflexivity.
Defined.

Lemma calculateStoreStats_largest_witness :
  let stats' :=
    fst (tools.calculateStoreStats tie_store (tools.initializeStoreStats (example_conf []))) in
  (∀ ks, tools.KeyStats_ stats' = Some ks →
     first_largest (key_lens tie_store) (fst <$> tie_store) (tools.KeyStats_Largest ks))
  ∧ (∀ vs, tools.ValueStats_ stats' = Some vs →
     first_largest (value_lens tie_store) (fst <$> tie_store) (tools.ValueStats_Largest vs)).
Proof.
  apply (calculateStoreStats_largest tie_store (tools.initializeStoreStats (example_conf []))).
  reflexivity.
Defined.

Example calculateStoreStats_tie :
  let stats' :=
    fst (tools.calculateStoreStats tie_store (tools.initializeStoreStats (example_conf []))) in
  (tools.KeyStats_Largest <$> tools.KeyStats_ stats') = Some "abcd"
  ∧ (tools.ValueStats_Largest <$> tools.ValueStats_ stats') = Some "abcd".
Proof. vm_compute. by split. Qed.

(** ** What a goroutine can do *)
Section goroutine_outcomes.
Import tools.
Context `{Float64} `{SortSlice}.




(** X4. Every record a goroutine sends belongs to a store module whose
    configuration was built and carries the identity of that configuration.
    It is either the bare record of a store [getStore] reported empty, or it
    carries the name, size and block range of the file [getStore] chose and
    the number of entries of the store loaded from it. *)
Theorem goroutine_delivery (module : Module) (newConfig : result error Config)
    (stats : StoreStats) :
  module_goroutine module newConfig = Returns (Some stats) →
  Module_IsStore module = true
  ∧ ∃ conf,
      newConfig = Ok conf ∧ identity_of conf stats
      ∧ ((∃ err, getStore conf = Returns (Err err) ∧ is_EmptyStoreError err = true
                 ∧ stats = initializeStoreStats conf)
         ∨ (∃ stateStore fileInfo fileSize,
              getStore conf = Returns (Ok (stateStore, fileInfo))
              ∧ Config_FileSize conf fileInfo = Ok fileSize
              ∧ FileInfo_ stats
                = Some (mkStatsFileInfo (FileInfo_Filename fileInfo) fileSize
                          (mkRange (FileInfo_StartBlock fileInfo) (FileInfo_EndBlock fileInfo)))
              ∧ KeysCount stats = uint64 (Z.of_nat (length stateStore)))).
Proof.
  unfold module_goroutine. destruct (Module_IsStore module); simpl; [|done].
  destruct newConfig as [conf|err]; [|done].
  destruct (getStore conf) as [[[stateStore fileInfo]|err]|] eqn:Hget; [| |done].
  - destruct (Config_FileSize conf fileInfo) as [fileSize|?] eqn:Hsize; [|done].
    match goal with |- context [calculateStoreStats stateStore ?s0] =>
      pose proof (calculateStoreStats_frame stateStore s0 eq_refl) as Hagg;
      destruct (calculateStoreStats stateStore s0) as [stats' [?|]] end; [done|].
    intros [= <-]. split; [done|]. exists conf. split; [done|].
    simpl in Hagg. destruct Hagg as (Hc & Hn & Hh & Hi & Hv & Hu & Hf).
    split; [by repeat split|]. right. by eexists _, _, _.
  - destruct (is_EmptyStoreError err) eqn:Hempty; [|done].
    intros [= <-]. split; [done|]. exists conf. split; [done|].
    split; [by repeat split|]. left. by exists err.
Qed.

(** X5. Partial files do not weigh on the choice: as soon as the listing
    holds a complete file, [getStore] returns what it returns for the listing
    without its partial files. *)
Theorem getStore_ignores_partial (conf : Config) (files : list FileInfo) :
  (∃ file, file ∈ files ∧ FileInfo_Partial file = false) →
  getStore (with_listing conf (Ok files))
  = getStore (with_listing conf
                (Ok (List.filter (λ file, negb (FileInfo_Partial file)) files))).
Proof.
  intros (file & Hin & Hp). unfold getStore, with_listing. cbn [Config_ListSnapshotFiles Config_Load].
  set (kept := List.filter (λ file, negb (FileInfo_Partial file)) files).
  assert (file ∈ kept) as Hin'.
  { apply list_elem_of_In, filter_In. rewrite list_elem_of_In in Hin. by rewrite Hp. }
  replace (length files =? 0)%nat with false
    by (destruct files; [by apply elem_of_nil in Hin|done]).
  replace (length kept =? 0)%nat with false
    by (destruct kept; [by apply elem_of_nil in Hin'|done]).
  unfold kvFiles_of. rewrite !kvFiles_loop, !app_nil_l. subst kept.
  assert (∀ l, List.filter (λ file, negb (FileInfo_Partial file))
                 (List.filter (λ file, negb (FileInfo_Partial file)) l)
               = List.filter (λ file, negb (FileInfo_Partial file)) l) as Hidem.
  { induction l as [|x l IH]; simpl; [done|].
    destruct (FileInfo_Partial x) eqn:Hx; simpl; [done|]. by rewrite Hx, IH. }
  by rewrite Hidem.
Qed.

End goroutine_outcomes.

Lemma goroutine_delivery_witness :
  let newConfig : result tools.error tools.Config :=
    Ok (example_conf [snapshot_100_partial; snapshot_90; snapshot_80]) in
  let stats :=
    tools.set_FileInfo
      (fst (tools.calculateStoreStats [("k", [x01]); ("key", [x01; x02])]
              (tools.initializeStoreStats (example_conf []))))
      (tools.mkStatsFileInfo "0000000090-0000000000.kv" 4096 (tools.mkRange 0 90)) in
  tools.Module_IsStore (tools.mkModule "totals" 0 true) = true
  ∧ ∃ conf,
      newConfig = Ok conf ∧ identity_of conf stats
      ∧ ((∃ err, tools.getStore conf = Returns (Err err)
                 ∧ tools.is_EmptyStoreError err = true
                 ∧ stats = tools.initializeStoreStats conf)
         ∨ (∃ stateStore fileInfo fileSize,
              tools.getStore conf = Returns (Ok (stateStore, fileInfo))
              ∧ tools.Config_FileSize conf fileInfo = Ok fileSize
              ∧ tools.FileInfo_ stats
                = Some (tools.mkStatsFileInfo (tools.FileInfo_Filename fileInfo) fileSize
                          (tools.mkRange (tools.FileInfo_StartBlock fileInfo)
                             (tools.FileInfo_EndBlock fileInfo)))
              ∧ tools.KeysCount stats = uint64 (Z.of_nat (length stateStore)))).
Proof.
  apply (goroutine_delivery (tools.mkModule "totals" 0 true)
           (Ok (example_conf [snapshot_100_partial; snapshot_90; snapshot_80]))).
  vm_compute. reflexivity.
Defined.

Lemma getStore_ignores_partial_witness :
  tools.getStore (with_listing (example_conf [])
                    (Ok [snapshot_100_partial; snapshot_90; snapshot_80]))
  = tools.getStore (with_listing (example_conf [])
                      (Ok (List.filter (λ file, negb (tools.FileInfo_Partial file))
                             [snapshot_100_partial; snapshot_90; snapshot_80]))).
Proof.
  apply (getStore_ignores_partial (example_conf [])
           [snapshot_100_partial; snapshot_90; snapshot_80]).
  exists snapshot_90. split; [|reflexivity]. apply list_elem_of_further, list_elem_of_here.
Defined.

(** ** The index of the final sort *)
Section module_index.
Import tools.

Lemma index_modules_app i l1 l2 (idx : gmap string Z) :
  index_modules i (l1 ++ l2) idx
  = index_modules (i + Z.of_nat (length l1)) l2 (index_modules i l1 idx).
Proof.
  revert i idx. induction l1 as [|module l1 IH]; intros i idx; simpl.
  - f_equal. lia.
  - rewrite IH. f_equal. lia.
Qed.

(** X6. The index the final sort reads for a name is the place of the last
    module of that name in the topological order; it is zero, the index of
    the first module, for a name that is not in the order, and for every
    name when the topological sort failed. *)
Theorem index_of_last_occurrence (graph : ModuleGraph) :
  match TopologicalSort graph with
  | Err _ => ∀ name, index_of (sortedModulesIndex_of graph) name = 0%Z
  | Ok sortedModules =>
    (∀ name, name ∉ Module_Name <$> sortedModules →
       index_of (sortedModulesIndex_of graph) name = 0%Z)
    ∧ (∀ before module after,
         sortedModules = before ++ module :: after →
         Module_Name module ∉ Module_Name <$> after →
         index_of (sortedModulesIndex_of graph) (Module_Name module)
         = Z.of_nat (length before))
  end.
Proof.
  unfold index_of, sortedModulesIndex_of.
  destruct (TopologicalSort graph) as [sortedModules|err]; [|done]. split.
  - intros name Hnot. by rewrite index_modules_other.
  - intros before module after -> Hnot.
    rewrite index_modules_app. simpl.
    rewrite index_modules_other by done. by rewrite lookup_insert_eq.
Qed.

End module_index.

Example index_of_repeated_name :
  tools.index_of
    (tools.sortedModulesIndex_of
       (tools.mkModuleGraph
          (Ok [tools.mkModule "pairs" 0 false; tools.mkModule "prices" 0 true;
               tools.mkModule "pairs" 7 false])))
    "pairs" = 2%Z.
Proof. reflexivity. Qed.

(** ** Parsed inputs *)
Section parsed_inputs.
Import manifest.

(** [parse] accepts an input it has accepted and leaves it as it is. *)
Lemma parsed_fixed (input : Input) :
  parsed input → Input_parse input = (input, None).
Proof.
  intros [i Hi].
  destruct (Input_parse_cases i) as [(Hone & Hmode & Heq)|[(_ & _ & _ & Herr)|(_ & Heq)]];
    [|by rewrite Hi in Herr|by rewrite Heq in Hi].
  rewrite Heq in Hi. injection Hi as <-.
  destruct i as [source store map mode name].
  unfold exactly_one, legal_mode in *. simpl in *.
  rewrite !elem_of_cons, elem_of_nil in Hmode.
  unfold Input_parse, derived_name, derived_mode, nonempty, isempty, set_Name, set_Mode; simpl.
  destruct Hone as [(Hm & -> & ->)|[(Hs & -> & ->)|(Hsrc & -> & ->)]]; simpl.
  - apply String.eqb_neq in Hm. by rewrite Hm.
  - apply String.eqb_neq in Hs as Hs'. rewrite Hs'. simpl.
    destruct (Hmode Hs) as [->|[->|[->|[]]]]; done.
  - apply String.eqb_neq in Hsrc. by rewrite Hsrc.
Qed.

(** X7. Parsing is idempotent: calling [parse] on an input it has been
    called on, accepted or not, leaves the input as the first call left it and
    returns what the first call returned. *)
Theorem Input_parse_idempotent (i : Input) :
  Input_parse (fst (Input_parse i)) = Input_parse i.
Proof.
  destruct i as [source store map mode name].
  unfold Input_parse, nonempty, isempty, set_Name, set_Mode; simpl.
  destruct (String.eqb map "") eqn:Hmap, (String.eqb store "") eqn:Hstore,
    (String.eqb source "") eqn:Hsource; simpl; rewrite ?Hmap, ?Hstore, ?Hsource; simpl;
    try done.
  destruct (String.eqb mode "") eqn:Hmode; simpl; rewrite ?Hmap, ?Hstore, ?Hsource; simpl;
    [done|].
  destruct (String.eqb mode "get") eqn:Hget, (String.eqb mode "deltas") eqn:Hdeltas; simpl;
    rewrite ?Hmap, ?Hstore, ?Hsource, ?Hmode; simpl; by rewrite ?Hget, ?Hdeltas.
Qed.

Lemma parsed_name input :
  parsed input →
  (Input_Map input ≠ "" ∧ Input_Store input = "" ∧ Input_Source input = ""
   ∧ Input_Name input = String "m" (String "a" (String "p" (String ":" (Input_Map input)))))
  ∨ (Input_Store input ≠ "" ∧ Input_Map input = "" ∧ Input_Source input = ""
     ∧ Input_Name input
       = String "s" (String "t" (String "o" (String "r" (String "e"
           (String ":" (Input_Store input)))))))
  ∨ (Input_Source input ≠ "" ∧ Input_Map input = "" ∧ Input_Store input = ""
     ∧ Input_Name input
       = String "s" (String "o" (String "u" (String "r" (String "c" (String "e"
           (String ":" (Input_Source input)))))))).
Proof.
  intros Hp. pose proof (parsed_fixed input Hp) as Hidem.
  destruct (parsed_inv input Hp) as [Hone _].
  destruct (Input_parse_cases input) as [(_ & _ & Heq)|[(_ & _ & _ & Herr)|(_ & Heq)]];
    [|by rewrite Hidem in Herr|by rewrite Heq in Hidem].
  rewrite Heq in Hidem. injection Hidem as Hinput.
  assert (Input_Name input = derived_name input) as Hname by (by rewrite <- Hinput at 1).
  unfold derived_name, nonempty in Hname.
  destruct Hone as [(Hm & Hs & Hsrc)|[(Hs & Hm & Hsrc)|(Hsrc & Hm & Hs)]].
  - left. rewrite Hsrc, Hs in Hname. simpl in Hname. by repeat split.
  - right; left. rewrite Hsrc in Hname. apply String.eqb_neq in Hs as Hs'.
    rewrite Hs' in Hname. simpl in Hname. by repeat split.
  - right; right. apply String.eqb_neq in Hsrc as Hsrc'. rewrite Hsrc' in Hname.
    simpl in Hname. by repeat split.
Qed.

(** X8. The name of a parsed input tells what the input refers to: two
    parsed inputs of the same name have the same source, store and map. (The
    mode is not part of the name.) *)
Theorem parsed_name_identifies (a b : Input) :
  parsed a → parsed b → Input_Name a = Input_Name b →
  Input_Source a = Input_Source b ∧ Input_Store a = Input_Store b
  ∧ Input_Map a = Input_Map b.
Proof.
  intros Ha Hb Hname.
  destruct (parsed_name a Ha) as [(_ & -> & -> & Hna)|[(_ & -> & -> & Hna)|(_ & -> & -> & Hna)]];
    destruct (parsed_name b Hb) as [(_ & -> & -> & Hnb)|[(_ & -> & -> & Hnb)|(_ & -> & -> & Hnb)]];
    rewrite Hna, Hnb in Hname; simplify_eq; done.
Qed.

End parsed_inputs.

Lemma parsed_name_identifies_witness :
  manifest.Input_Source (input_of "" "prices" "")
  = manifest.Input_Source (manifest.set_Mode (input_of "" "prices" "") "deltas")
  ∧ manifest.Input_Store (input_of "" "prices" "")
    = manifest.Input_Store (manifest.set_Mode (input_of "" "prices" "") "deltas")
  ∧ manifest.Input_Map (input_of "" "prices" "")
    = manifest.Input_Map (manifest.set_Mode (input_of "" "prices" "") "deltas").
Proof.
  apply (parsed_name_identifies (input_of "" "prices" "")
           (manifest.set_Mode (input_of "" "prices" "") "deltas")).
  - by exists (manifest.mkInput "" "prices" "" "" "").
  - by exists (manifest.mkInput "" "prices" "" "deltas" "").
  - reflexivity.
Defined.

(** ** Loading a manifest: [newWithoutLoad] *)
Section loading.
Import manifest manifest_more.

Lemma validateStoreBuilder_None (s : Module) :
  validateStoreBuilder s = None ↔ legal_pair (Module_UpdatePolicy s) (Module_ValueType s).
Proof.
  unfold validateStoreBuilder, isempty.
  destruct (String.eqb_spec (Module_UpdatePolicy s) "") as [Hp|Hp].
  { split; [done|]. intros [? _]%legal_pair_nonempty. done. }
  destruct (String.eqb_spec (Module_ValueType s) "") as [Hv|Hv].
  { split; [done|]. intros [_ ?]%legal_pair_nonempty. done. }
  match goal with |- context [fold_left ?f ?l ?b] =>
    pose proof (found_loop (Module_UpdatePolicy s +:+ ":" +:+ Module_ValueType s) l b) as Hfound;
    destruct (fold_left f l b) end; simpl.
  - split; [|done]. intros _. apply combinations_legal.
    destruct Hfound as [Hfound _]. by destruct Hfound.
  - split; [done|]. intros Hl%combinations_legal. destruct Hfound as [_ Hfound].
    by specialize (Hfound (or_intror Hl)).
Qed.

Lemma parse_inputs_Ok name inputs inputs' :
  parse_inputs name inputs = Ok inputs' →
  inputs' = (λ input, fst (Input_parse input)) <$> inputs ∧ Forall parsed inputs'.
Proof.
  revert inputs'. induction inputs as [|input inputs IH]; intros inputs'; simpl.
  - intros [= <-]. by split.
  - destruct (Input_parse input) as [input' [err|]] eqn:Hparse; [done|].
    destruct (parse_inputs name inputs) as [rest|]; [|done].
    intros [= <-]. destruct (IH rest eq_refl) as [-> Hall]. split; [done|].
    constructor; [by exists input|done].
Qed.

Lemma parse_inputs_parsed name inputs :
  Forall parsed inputs → parse_inputs name inputs = Ok inputs.
Proof.
  induction 1 as [|input inputs Hp _ IH]; simpl; [done|].
  by rewrite (parsed_fixed input Hp), IH.
Qed.

Lemma default_Entrypoint_nonempty s entrypoint :
  entrypoint ≠ "" → Code_Entrypoint (Module_Code (default_Entrypoint s entrypoint)) ≠ "".
Proof.
  intros He. unfold default_Entrypoint, isempty.
  by destruct (String.eqb_spec (Code_Entrypoint (Module_Code s)) "").
Qed.

Lemma check_module_Ok (s s' : Module) :
  check_module s = Ok s' → loaded_from s s' ∧ valid_module s'.
Proof.
  unfold check_module, loaded_from, valid_module, loaded_entrypoint, ModuleKindMap,
    ModuleKindStore.
  destruct (ModuleNameRegexp_MatchString (Module_Name s)) eqn:Hname; [simpl|done].
  destruct (String.eqb_spec (Module_Kind s) "map") as [Hkind|Hnotmap].
  - destruct (isempty (StreamOutput_Type (Module_Output s))) eqn:Hout; [done|].
    destruct (parse_inputs _ _) as [inputs|] eqn:Hparse; [|done].
    intros [= <-]. apply parse_inputs_Ok in Hparse as [-> Hall].
    pose proof (default_Entrypoint_nonempty s "map" ltac:(done)) as Hentry.
    unfold default_Entrypoint, isempty in *.
    destruct (String.eqb_spec (Code_Entrypoint (Module_Code s)) ""); simpl in *.
    + split; [done|]. split; [done|]. split; [|done]. left. split; [done|].
      by apply String.eqb_neq.
    + split; [by destruct s as [? ? ? ? []]|]. split; [done|]. split; [|done].
      left. split; [done|]. by apply String.eqb_neq.
  - destruct (String.eqb_spec (Module_Kind s) "store") as [Hkind|?]; [|done].
    destruct (validateStoreBuilder s) as [err|] eqn:Hvalid; [done|].
    apply validateStoreBuilder_None in Hvalid.
    destruct (parse_inputs _ _) as [inputs|] eqn:Hparse; [|done].
    intros [= <-]. apply parse_inputs_Ok in Hparse as [-> Hall].
    pose proof (default_Entrypoint_nonempty s "build_state" ltac:(done)) as Hentry.
    unfold default_Entrypoint, isempty in *.
    destruct (String.eqb_spec (Code_Entrypoint (Module_Code s)) ""); simpl in *.
    + split; [done|]. split; [done|]. split; [|done]. by right.
    + split; [by destruct s as [? ? ? ? []]|]. split; [done|]. split; [|done]. by right.
Qed.

(** A module that meets the checks goes through them unchanged. *)
Lemma check_module_valid (s : Module) : valid_module s → check_module s = Ok s.
Proof.
  intros (Hname & Hkind & Hentry & Hinputs).
  unfold check_module, ModuleKindMap, ModuleKindStore. rewrite Hname. simpl.
  assert (∀ entrypoint, default_Entrypoint s entrypoint = s) as Hdefault.
  { intros entrypoint. unfold default_Entrypoint, isempty.
    by destruct (String.eqb_spec (Code_Entrypoint (Module_Code s)) ""). }
  destruct Hkind as [[Hk Hout]|[Hk Hlegal]]; rewrite Hk; simpl.
  - apply String.eqb_neq in Hout. unfold isempty. rewrite Hout, Hdefault.
    rewrite parse_inputs_parsed by done. by destruct s.
  - apply validateStoreBuilder_None in Hlegal. rewrite Hlegal, Hdefault.
    rewrite parse_inputs_parsed by done. by destruct s.
Qed.

Lemma check_modules_Ok modules modules' :
  check_modules modules = Ok modules' →
  Forall2 loaded_from modules modules' ∧ Forall valid_module modules'.
Proof.
  revert modules'. induction modules as [|s modules IH]; intros modules'; simpl.
  - intros [= <-]. by split.
  - destruct (check_module s) as [s'|] eqn:Hs; [|done].
    destruct (check_modules modules) as [rest|]; [|done].
    intros [= <-]. apply check_module_Ok in Hs as [? ?].
    destruct (IH rest eq_refl). split; by constructor.
Qed.

Lemma check_modules_valid modules :
  Forall valid_module modules → check_modules modules = Ok modules.
Proof.
  induction 1 as [|s modules Hs _ IH]; simpl; [done|].
  by rewrite (check_module_valid s Hs), IH.
Qed.

Context {FileDescriptor : Type}.
Variable NewModuleGraph : list Module → result string ModuleGraph.

Lemma newWithoutLoad_valid_aux (decoded : result string (@Manifest FileDescriptor))
    (m' : Manifest) :
  newWithoutLoad NewModuleGraph decoded = Ok m' →
  ∃ m graph,
    (CodeType m = "wasm/rust-v1" ∨ CodeType m = "native")
    ∧ Forall valid_module (Modules m')
    ∧ NewModuleGraph (Modules m') = Ok graph
    ∧ m' = set_Graph (set_Modules m (Modules m')) graph.
Proof.
  unfold newWithoutLoad. destruct decoded as [m|]; [|done].
  destruct (String.eqb_spec (CodeType m) "wasm/rust-v1") as [Hct|?];
    [|destruct (String.eqb_spec (CodeType m) "native") as [Hct|?]; [|done]]; simpl;
    (destruct (check_modules (Modules m)) as [modules|] eqn:Hcheck; [|done];
     destruct (NewModuleGraph modules) as [graph|] eqn:Hgraph; [|done];
     intros [= <-]; apply check_modules_Ok in Hcheck as [? ?];
     exists m, graph; simpl; repeat split; auto).
Qed.

(** X9. A manifest [newWithoutLoad] returns is the decoded manifest with a
    code type of wasm/rust-v1 or native, every module as declared but for an
    empty entrypoint, which has become map or build_state after the kind, and
    for its inputs, which are parsed; every module has a well-formed name, is a
    map with an output type or a store with a legal update policy and value
    type, and has an entrypoint; the graph is the one built from these
    modules. *)
Theorem newWithoutLoad_valid (decoded : result string (@Manifest FileDescriptor))
    (m' : Manifest) :
  newWithoutLoad NewModuleGraph decoded = Ok m' →
  ∃ m graph,
    decoded = Ok m
    ∧ (CodeType m = "wasm/rust-v1" ∨ CodeType m = "native")
    ∧ Forall2 loaded_from (Modules m) (Modules m')
    ∧ Forall valid_module (Modules m')
    ∧ NewModuleGraph (Modules m') = Ok graph
    ∧ m' = set_Graph (set_Modules m (Modules m')) graph.
Proof.
  unfold newWithoutLoad. destruct decoded as [m|]; [|done].
  destruct (String.eqb_spec (CodeType m) "wasm/rust-v1") as [Hct|?];
    [|destruct (String.eqb_spec (CodeType m) "native") as [Hct|?]; [|done]]; simpl;
    (destruct (check_modules (Modules m)) as [modules|] eqn:Hcheck; [|done];
     destruct (NewModuleGraph modules) as [graph|] eqn:Hgraph; [|done];
     intros [= <-]; apply check_modules_Ok in Hcheck as [? ?];
     exists m, graph; simpl; repeat split; auto).
Qed.

(** X10. Loading is idempotent: a manifest [newWithoutLoad] returned, decoded
    again as it is, is accepted and returned unchanged. *)
Theorem newWithoutLoad_idempotent (decoded : result string (@Manifest FileDescriptor))
    (m' : Manifest) :
  newWithoutLoad NewModuleGraph decoded = Ok m' →
  newWithoutLoad NewModuleGraph (Ok m') = Ok m'.
Proof.
  intros Hload.
  destruct (newWithoutLoad_valid_aux decoded m' Hload) as (m & graph & Hct & Hvalid & Hgraph & ->).
  unfold newWithoutLoad. simpl in *.
  replace (String.eqb (CodeType m) "wasm/rust-v1" || String.eqb (CodeType m) "native")
    with true by (destruct Hct as [-> | ->]; done).
  by rewrite (check_modules_valid _ Hvalid), Hgraph.
Qed.

End loading.

(** ** What [Signature] reads, and what it leaves *)
Section signature_effects.
Import manifest.
Context `{SortSlice}.

(** X11. The signature of a module does not read its update policy, its
    value type, its output type, the name of its code file, nor, of its inputs,
    anything but the names (not the mode of a store input): a module that
    differs in these only, with the same input names in any order, gets the
    same bytes. *)
Theorem Signature_ignores (n : nat) (graph : ModuleGraph) (h : heap) (p : ptr)
    (m m' : Module) :
  h !! p = Some m →
  Module_Name m' = Module_Name m →
  Module_Kind m' = Module_Kind m →
  Code_Content (Module_Code m') = Code_Content (Module_Code m) →
  Code_Entrypoint (Module_Code m') = Code_Entrypoint (Module_Code m) →
  names_of (Module_Inputs m') ≡ₚ names_of (Module_Inputs m) →
  signature n graph p (<[p := m']> h) = signature n graph p h.
Proof.
  intros Hm Hname Hkind Hcontent Hentry Hnames.
  symmetry. apply signature_reordered. unfold heap_reordered.
  rewrite <- (list_insert_id h p m Hm) at 1.
  apply Forall2_insert; [reflexivity|]. by repeat split.
Qed.

(** X12. Calling [Signature] again on the heap the first call left (inputs
    reordered) returns the same bytes. *)
Theorem Signature_repeatable (n : nat) (graph : ModuleGraph) (h h' : heap) (p : ptr)
    (s : list byte) :
  Module_Signature n graph p h = Some (s, h') →
  signature n graph p h' = Some s.
Proof.
  intros Hsig. rewrite <- (signature_reordered n graph h h' p).
  - unfold signature. by rewrite Hsig.
  - by eapply Signature_heap.
Qed.

Lemma inputs_sorted_sort h p q this :
  h !! q = Some this →
  inputs_sorted h p →
  inputs_sorted (<[q := set_Inputs this (sort_Slice less_Name (Module_Inputs this))]> h) p.
Proof.
  intros Hq Hsorted m. destruct (decide (p = q)) as [->|Hne].
  - rewrite list_lookup_insert_eq by (by eapply lookup_lt_Some).
    intros [= <-]. apply sorted_names_sorted.
  - rewrite list_lookup_insert_ne by done. apply Hsorted.
Qed.

Lemma write_sigs_sorted (sig : ptr → heap → option (list byte * heap)) p ancestors :
  (∀ a h s h', sig a h = Some (s, h') → inputs_sorted h p → inputs_sorted h' p) →
  ∀ buf h buf' h',
    write_sigs sig ancestors buf h = Some (buf', h') →
    inputs_sorted h p → inputs_sorted h' p.
Proof.
  intros Hsig. induction ancestors as [|a ancestors IH]; intros buf h buf' h'; simpl.
  - by intros [= _ <-].
  - destruct (sig a h) as [[s h1]|] eqn:Ha; simpl; [|done].
    intros Hrest Hsorted. eapply IH; [exact Hrest|]. by eapply Hsig.
Qed.

Lemma Signature_keeps_sorted n graph q h s h' p :
  Module_Signature n graph q h = Some (s, h') → inputs_sorted h p → inputs_sorted h' p.
Proof.
  revert q h s h'. induction n as [|n IH]; intros q h s h'; [done|].
  rewrite Signature_step. destruct (h !! q) as [this|] eqn:Hq; [|done]. simpl.
  destruct (write_sigs _ _ _ _) as [[buf h1]|] eqn:Hloop; [|done].
  intros [= _ <-] Hsorted.
  eapply write_sigs_sorted; [|exact Hloop|by apply inputs_sorted_sort].
  intros a h0 s0 h0'. apply IH.
Qed.

(** X13. After [Signature] the module it was called on lists its inputs in
    the order of their names, and is otherwise the module it was: same name,
    kind, code, entrypoint, and the same input names. *)
Theorem Signature_sorts_inputs (n : nat) (graph : ModuleGraph) (h h' : heap) (p : ptr)
    (m : Module) (s : list byte) :
  h !! p = Some m →
  Module_Signature n graph p h = Some (s, h') →
  ∃ m', h' !! p = Some m'
        ∧ Sorted String.le (names_of (Module_Inputs m'))
        ∧ reordered m m'.
Proof.
  intros Hm Hsig.
  pose proof (heap_reordered_lookup _ _ p (Signature_heap _ _ _ _ _ _ Hsig)) as Hl.
  rewrite Hm in Hl. destruct (h' !! p) as [m'|] eqn:Hm'; [|done].
  exists m'. split; [done|]. split; [|done].
  assert (inputs_sorted h' p) as Hsorted; [|by apply Hsorted].
  destruct n as [|n]; [done|].
  rewrite Signature_step, Hm in Hsig. simpl in Hsig.
  destruct (write_sigs _ _ _ _) as [[buf h1]|] eqn:Hloop; [|done].
  injection Hsig as _ <-.
  eapply write_sigs_sorted; [|exact Hloop|].
  - intros a h0 s0 h0'. apply Signature_keeps_sorted.
  - intros m0. rewrite list_lookup_insert_eq by (by eapply lookup_lt_Some).
    intros [= <-]. apply sorted_names_sorted.
Qed.

End signature_effects.

(** ** The diagram: [PrintMermaid] *)
Section diagram.
Import manifest manifest_more.

Lemma strings_Split_colon_first s :
  ∃ others, strings_Split_colon s = before_colon s :: others
            ∧ length others = count_colon s.
Proof.
  unfold before_colon. induction s as [|c s (others & IH & Hlen)]; simpl.
  - by exists [].
  - destruct (Ascii.eqb c ":").
    + eexists. split; [done|]. rewrite IH. simpl. by rewrite Hlen.
    + rewrite IH. exists others. split; [|done].
      by destruct (split_colon s) as [[before after]|].
Qed.

Lemma strings_Split_colon_second s :
  strings_Split_colon s !! 1 = None ↔ count_colon s = 0.
Proof.
  destruct (strings_Split_colon_first s) as (others & -> & <-). simpl.
  destruct others; simpl; split; done.
Qed.

Lemma input_edge_panics s input :
  input_edge s input = Panics ↔ count_colon (Input_Name input) = 0.
Proof.
  unfold input_edge. rewrite <- strings_Split_colon_second.
  destruct (strings_Split_colon (Input_Name input) !! 1); split; done.
Qed.

Lemma module_edges_panics s inputs :
  module_edges s inputs = Panics
  ↔ ∃ input, input ∈ inputs ∧ count_colon (Input_Name input) = 0.
Proof.
  induction inputs as [|input inputs IH]; simpl.
  - split; [done|]. intros (? & []%elem_of_nil & _).
  - pose proof (input_edge_panics s input) as Hedge.
    destruct (input_edge s input) as [e|].
    + destruct (module_edges s inputs) as [es|].
      * split; [done|]. intros (i & [->|Hin]%elem_of_cons & Hc).
        -- by apply Hedge in Hc.
        -- assert (Returns es = Panics) as Habs; [|done]. apply IH. by exists i.
      * split; [|done]. intros _. destruct (proj1 IH eq_refl) as (i & Hin & Hc).
        exists i. split; [by right|done].
    + split; [|done]. intros _. exists input. split; [by left|]. by apply Hedge.
Qed.

(** X14. [PrintMermaid] panics exactly when some input of some module has a
    name without a colon (as the name of an input that was never parsed,
    which is empty): [strings.Split(in.Name, ":")[1]] is then out of range. *)
Theorem PrintMermaid_panics_iff (modules : list Module) :
  PrintMermaid_edges modules = Panics
  ↔ ∃ s input, s ∈ modules ∧ input ∈ Module_Inputs s
               ∧ count_colon (Input_Name input) = 0.
Proof.
  induction modules as [|s modules IH]; simpl.
  - split; [done|]. intros (? & ? & []%elem_of_nil & _).
  - pose proof (module_edges_panics s (Module_Inputs s)) as Hs.
    destruct (module_edges s (Module_Inputs s)) as [es|].
    + destruct (PrintMermaid_edges modules) as [es'|].
      * split; [done|]. intros (s0 & i & [->|Hin]%elem_of_cons & Hi & Hc).
        -- assert (Returns es = Panics) as Habs; [|done]. apply Hs. by exists i.
        -- assert (Returns es' = Panics) as Habs; [|done]. apply IH. by exists s0, i.
      * split; [|done]. intros _. destruct (proj1 IH eq_refl) as (s0 & i & Hin & Hi & Hc).
        exists s0, i. split; [by right|done].
    + split; [|done]. intros _. destruct (proj1 Hs eq_refl) as (i & Hi & Hc).
      exists s, i. split; [by left|done].
Qed.

Lemma append_empty_l (s : string) : "" +:+ s = s.
Proof. reflexivity. Qed.

Lemma append_empty_r (s : string) : s +:+ "" = s.
Proof.
  induction s as [|c s IH]; [done|].
  change (String c s +:+ "") with (String c (s +:+ "")). by rewrite IH.
Qed.

Lemma input_edge_parsed s input :
  parsed input → input_edge s input = Returns (edge_of s input).
Proof.
  intros Hp. unfold input_edge, edge_of, label, reference.
  destruct (parsed_name input Hp) as [(_ & -> & -> & ->)|[(_ & -> & -> & ->)|(_ & -> & -> & ->)]];
    simpl;
    match goal with |- context [strings_Split_colon ?id] =>
      destruct (strings_Split_colon_first id) as (others & -> & _) end;
    simpl; by rewrite ?append_empty_l, ?append_empty_r.
Qed.

Lemma module_edges_parsed s inputs :
  Forall parsed inputs → module_edges s inputs = Returns (edge_of s <$> inputs).
Proof.
  induction 1 as [|input inputs Hp _ IH]; simpl; [done|].
  by rewrite (input_edge_parsed s input Hp), IH.
Qed.

(** X15. For modules whose inputs are all parsed, [PrintMermaid] does not
    panic and prints one edge per input, module after module and input after
    input: from what the input refers to (up to its first colon, if it has
    one), labelled with the name of the input and its mode when it has one,
    to the module that declares the input. *)
Theorem PrintMermaid_parsed (modules : list Module) :
  Forall (λ s, Forall parsed (Module_Inputs s)) modules →
  PrintMermaid_edges modules
  = Returns (concat ((λ s, edge_of s <$> Module_Inputs s) <$> modules)).
Proof.
  induction 1 as [|s modules Hs _ IH]; simpl; [done|].
  by rewrite (module_edges_parsed s _ Hs), IH.
Qed.

End diagram.

(** ** The conversion: [ToProto] and [loadCode] *)

Lemma union_known (X Y : gset string) (x : string) : x ∈ X → X ∪ ({[x]} ∪ Y) = X ∪ Y.
Proof.
  intros Hx. apply set_eq. intros y. rewrite !elem_of_union, elem_of_singleton.
  split; [|tauto]. intros [?|[->|?]]; tauto.
Qed.

Lemma union_new (X Y : gset string) (x : string) : {[x]} ∪ X ∪ Y = X ∪ ({[x]} ∪ Y).
Proof.
  apply set_eq. intros y. rewrite !elem_of_union, elem_of_singleton. tauto.
Qed.

Section conversion.
Import manifest manifest_more.
Context {FileDescriptor : Type}.
Variable ReadFile : string → result string (list byte).
Context `{pbtransform_manifest.Generated}.

Lemma setInputsToProto_loop_fields m inputs pbModule :
  let pbModule' := fst (setInputsToProto_loop m inputs pbModule) in
  pbtransform.Module_Name pbModule' = pbtransform.Module_Name pbModule
  ∧ pbtransform.Module_CodeIndex pbModule' = pbtransform.Module_CodeIndex pbModule
  ∧ pbtransform.Module_CodeEntrypoint pbModule'
    = pbtransform.Module_CodeEntrypoint pbModule.
Proof.
  revert pbModule. induction inputs as [|input inputs IH]; intros pbModule; simpl; [done|].
  destruct (input_to_proto m input) as [pbInput|]; [|done].
  destruct (IH (pbtransform.append_Input pbModule pbInput)) as (-> & -> & ->). done.
Qed.

Lemma Module_ToProto_Ok s codeIndex pbModule :
  Module_ToProto s (uint32 codeIndex) = Ok pbModule → message_of s codeIndex pbModule.
Proof.
  unfold Module_ToProto, Module_setInputsToProto, message_of.
  match goal with |- context [setInputsToProto_loop s ?inputs ?pb] =>
    pose proof (setInputsToProto_loop_fields s inputs pb) as Hfields;
    destruct (setInputsToProto_loop s inputs pb) as [pb' [err|]] end; [done|].
  intros [= <-]. simpl in *. by destruct Hfields as (-> & -> & ->).
Qed.

Lemma Module_ToProto_parsed s codeIndex :
  Forall parsed (Module_Inputs s) → ∃ pbModule, Module_ToProto s codeIndex = Ok pbModule.
Proof.
  intros Hparsed. unfold Module_ToProto, Module_setInputsToProto.
  match goal with |- context [setInputsToProto_loop s ?inputs ?pb] =>
    destruct (setInputsToProto_loop_parsed s inputs pb Hparsed) as (out & -> & _) end.
  by eexists.
Qed.

Lemma loadCode_Ok (m : @Manifest FileDescriptor) file modulesCode modulesCode' codeIndex :
  loadCode ReadFile m file modulesCode = (modulesCode', Ok codeIndex) →
  ∃ code, code_entry ReadFile m file code
          ∧ modulesCode' = modulesCode ++ [code]
          ∧ codeIndex = Z.of_nat (length modulesCode).
Proof.
  unfold loadCode, code_entry, code_type_of.
  destruct (ReadFile file) as [byteCode|]; [|done].
  destruct (String.eqb (CodeType m) "wasm/rust-v1");
    [|destruct (String.eqb (CodeType m) "native"); [|done]];
    intros [= <- <-]; (eexists; split; [by eexists _, _|]; split; [done|]);
    rewrite length_app; simpl; lia.
Qed.

Lemma code_indexed_insert (m : @Manifest FileDescriptor) moduleCodeIndexes modulesCode file code :
  code_indexed ReadFile m moduleCodeIndexes modulesCode →
  moduleCodeIndexes !! file = None →
  code_entry ReadFile m file code →
  code_indexed ReadFile m (<[file := Z.of_nat (length modulesCode)]> moduleCodeIndexes)
    (modulesCode ++ [code]).
Proof.
  intros [Hentries Hsize] Hfresh Hcode. split.
  - intros file' codeIndex. destruct (decide (file = file')) as [<-|Hne].
    + rewrite lookup_insert_eq. intros [= <-]. exists (length modulesCode), code.
      split; [done|]. split; [|done].
      by rewrite lookup_app_r, Nat.sub_diag by lia.
    + rewrite lookup_insert_ne by done. intros Hfile'.
      destruct (Hentries file' codeIndex Hfile') as (i & code' & -> & Hi & Hc).
      exists i, code'. split; [done|]. split; [|done].
      by apply lookup_app_l_Some.
  - rewrite map_size_insert_None by done. rewrite length_app. simpl. lia.
Qed.

(** The loop, from a state in which the two tables go together. *)
Lemma ToProto_loop_Ok (m : @Manifest FileDescriptor) modules :
  ∀ moduleCodeIndexes pbManifest pbManifest',
    code_indexed ReadFile m moduleCodeIndexes
      (pbtransform_manifest.Manifest_ModulesCode pbManifest) →
    ToProto_loop ReadFile m modules moduleCodeIndexes pbManifest = Ok pbManifest' →
    ∃ moduleCodeIndexes' pbModules,
      moduleCodeIndexes ⊆ moduleCodeIndexes'
      ∧ dom moduleCodeIndexes' = dom moduleCodeIndexes ∪ list_to_set (code_files modules)
      ∧ code_indexed ReadFile m moduleCodeIndexes'
          (pbtransform_manifest.Manifest_ModulesCode pbManifest')
      ∧ pbtransform_manifest.Manifest_Modules pbManifest'
        = pbtransform_manifest.Manifest_Modules pbManifest ++ pbModules
      ∧ Forall2 (λ s pbModule,
                   ∃ codeIndex,
                     moduleCodeIndexes' !! Code_File (Module_Code s) = Some codeIndex
                     ∧ message_of s codeIndex pbModule)
          modules pbModules
      ∧ pbtransform_manifest.Manifest_SpecVersion pbManifest'
        = pbtransform_manifest.Manifest_SpecVersion pbManifest
      ∧ pbtransform_manifest.Manifest_Description pbManifest'
        = pbtransform_manifest.Manifest_Description pbManifest.
Proof.
  induction modules as [|s modules IH]; intros idx pb pb' Hinv; simpl.
  - intros [= <-]. exists idx, []. rewrite app_nil_r.
    split; [done|]. split; [unfold code_files; simpl; by rewrite union_empty_r_L|].
    split; [done|]. split; [done|]. by split; [constructor|].
  - destruct (idx !! Code_File (Module_Code s)) as [codeIndex|] eqn:Hfile.
    + destruct (Module_ToProto s (uint32 codeIndex)) as [pbModule|] eqn:Hconv; [|done].
      intros Hrest.
      apply IH in Hrest as (idx' & pbModules & Hsub & Hdom & Hinv' & Hmods & Hall & Hv & Hd);
        [|done].
      exists idx', (pbModule :: pbModules). simpl in *.
      split; [done|]. split.
      { rewrite Hdom. unfold code_files. simpl. symmetry. apply union_known.
        by eapply elem_of_dom_2. }
      split; [done|]. split; [by rewrite Hmods, <- app_assoc|].
      split; [|done].
      constructor; [|done]. exists codeIndex. split.
      * by eapply lookup_weaken.
      * by apply Module_ToProto_Ok.
    + destruct (loadCode ReadFile m _ _) as [modulesCode [codeIndex|]] eqn:Hload; [|done].
      apply loadCode_Ok in Hload as (code & Hcode & -> & ->).
      destruct (Module_ToProto s (uint32 _)) as [pbModule|] eqn:Hconv; [|done].
      intros Hrest.
      apply IH in Hrest as (idx' & pbModules & Hsub & Hdom & Hinv' & Hmods & Hall & Hv & Hd);
        [|by apply code_indexed_insert].
      exists idx', (pbModule :: pbModules). simpl in *.
      split; [by etrans; [apply insert_subseteq|]|]. split.
      { rewrite Hdom, dom_insert_L. unfold code_files. simpl. apply union_new. }
      split; [done|]. split; [by rewrite Hmods, <- app_assoc|].
      split; [|done].
      constructor; [|done]. eexists. split.
      * eapply lookup_weaken; [|exact Hsub]. apply lookup_insert_eq.
      * by apply Module_ToProto_Ok.
Qed.

Lemma ToProto_Ok (m : @Manifest FileDescriptor) pbManifest :
  ToProto ReadFile m = Ok pbManifest →
  ∃ moduleCodeIndexes,
    dom moduleCodeIndexes = list_to_set (code_files (Modules m))
    ∧ code_indexed ReadFile m moduleCodeIndexes
        (pbtransform_manifest.Manifest_ModulesCode pbManifest)
    ∧ Forall2 (λ s pbModule,
                 ∃ codeIndex,
                   moduleCodeIndexes !! Code_File (Module_Code s) = Some codeIndex
                   ∧ message_of s codeIndex pbModule)
        (Modules m) (pbtransform_manifest.Manifest_Modules pbManifest)
    ∧ pbtransform_manifest.Manifest_SpecVersion pbManifest = SpecVersion m
    ∧ pbtransform_manifest.Manifest_Description pbManifest = Description m.
Proof.
  intros Hproto. unfold ToProto in Hproto.
  apply ToProto_loop_Ok in Hproto
    as (idx & pbModules & _ & Hdom & Hinv & Hmods & Hall & Hv & Hd).
  - exists idx. split; [by rewrite Hdom, dom_empty_L, union_empty_l_L|].
    split; [done|]. simpl in Hmods. by rewrite Hmods.
  - split; [by intros ? ? ?|done].
Qed.

(** X16. When [ToProto] succeeds the messages are those of the modules, one
    for one and in order, each with the name and the entrypoint of its module
    and a code index (as a uint32) at which the code table holds the bytes
    read from the code file of the module, under the code type of the
    manifest. *)
Theorem ToProto_modules (m : @Manifest FileDescriptor)
    (pbManifest : pbtransform_manifest.Manifest) :
  ToProto ReadFile m = Ok pbManifest →
  Forall2 (converted ReadFile m (pbtransform_manifest.Manifest_ModulesCode pbManifest))
    (Modules m) (pbtransform_manifest.Manifest_Modules pbManifest)
  ∧ pbtransform_manifest.Manifest_SpecVersion pbManifest = SpecVersion m
  ∧ pbtransform_manifest.Manifest_Description pbManifest = Description m.
Proof.
  intros Hproto.
  destruct (ToProto_Ok m pbManifest Hproto) as (idx & _ & [Hentries _] & Hall & Hv & Hd).
  split; [|done].
  eapply Forall2_impl; [exact Hall|]. intros s pbModule (codeIndex & Hidx & Hmsg).
  destruct (Hentries _ _ Hidx) as (i & code & -> & Hi & Hcode).
  by exists i, code.
Qed.

(** X17. The code is loaded once per code file: two modules with the same
    code file get the same code index, and the code table has as many entries
    as the modules have distinct code files. *)
Theorem ToProto_shares_code (m : @Manifest FileDescriptor)
    (pbManifest : pbtransform_manifest.Manifest) :
  ToProto ReadFile m = Ok pbManifest →
  (∀ j1 j2 s1 s2 pbModule1 pbModule2,
     Modules m !! j1 = Some s1 → Modules m !! j2 = Some s2 →
     pbtransform_manifest.Manifest_Modules pbManifest !! j1 = Some pbModule1 →
     pbtransform_manifest.Manifest_Modules pbManifest !! j2 = Some pbModule2 →
     Code_File (Module_Code s1) = Code_File (Module_Code s2) →
     pbtransform.Module_CodeIndex (pbtransform_manifest.Module_fields pbModule1)
     = pbtransform.Module_CodeIndex (pbtransform_manifest.Module_fields pbModule2))
  ∧ length (pbtransform_manifest.Manifest_ModulesCode pbManifest)
    = size (list_to_set (code_files (Modules m)) : gset string).
Proof.
  intros Hproto.
  destruct (ToProto_Ok m pbManifest Hproto) as (idx & Hdom & [_ Hsize] & Hall & _).
  split.
  - intros j1 j2 s1 s2 pb1 pb2 Hs1 Hs2 Hp1 Hp2 Hfile.
    destruct (Forall2_lookup_lr _ _ _ _ _ _ Hall Hs1 Hp1) as (k1 & Hk1 & _ & _ & ->).
    destruct (Forall2_lookup_lr _ _ _ _ _ _ Hall Hs2 Hp2) as (k2 & Hk2 & _ & _ & ->).
    rewrite Hfile in Hk1. congruence.
  - by rewrite <- Hsize, <- Hdom, size_dom.
Qed.

(** The loop goes through, from any state of the two tables. *)
Lemma ToProto_loop_total (m : @Manifest FileDescriptor) (modules : list Module) :
  (CodeType m = "wasm/rust-v1" ∨ CodeType m = "native") →
  Forall (λ s, Forall parsed (Module_Inputs s)
               ∧ ∃ byteCode, ReadFile (Code_File (Module_Code s)) = Ok byteCode)
    modules →
  ∀ moduleCodeIndexes pbManifest,
    ∃ pbManifest', ToProto_loop ReadFile m modules moduleCodeIndexes pbManifest = Ok pbManifest'.
Proof.
  intros Hct Hall.
  induction Hall as [|s modules [Hparsed [byteCode Hread]] _ IH]; intros idx pb; simpl.
  - by eexists.
  - destruct (idx !! Code_File (Module_Code s)) as [codeIndex|].
    + destruct (Module_ToProto_parsed s (uint32 codeIndex) Hparsed) as [pbModule ->].
      apply IH.
    + unfold loadCode. rewrite Hread.
      assert (∃ codeType,
                (if String.eqb (CodeType m) "wasm/rust-v1"
                 then Some pbtransform_manifest.ModuleCode_WASM_RUST_V1
                 else if String.eqb (CodeType m) "native"
                 then Some pbtransform_manifest.ModuleCode_NATIVE else None)
                = Some codeType) as [codeType ->].
      { destruct Hct as [-> | ->]; by eexists. }
      match goal with |- context [Module_ToProto s ?k] =>
        destruct (Module_ToProto_parsed s k Hparsed) as [pbModule ->] end.
      apply IH.
Qed.

(** X18. A manifest whose code type is wasm/rust-v1 or native, whose
    modules have parsed inputs and code files that can be read, converts:
    [ToProto] returns no error. *)
Theorem ToProto_succeeds (m : @Manifest FileDescriptor) :
  (CodeType m = "wasm/rust-v1" ∨ CodeType m = "native") →
  Forall (λ s, Forall parsed (Module_Inputs s)
               ∧ ∃ byteCode, ReadFile (Code_File (Module_Code s)) = Ok byteCode)
    (Modules m) →
  ∃ pbManifest, ToProto ReadFile m = Ok pbManifest.
Proof.
  intros Hct Hall. unfold ToProto. by apply ToProto_loop_total.
Qed.

End conversion.

(** ** Loading a manifest with its code: [New] *)
Section loading_code.
Import manifest manifest_more.
Context {FileDescriptor : Type}.
Variable ParseFiles : list string → result string (list FileDescriptor).
Variable ReadFile : string → result string (list byte).
Variable NewModuleGraph : list Module → result string ModuleGraph.

Lemma load_contents_Ok modules modules' :
  load_contents ReadFile modules = Ok modules' →
  Forall2 (with_code ReadFile) modules modules' ∧ Forall (holds_code ReadFile) modules'.
Proof.
  revert modules'. induction modules as [|s modules IH]; intros modules'; simpl.
  - intros [= <-]. by split.
  - unfold nonempty, with_code, isempty.
    destruct (String.eqb_spec (Code_File (Module_Code s)) "") as [Hfile|Hfile]; simpl.
    + destruct (load_contents ReadFile modules) as [rest|]; [|done].
      intros [= <-]. destruct (IH rest eq_refl) as [Hwith Hholds].
      split; constructor; try done. by rewrite Hfile.
    + destruct (ReadFile (Code_File (Module_Code s))) as [cnt|] eqn:Hread; [|done].
      destruct cnt as [|b cnt]; [done|]. simpl.
      destruct (load_contents ReadFile modules) as [rest|]; [|done].
      intros [= <-]. destruct (IH rest eq_refl) as [Hwith Hholds].
      split; constructor; [| done | | done].
      * rewrite (proj2 (String.eqb_neq _ _) Hfile). by eexists.
      * intros _. simpl. by rewrite Hread.
Qed.

(** The content of the code is none of what [newWithoutLoad] checks. *)
Lemma with_code_valid s s' : with_code ReadFile s s' → valid_module s → valid_module s'.
Proof.
  unfold with_code. destruct (isempty _); [by intros ->|].
  by intros (cnt & _ & ->).
Qed.

Lemma with_code_fields s s' :
  with_code ReadFile s s' →
  Code_File (Module_Code s') = Code_File (Module_Code s)
  ∧ Module_Inputs s' = Module_Inputs s.
Proof.
  unfold with_code. destruct (isempty _); [by intros ->|].
  by intros (cnt & _ & ->).
Qed.

Lemma New_inv (decoded : result string (@Manifest FileDescriptor)) (m' : Manifest) :
  New ParseFiles ReadFile NewModuleGraph decoded = Ok m' →
  ∃ m0 fileDescs modules,
    newWithoutLoad NewModuleGraph decoded = Ok m0
    ∧ ParseFiles (ProtoFiles m0) = Ok fileDescs
    ∧ load_contents ReadFile (Modules m0) = Ok modules
    ∧ m' = set_Modules (set_ProtoDescs m0 fileDescs) modules.
Proof.
  unfold New. destruct (newWithoutLoad NewModuleGraph decoded) as [m0|]; [|done].
  destruct (ParseFiles (ProtoFiles m0)) as [fileDescs|] eqn:Hparse; [|done]. simpl.
  destruct (load_contents ReadFile (Modules m0)) as [modules|] eqn:Hload; [|done].
  intros [= <-]. by exists m0, fileDescs, modules.
Qed.

(** X19. A manifest [New] returns is the one [newWithoutLoad] returns, with
    the descriptors of its proto files and, in every module that names a code
    file, the bytes read from the file, which are not empty; the modules are
    still as [newWithoutLoad] checked them. *)
Theorem New_loads (decoded : result string (@Manifest FileDescriptor)) (m' : Manifest) :
  New ParseFiles ReadFile NewModuleGraph decoded = Ok m' →
  ∃ m0,
    newWithoutLoad NewModuleGraph decoded = Ok m0
    ∧ ParseFiles (ProtoFiles m0) = Ok (ProtoDescs m')
    ∧ Forall2 (with_code ReadFile) (Modules m0) (Modules m')
    ∧ Forall (λ s, valid_module s ∧ holds_code ReadFile s) (Modules m')
    ∧ m' = set_Modules (set_ProtoDescs m0 (ProtoDescs m')) (Modules m').
Proof.
  intros (m0 & fileDescs & modules & Hchecked & Hparse & Hload & ->)%New_inv.
  exists m0. simpl. split; [done|]. split; [done|].
  destruct (load_contents_Ok _ _ Hload) as [Hwith Hholds]. split; [done|]. split; [|done].
  destruct (newWithoutLoad_valid_aux _ _ _ Hchecked) as (m & graph & _ & Hvalid & _ & _).
  apply Forall_forall. intros s' Hin. split; [|by eapply Forall_forall in Hholds].
  apply list_elem_of_lookup in Hin as [i Hi].
  destruct (Forall2_lookup_r _ _ _ _ _ Hwith Hi) as (s & Hs & Hss).
  eapply with_code_valid; [exact Hss|].
  eapply Forall_lookup_1; [exact Hvalid|exact Hs].
Qed.

Context `{pbtransform_manifest.Generated}.

(** X20. Loading, then converting: a manifest [New] returned, every module
    of which names a code file, converts while the files are what they were. *)
Theorem New_converts (decoded : result string (@Manifest FileDescriptor)) (m' : Manifest) :
  New ParseFiles ReadFile NewModuleGraph decoded = Ok m' →
  Forall (λ s, Code_File (Module_Code s) ≠ "") (Modules m') →
  ∃ pbManifest, ToProto ReadFile m' = Ok pbManifest.
Proof.
  intros (m0 & fileDescs & modules & Hchecked & Hparse & Hload & ->)%New_inv Hfiles.
  simpl in Hfiles.
  destruct (newWithoutLoad_valid_aux _ _ _ Hchecked) as (m & graph & Hct & Hvalid & _ & ->).
  destruct (load_contents_Ok _ _ Hload) as [Hwith Hholds]. simpl in *.
  unfold ToProto. apply ToProto_loop_total; [done|]. simpl.
  apply Forall_forall. intros s' Hin.
  pose proof Hin as [i Hi]%list_elem_of_lookup.
  destruct (Forall2_lookup_r _ _ _ _ _ Hwith Hi) as (s & Hs & Hss).
  destruct (with_code_fields s s' Hss) as [Hfile Hinputs]. split.
  - rewrite Hinputs. eapply Forall_lookup_1 in Hvalid as (_ & _ & _ & Hparsed); [|exact Hs].
    done.
  - eapply Forall_forall in Hfiles; [|exact Hin].
    eapply Forall_forall in Hholds; [|exact Hin].
    destruct (Hholds Hfiles) as [Hread _]. by eexists.
Qed.

End loading_code.

(** ** The properties of loading, of the diagram and of the conversion on a
    manifest of three modules *)

Lemma checked_modules_parsed :
  Forall (λ s, Forall parsed (manifest.Module_Inputs s)) checked_modules.
Proof.
  repeat constructor.
  - by exists (manifest.mkInput "sf.ethereum.type.v1.Block" "" "" "" "").
  - by exists (manifest.mkInput "" "" "pairs" "" "").
  - by exists (manifest.mkInput "" "prices" "" "deltas" "").
  - by exists (manifest.mkInput "" "" "pairs" "" "").
Qed.

Lemma newWithoutLoad_valid_witness :
  ∃ m graph,
    (Ok declared_manifest : result string manifest_more.Manifest) = Ok m
    ∧ (manifest_more.CodeType m = "wasm/rust-v1" ∨ manifest_more.CodeType m = "native")
    ∧ Forall2 loaded_from (manifest_more.Modules m) checked_modules
    ∧ Forall valid_module checked_modules
    ∧ example_NewModuleGraph checked_modules = Ok graph
    ∧ checked_manifest
      = manifest_more.set_Graph (manifest_more.set_Modules m checked_modules) graph.
Proof.
  apply (newWithoutLoad_valid example_NewModuleGraph (Ok declared_manifest) checked_manifest).
  reflexivity.
Defined.

Lemma newWithoutLoad_idempotent_witness :
  manifest_more.newWithoutLoad example_NewModuleGraph (Ok checked_manifest)
  = Ok checked_manifest.
Proof.
  apply (newWithoutLoad_idempotent example_NewModuleGraph (Ok declared_manifest)
           checked_manifest).
  reflexivity.
Defined.

Lemma Signature_ignores_witness :
  manifest.signature 3 example_module_graph 2 (<[2 := totals_variant]> example_heap)
  = manifest.signature 3 example_module_graph 2 example_heap.
Proof.
  apply (Signature_ignores 3 example_module_graph example_heap 2 totals_module totals_variant);
    try reflexivity.
  apply perm_swap.
Defined.

Lemma Signature_repeatable_witness :
  ∃ s, manifest.Module_Signature 3 example_module_graph 2 example_heap = Some (s, sorted_heap)
       ∧ manifest.signature 3 example_module_graph 2 sorted_heap = Some s.
Proof.
  eexists.
  assert (manifest.Module_Signature 3 example_module_graph 2 example_heap
          = Some (_, sorted_heap)) as Hsig by (vm_compute; reflexivity).
  split; [exact Hsig|].
  exact (Signature_repeatable 3 example_module_graph example_heap sorted_heap 2 _ Hsig).
Defined.

Lemma Signature_sorts_inputs_witness :
  ∃ m', sorted_heap !! 2 = Some m'
        ∧ Sorted String.le (names_of (manifest.Module_Inputs m'))
        ∧ reordered totals_module m'.
Proof.
  eapply (Signature_sorts_inputs 3 example_module_graph example_heap sorted_heap 2
            totals_module).
  - reflexivity.
  - vm_compute. reflexivity.
Defined.

Lemma PrintMermaid_parsed_witness :
  manifest_more.PrintMermaid_edges checked_modules
  = Returns
      [ manifest_more.mkEdge "sf.ethereum.type.v1.Block" "source:sf.ethereum.type.v1.Block"
          "pairs";
        manifest_more.mkEdge "pairs" "map:pairs" "prices";
        manifest_more.mkEdge "prices" "store:prices:deltas" "totals";
        manifest_more.mkEdge "pairs" "map:pairs" "totals" ].
Proof.
  apply (PrintMermaid_parsed checked_modules). apply checked_modules_parsed.
Defined.

Lemma checked_manifest_converts :
  manifest_more.ToProto example_ReadFile checked_manifest = Ok example_message.
Proof. vm_compute. reflexivity. Qed.

Lemma ToProto_modules_witness :
  Forall2 (converted example_ReadFile checked_manifest
             (pbtransform_manifest.Manifest_ModulesCode example_message))
    checked_modules (pbtransform_manifest.Manifest_Modules example_message)
  ∧ pbtransform_manifest.Manifest_SpecVersion example_message = "v0.1.0"
  ∧ pbtransform_manifest.Manifest_Description example_message = "pairs, prices and totals".
Proof.
  apply (ToProto_modules example_ReadFile checked_manifest example_message).
  apply checked_manifest_converts.
Defined.

Lemma ToProto_shares_code_witness :
  (∀ j1 j2 s1 s2 pbModule1 pbModule2,
     checked_modules !! j1 = Some s1 → checked_modules !! j2 = Some s2 →
     pbtransform_manifest.Manifest_Modules example_message !! j1 = Some pbModule1 →
     pbtransform_manifest.Manifest_Modules example_message !! j2 = Some pbModule2 →
     manifest.Code_File (manifest.Module_Code s1) = manifest.Code_File (manifest.Module_Code s2) →
     pbtransform.Module_CodeIndex (pbtransform_manifest.Module_fields pbModule1)
     = pbtransform.Module_CodeIndex (pbtransform_manifest.Module_fields pbModule2))
  ∧ length (pbtransform_manifest.Manifest_ModulesCode example_message)
    = size (list_to_set (code_files checked_modules) : gset string).
Proof.
  apply (ToProto_shares_code example_ReadFile checked_manifest example_message).
  apply checked_manifest_converts.
Defined.

Lemma ToProto_succeeds_witness :
  ∃ pbManifest, manifest_more.ToProto example_ReadFile checked_manifest = Ok pbManifest.
Proof.
  apply (ToProto_succeeds example_ReadFile checked_manifest).
  - by left.
  - pose proof checked_modules_parsed as Hparsed. unfold checked_modules in *.
    repeat (apply Forall_cons_1 in Hparsed as [? Hparsed]).
    repeat (constructor; [split; [done|by eexists]|]). constructor.
Defined.

Lemma New_loads_witness :
  ∃ m0,
    manifest_more.newWithoutLoad example_NewModuleGraph (Ok declared_manifest) = Ok m0
    ∧ example_ParseFiles (manifest_more.ProtoFiles m0) = Ok [tt]
    ∧ Forall2 (with_code example_ReadFile) (manifest_more.Modules m0) loaded_modules
    ∧ Forall (λ s, valid_module s ∧ holds_code example_ReadFile s) loaded_modules
    ∧ loaded_manifest
      = manifest_more.set_Modules (manifest_more.set_ProtoDescs m0 [tt]) loaded_modules.
Proof.
  apply (New_loads example_ParseFiles example_ReadFile example_NewModuleGraph
           (Ok declared_manifest) loaded_manifest).
  reflexivity.
Defined.

Lemma New_converts_witness :
  ∃ pbManifest, manifest_more.ToProto example_ReadFile loaded_manifest = Ok pbManifest.
Proof.
  apply (New_converts example_ParseFiles example_ReadFile example_NewModuleGraph
           (Ok declared_manifest) loaded_manifest).
  - reflexivity.
  - repeat constructor; done.
Defined.
